(** * SoundFlow: the calling layer of the dynamics engine

    A shallow embedding of [libeffects.py] (the shared-library manager and
    its module-level singleton) and of the two nodes of [nodes.py] that call
    into the native library: [SoundFlow_SimpleCompressorNode.apply_compression]
    and [SoundFlow_DuckCompressorNode.apply_ducking].

    The native library itself is not part of the repository.  Its three entry
    points ([ProcessCompressor], [ProcessDucking], [FreeProcessingResult]) are
    parameters of the development; every call that reaches them is recorded in
    a log, so that statements about "how often" and "with which arguments" the
    engine is invoked are statements about that log.

    The last part embeds the editing nodes of [nodes.py] (trimming, setting
    the length, silence removal, crossfades, gain, equalizer, preview) as
    functions on tensor values; floating-point arithmetic and the signal
    processing of torch and torchaudio are parameters there. *)

From Stdlib Require Import ZArith Lia Sorted.
From stdpp Require Import base option list strings.

Open Scope string_scope.
Open Scope list_scope.

(** ** Exceptions and console output *)

(** The Python exceptions that the modelled code can raise. All of them are
    subclasses of [Exception], hence caught by [except Exception]. *)
Inductive exn :=
| RuntimeError
| FileNotFoundError
| OSError
| AttributeError
| IndexError
| KeyError
| ValueError.

(** Calls of [print], one entry each; the formatted text is abstracted to the
    situation it reports and the values it interpolates. [Traceback e] is
    the text of [traceback.format_exc()], whose last line names [e]. *)
Inductive message :=
| TryingToLoad (lib_path : string)
| FailedToLoad (lib_path : string)
| LibraryNotFoundAt (lib_path : string)
| SuccessfullyLoaded (lib_path : string)
| CriticalLoadError (e : exn)
| Traceback (e : exn)
| CannotProcessAudio
| CannotProcessDucking
| CompressorNotLoaded
| CompressorInputShape (shape : nat * nat * nat) (sample_rate : Z)
| CompressorSettings
| SkippingEmptyChannel (b c : nat)
| DuckNotLoaded
| DuckErrorProcessingResult (e : exn)
| DuckNullResult
| DuckErrorDuringProcessing (e : exn).

(** ** libeffects.py *)

(** What [ctypes.CDLL] hands back: the file that was opened and the symbols
    it exports (attribute access on a missing symbol raises
    [AttributeError]). *)
Record CDLL := { cdll_path : string; cdll_symbols : list string }.

(** The part of the operating system that [load_library] looks at. *)
Record Platform := {
  os_name : string;                       (* os.name *)
  platform_system : string;               (* platform.system() *)
  script_dir : string;                    (* dirname(abspath(__file__)) *)
  path_join : string → string → string;   (* os.path.join *)
  path_exists : string → bool;            (* os.path.exists *)
  dlopen : string → option CDLL           (* ctypes.CDLL; None: it raised *)
}.

(** The fields of a [SoundFlowLibraryManager] object. *)
Record SoundFlowLibraryManager := {
  lib_base_name : string;
  lib : option CDLL;
  loaded : bool
}.

(** [SoundFlowLibraryManager.__init__] *)
Definition init (lib_base_name : string) : SoundFlowLibraryManager :=
  {| lib_base_name := lib_base_name; lib := None; loaded := false |}.

Definition set_lib (self : SoundFlowLibraryManager) (h : CDLL) :=
  {| lib_base_name := lib_base_name self; lib := Some h; loaded := loaded self |}.

Definition set_loaded (self : SoundFlowLibraryManager) (v : bool) :=
  {| lib_base_name := lib_base_name self; lib := lib self; loaded := v |}.

(** The platform-specific candidate file names, or the [RuntimeError] for an
    unsupported platform. *)
Definition lib_names (P : Platform) (base : string) : exn + list string :=
  if String.eqb (os_name P) "nt" then
    inr [base +:+ ".dll"; "lib" +:+ base +:+ ".dll"]
  else if String.eqb (os_name P) "posix" then
    if String.eqb (platform_system P) "Darwin"
    then inr ["lib" +:+ base +:+ ".dylib"]
    else inr ["lib" +:+ base +:+ ".so"]
  else inl RuntimeError.

(** The [for lib_name in lib_names] loop: the first candidate that exists and
    opens wins ([break]); the result carries [loaded_path]. *)
Fixpoint try_names (P : Platform) (names : list string)
    (self : SoundFlowLibraryManager) (out : list message)
  : SoundFlowLibraryManager * option string * list message :=
  match names with
  | [] => (self, None, out)
  | lib_name :: rest =>
      let lib_path := path_join P (script_dir P) lib_name in
      let out := out ++ [TryingToLoad lib_path] in
      if path_exists P lib_path then
        match dlopen P lib_path with
        | Some h => (set_lib self h, Some lib_path, out)
        | None => try_names P rest self (out ++ [FailedToLoad lib_path])
        end
      else try_names P rest self (out ++ [LibraryNotFoundAt lib_path])
  end.

(** [_setup_function_signatures]: touching [self.lib.<symbol>] resolves the
    symbol, which fails with [AttributeError] when the library lacks it. *)
Definition _setup_function_signatures (self : SoundFlowLibraryManager)
  : exn + unit :=
  match lib self with
  | None => inr tt
  | Some h =>
      if forallb (λ s, bool_decide (s ∈ cdll_symbols h))
           ["ProcessCompressor"; "ProcessDucking"; "FreeProcessingResult"]
      then inr tt else inl AttributeError
  end.

(** [load_library]: returns the truth value, the updated object and the
    console. Every exception is caught, reported with its traceback and
    turns into [loaded = False]. *)
Definition load_library (P : Platform) (self : SoundFlowLibraryManager)
    (out : list message) : bool * SoundFlowLibraryManager * list message :=
  let failed self out e :=
    (false, set_loaded self false,
     out ++ [CriticalLoadError e; Traceback e]) in
  match lib_names P (lib_base_name self) with
  | inl e => failed self out e
  | inr names =>
      match try_names P names self out with
      | (self, None, out) => failed self out FileNotFoundError
      | (self, Some loaded_path, out) =>
          let out := out ++ [SuccessfullyLoaded loaded_path] in
          match _setup_function_signatures self with
          | inl e => failed self out e
          | inr _ => (true, set_loaded self true, out)
          end
      end
  end.

(** *** The module-level singleton *)

(** Method invocations on manager objects, in program order. Objects are
    addressed by their position in the object store. *)
Inductive invocation :=
| Constructed (ref : nat) (lib_base_name : string)
| LoadLibrary (ref : nat).

Record world := {
  _library_manager : option nat;            (* the global; None is Python's None *)
  objects : list SoundFlowLibraryManager;   (* every manager ever constructed *)
  invocations : list invocation;
  stdout : list message
}.

(** The module right after import: [_library_manager = None]. *)
Definition imported : world :=
  {| _library_manager := None; objects := []; invocations := []; stdout := [] |}.

(** [get_library_manager(lib_base_name)] *)
Definition get_library_manager (P : Platform) (lib_base_name : string)
    (w : world) : nat * world :=
  match _library_manager w with
  | Some r => (r, w)
  | None =>
      let r := length (objects w) in
      let '(_, self, out) := load_library P (init lib_base_name) (stdout w) in
      (r, {| _library_manager := Some r;
             objects := objects w ++ [self];
             invocations := invocations w ++ [Constructed r lib_base_name; LoadLibrary r];
             stdout := out |})
  end.

(** A caller that asks for the manager once per name of [names], threading
    the module state; it collects the references it was given. *)
Fixpoint get_many (P : Platform) (names : list string) (w : world)
  : list nat * world :=
  match names with
  | [] => ([], w)
  | n :: rest =>
      let '(r, w1) := get_library_manager P n w in
      let '(rs, w2) := get_many P rest w1 in
      (r :: rs, w2)
  end.

(** ** nodes.py: tensors, audio dictionaries and the native boundary *)

(** [c_int(v)]: ctypes keeps the low 32 bits, read as a signed integer. *)
Definition c_int (v : Z) : Z := ((v + 2 ^ 31) mod 2 ^ 32 - 2 ^ 31)%Z.

Section nodes.

(** [f32] are the float32 values held by waveform tensors, NumPy buffers
    and [c_float] arguments (ComfyUI waveforms are float32, so
    [astype(np.float32)] copies without converting); [pyfloat] are Python
    floats, narrowed by [c_float]. [tsum] is the reduction computed by
    [torch.sum] over one list of values and [tdiv x n] is [x / n]. *)
Context {f32 pyfloat : Type}.
Context (zero : f32) (c_float : pyfloat → f32).
Context (tsum : list f32 → f32) (tdiv : f32 → nat → f32).

(** A three-dimensional tensor [batch, channels, samples]. The shape is
    kept beside the nested data because a dimension may be zero. *)
Record Tensor := {
  shape0 : nat;
  shape1 : nat;
  shape2 : nat;
  data : list (list (list f32))
}.

Definition well_shaped (t : Tensor) : Prop :=
  length (data t) = shape0 t ∧
  Forall (λ m, length m = shape1 t ∧
               Forall (λ ch : list f32, length ch = shape2 t) m) (data t).

Definition same_shape (t u : Tensor) : Prop :=
  shape0 t = shape0 u ∧ shape1 t = shape1 u ∧ shape2 t = shape2 u.

(** [t[b, c]] as a value. *)
Definition channel (d : list (list (list f32))) (b c : nat) : option (list f32) :=
  d !! b ≫= (.!! c).

(** The data after [t[b, c] = v]. *)
Definition set_channel (d : list (list (list f32))) (b c : nat) (v : list f32) :=
  alter (<[c := v]>) b d.

(** The ComfyUI AUDIO dictionary: ['waveform'] refers to a tensor object
    (its position in the store), ['sample_rate'] is an integer. A
    reference that designates no tensor stands for a dictionary without
    the ['waveform'] key: reading it raises [KeyError]. *)
Record AUDIO := { waveform : nat; sample_rate : Z }.

(** Node widgets of the compressor, as Python floats. *)
Record CompressorParams := {
  threshold_db : pyfloat; ratio : pyfloat; attack_ms : pyfloat;
  release_ms : pyfloat; knee_db : pyfloat; makeup_gain_db : pyfloat;
  mix : pyfloat
}.

(** Node widgets of the ducking compressor. *)
Record DuckingParams := {
  main_gain_db : pyfloat; sidechain_gain_db : pyfloat;
  duck_threshold_db : pyfloat; reduction_db : pyfloat;
  duck_attack_ms : pyfloat; duck_release_ms : pyfloat
}.

(** The C arguments of [ProcessCompressor]; the pointer is modelled by the
    buffer it designates. *)
Record CompressorCall := {
  cc_waveform : list f32; cc_length : Z; cc_sample_rate : Z;
  cc_threshold_db : f32; cc_ratio : f32; cc_attack_ms : f32;
  cc_release_ms : f32; cc_knee_db : f32; cc_makeup_gain_db : f32;
  cc_mix : f32
}.

(** The C arguments of [ProcessDucking]. *)
Record DuckingCall := {
  dc_main : list f32; dc_main_length : Z; dc_main_sample_rate : Z;
  dc_main_gain_db : f32;
  dc_sidechain : list f32; dc_sidechain_length : Z;
  dc_sidechain_sample_rate : Z; dc_sidechain_gain_db : f32;
  dc_threshold_db : f32; dc_reduction_db : f32;
  dc_attack_ms : f32; dc_release_ms : f32
}.

(** The [ProcessingResult] structure. [audio_ptr] is modelled together
    with the [length] field that says how many floats it designates;
    [None] is the NULL pointer. *)
Record ProcessingResult := {
  audio_ptr : option (list f32);
  result_sample_rate : Z
}.

(** A non-null [POINTER(ProcessingResult)]. [address] names the allocation
    (see [engine_answer]); it is not the place in memory, which the
    allocator may hand out again once the result is freed, so nothing is
    derived from two pointers having different addresses. *)
Record pointer := { address : nat; contents : ProcessingResult }.

(** What crosses the foreign-function boundary. *)
Inductive native_call :=
| ProcessCompressor_call (a : CompressorCall)
| ProcessDucking_call (a : DuckingCall) (ret : option pointer)
| FreeProcessingResult_call (p : pointer).

(** The engine. [ProcessCompressor a i] is the sample that the routine
    leaves in cell [i] of the buffer it was handed: it works in place, so
    it cannot change the buffer's length, and it is a function of its
    arguments. [ProcessDucking] allocates, and may answer NULL; its answer
    may depend on everything the library was asked before. *)
Context (ProcessCompressor : CompressorCall → nat → f32).
Context (ProcessDucking : list native_call → DuckingCall → option ProcessingResult).

Record state := {
  tensors : list Tensor;        (* torch tensor objects *)
  native : list native_call;    (* calls into the shared library *)
  console : list message
}.

(** *** Control flow: state, exceptions and early [return] *)

Inductive completion (A : Type) :=
| Normal (a : A)
| Return (r : AUDIO)
| Raise (e : exn).
Global Arguments Normal {A} a.
Global Arguments Return {A} r.
Global Arguments Raise {A} e.

Definition M (A : Type) : Type := state → completion A * state.

Definition ret {A} (a : A) : M A := λ st, (Normal a, st).

Definition bind {A B} (m : M A) (k : A → M B) : M B :=
  λ st, match m st with
        | (Normal a, st') => k a st'
        | (Return r, st') => (Return r, st')
        | (Raise e, st') => (Raise e, st')
        end.

Definition return_ {A} (r : AUDIO) : M A := λ st, (Return r, st).
Definition raise {A} (e : exn) : M A := λ st, (Raise e, st).

(** [try: body except Exception as e: handler e] *)
Definition try_except {A} (body : M A) (handler : exn → M A) : M A :=
  λ st, match body st with
        | (Raise e, st') => handler e st'
        | other => other
        end.

Definition lift {A} (e : exn) (o : option A) : M A :=
  match o with Some a => ret a | None => raise e end.

(** [for x in xs: body x] *)
Fixpoint for_each {A} (xs : list A) (body : A → M unit) : M unit :=
  match xs with
  | [] => ret tt
  | x :: rest => bind (body x) (λ _, for_each rest body)
  end.

(** A call of a node method: its value, or the exception that escaped. *)
Definition call (body : M AUDIO) (st : state) : (exn + AUDIO) * state :=
  match body st with
  | (Normal r, st') => (inr r, st')
  | (Return r, st') => (inr r, st')
  | (Raise e, st') => (inl e, st')
  end.

Notation "'let*' x ':=' c1 'in' c2" := (bind c1 (λ x, c2))
  (at level 10, x pattern, c1 at level 100, c2 at level 200).
Notation "c1 ;; c2" := (bind c1 (λ _, c2))
  (at level 100, c2 at level 200, right associativity).

(** *** Primitive effects *)

Definition print (m : message) : M unit :=
  λ st, (Normal tt, {| tensors := tensors st; native := native st;
                       console := console st ++ [m] |}).

Definition record (c : native_call) : M unit :=
  λ st, (Normal tt, {| tensors := tensors st; native := native st ++ [c];
                       console := console st |}).

(** A new tensor object ([clone], [zeros_like]); the result refers to it. *)
Definition new_tensor (t : Tensor) : M nat :=
  λ st, (Normal (length (tensors st)),
         {| tensors := tensors st ++ [t]; native := native st;
            console := console st |}).

Definition tensor_at (r : nat) : M Tensor :=
  λ st, match tensors st !! r with
        | Some t => (Normal t, st)
        | None => (Raise KeyError, st)
        end.

Definition store (r : nat) (t : Tensor) : M unit :=
  λ st, (Normal tt, {| tensors := <[r := t]> (tensors st); native := native st;
                       console := console st |}).

Definition with_data (t : Tensor) (d : list (list (list f32))) : Tensor :=
  {| shape0 := shape0 t; shape1 := shape1 t; shape2 := shape2 t; data := d |}.

(** [t[b]] and [t[b, c]], copied out of the tensor that [r] refers to
    ([.detach().cpu().numpy().astype(np.float32)] yields a fresh buffer). *)
Definition read_batch (r b : nat) : M (list (list f32)) :=
  let* t := tensor_at r in lift IndexError (data t !! b).

Definition read_channel (r b c : nat) : M (list f32) :=
  let* t := tensor_at r in lift IndexError (channel (data t) b c).

(** [dst.copy_(src)] on one-dimensional tensors: sizes must agree unless
    [src] has a single element, which is broadcast. *)
Definition copy_ (dst src : list f32) : exn + list f32 :=
  if (length src =? length dst)%nat then inr src
  else match src with
       | [x] => inr (replicate (length dst) x)
       | _ => inl RuntimeError
       end.

(** [t[b, c] = v] *)
Definition assign_channel (r b c : nat) (v : list f32) : M unit :=
  let* t := tensor_at r in
  let* old := lift IndexError (channel (data t) b c) in
  match copy_ old v with
  | inl e => raise e
  | inr new => store r (with_data t (set_channel (data t) b c new))
  end.

(** [t[b, c, :n] = v]: the slice is the view of the first [n] cells (fewer
    when the channel is shorter). *)
Definition assign_prefix (r b c n : nat) (v : list f32) : M unit :=
  let* t := tensor_at r in
  let* old := lift IndexError (channel (data t) b c) in
  match copy_ (take n old) v with
  | inl e => raise e
  | inr new => store r (with_data t (set_channel (data t) b c (new ++ drop n old)))
  end.

(** [torch.zeros_like(t)] *)
Definition zeros_like (t : Tensor) : Tensor :=
  with_data t (replicate (shape0 t) (replicate (shape1 t) (replicate (shape2 t) zero))).

(** [torch.sum(m, dim=0)] of a [channels, samples] matrix with [n] samples
    per channel. *)
Definition sum_dim0 (n : nat) (m : list (list f32)) : list f32 :=
  (λ i, tsum ((λ ch : list f32, default zero (ch !! i)) <$> m)) <$> seq 0 n.

(** *** libeffects.py: the wrappers around the native entry points *)

Definition usable (self : SoundFlowLibraryManager) : bool :=
  loaded self && bool_decide (is_Some (lib self)).

(** The buffer after [ProcessCompressor] has run over it in place. *)
Definition in_place (a : CompressorCall) : list f32 :=
  ProcessCompressor a <$> seq 0 (length (cc_waveform a)).

Definition compressor_call (waveform_ptr : list f32) (length sample_rate : Z)
    (p : CompressorParams) : CompressorCall :=
  {| cc_waveform := waveform_ptr; cc_length := c_int length;
     cc_sample_rate := c_int sample_rate;
     cc_threshold_db := c_float (threshold_db p);
     cc_ratio := c_float (ratio p);
     cc_attack_ms := c_float (attack_ms p);
     cc_release_ms := c_float (release_ms p);
     cc_knee_db := c_float (knee_db p);
     cc_makeup_gain_db := c_float (makeup_gain_db p);
     cc_mix := c_float (mix p) |}.

(** [process_compressor]: the truth value it returns and the buffer behind
    [waveform_ptr] afterwards. *)
Definition process_compressor (self : SoundFlowLibraryManager)
    (waveform_ptr : list f32) (length sample_rate : Z) (p : CompressorParams)
  : M (bool * list f32) :=
  if negb (usable self) then
    print CannotProcessAudio ;; ret (false, waveform_ptr)
  else
    let a := compressor_call waveform_ptr length sample_rate p in
    record (ProcessCompressor_call a) ;; ret (true, in_place a).

Definition ducking_call (main_ptr : list f32) (main_length main_sample_rate : Z)
    (sidechain_ptr : list f32) (sidechain_length sidechain_sample_rate : Z)
    (p : DuckingParams) : DuckingCall :=
  {| dc_main := main_ptr; dc_main_length := c_int main_length;
     dc_main_sample_rate := c_int main_sample_rate;
     dc_main_gain_db := c_float (main_gain_db p);
     dc_sidechain := sidechain_ptr;
     dc_sidechain_length := c_int sidechain_length;
     dc_sidechain_sample_rate := c_int sidechain_sample_rate;
     dc_sidechain_gain_db := c_float (sidechain_gain_db p);
     dc_threshold_db := c_float (duck_threshold_db p);
     dc_reduction_db := c_float (reduction_db p);
     dc_attack_ms := c_float (duck_attack_ms p);
     dc_release_ms := c_float (duck_release_ms p) |}.

(** The pointer that the library returns when it is asked [a] after the
    calls of [log]; the allocation is named by its position in the log. *)
Definition engine_answer (log : list native_call) (a : DuckingCall) : option pointer :=
  (λ r, {| address := length log; contents := r |}) <$> ProcessDucking log a.

(** [process_ducking]: the pointer returned by the library, [None] for
    NULL and when the library is not loaded. *)
Definition process_ducking (self : SoundFlowLibraryManager)
    (main_ptr : list f32) (main_length main_sample_rate : Z)
    (sidechain_ptr : list f32) (sidechain_length sidechain_sample_rate : Z)
    (p : DuckingParams) : M (option pointer) :=
  if negb (usable self) then
    print CannotProcessDucking ;; ret None
  else
    let a := ducking_call main_ptr main_length main_sample_rate
               sidechain_ptr sidechain_length sidechain_sample_rate p in
    λ st,
      let result_ptr := engine_answer (native st) a in
      (Normal result_ptr,
       {| tensors := tensors st;
          native := native st ++ [ProcessDucking_call a result_ptr];
          console := console st |}).

(** [free_processing_result] *)
Definition free_processing_result (self : SoundFlowLibraryManager)
    (result_ptr : option pointer) : M unit :=
  match result_ptr with
  | Some p => if usable self then record (FreeProcessingResult_call p) else ret tt
  | None => ret tt
  end.

(** *** SoundFlow_SimpleCompressorNode *)

(** The body of the two nested loops of [apply_compression]. *)
Definition compress_channel (lib_manager : SoundFlowLibraryManager)
    (waveform_tensor : nat) (sample_rate : Z) (p : CompressorParams)
    (b c : nat) : M unit :=
  let* channel_data_np := read_channel waveform_tensor b c in
  let num_samples := length channel_data_np in
  if (num_samples =? 0)%nat then
    print (SkippingEmptyChannel b c)      (* continue *)
  else
    let* r :=
      process_compressor lib_manager channel_data_np
        (Z.of_nat num_samples) sample_rate p in
    let channel_data_np := r.2 in         (* modified in place *)
    assign_channel waveform_tensor b c channel_data_np.

Definition compress_batch (lib_manager : SoundFlowLibraryManager)
    (waveform_tensor : nat) (sample_rate : Z) (p : CompressorParams)
    (b : nat) : M unit :=
  let* t := tensor_at waveform_tensor in
  for_each (seq 0 (shape1 t))
    (compress_channel lib_manager waveform_tensor sample_rate p b).

Definition apply_compression (lib_manager : SoundFlowLibraryManager)
    (audio : AUDIO) (p : CompressorParams) : M AUDIO :=
  if negb (loaded lib_manager) then
    print CompressorNotLoaded ;; return_ audio
  else
    let* t := tensor_at (waveform audio) in
    let* waveform_tensor := new_tensor t in      (* .clone() *)
    let sample_rate := sample_rate audio in
    print (CompressorInputShape (shape0 t, shape1 t, shape2 t) sample_rate) ;;
    print CompressorSettings ;;
    let* t := tensor_at waveform_tensor in
    for_each (seq 0 (shape0 t))
      (compress_batch lib_manager waveform_tensor sample_rate p) ;;
    return_ {| waveform := waveform_tensor; sample_rate := sample_rate |}.

(** *** SoundFlow_DuckCompressorNode *)

(** The control signal of batch element [b]: the channels averaged when
    there are several, channel 0 otherwise. *)
Definition mono_sidechain (sidechain_waveform b : nat) : M (list f32) :=
  let* t := tensor_at sidechain_waveform in
  if (1 <? shape1 t)%nat then
    let* m := read_batch sidechain_waveform b in
    ret ((λ x, tdiv x (shape1 t)) <$> sum_dim0 (shape2 t) m)
  else
    read_channel sidechain_waveform b 0.

(** The body of the inner loop of [apply_ducking]. *)
Definition duck_channel (lib_manager : SoundFlowLibraryManager)
    (main_audio : AUDIO) (output_waveform : nat)
    (sidechain_np : list f32) (sidechain_sample_rate : Z)
    (p : DuckingParams) (b c : nat) : M unit :=
  let* main_channel := read_channel (waveform main_audio) b c in
  let main_length := length main_channel in
  let* result_ptr :=
    process_ducking lib_manager main_channel (Z.of_nat main_length)
      (sample_rate main_audio) sidechain_np
      (Z.of_nat (length sidechain_np)) sidechain_sample_rate p in
  match result_ptr with
  | Some ptr =>
      try_except
        (let result := contents ptr in
         (* np.ctypeslib.as_array: a NULL audio_ptr raises ValueError *)
         let* processed_data := lift ValueError (audio_ptr result) in
         let output_channel := processed_data in
         assign_prefix output_waveform b c (length output_channel) output_channel ;;
         free_processing_result lib_manager result_ptr)
        (λ e, print (DuckErrorProcessingResult e) ;; return_ main_audio)
  | None =>
      print DuckNullResult ;; return_ main_audio
  end.

Definition duck_batch (lib_manager : SoundFlowLibraryManager)
    (main_audio sidechain_audio : AUDIO) (output_waveform : nat)
    (p : DuckingParams) (b : nat) : M unit :=
  let* sidechain_np := mono_sidechain (waveform sidechain_audio) b in
  let* t := tensor_at (waveform main_audio) in
  for_each (seq 0 (shape1 t))
    (duck_channel lib_manager main_audio output_waveform sidechain_np
       (sample_rate sidechain_audio) p b).

Definition apply_ducking (lib_manager : SoundFlowLibraryManager)
    (main_audio sidechain_audio : AUDIO) (p : DuckingParams) : M AUDIO :=
  if negb (loaded lib_manager) then
    print DuckNotLoaded ;; return_ main_audio
  else
    try_except
      (let* main_waveform := tensor_at (waveform main_audio) in
       let* _ := tensor_at (waveform sidechain_audio) in
       let* output_waveform := new_tensor (zeros_like main_waveform) in
       let* t := tensor_at (waveform main_audio) in
       for_each (seq 0 (shape0 t))
         (duck_batch lib_manager main_audio sidechain_audio output_waveform p) ;;
       return_ {| waveform := output_waveform;
                  sample_rate := sample_rate main_audio |})
      (λ e, print (DuckErrorDuringProcessing e) ;; return_ main_audio).

(** *** The same nodes, described channel by channel *)

(** The calls of each kind found in a log of the native boundary. *)
Definition compressor_calls (log : list native_call) : list CompressorCall :=
  omap (λ e, match e with ProcessCompressor_call a => Some a | _ => None end) log.

Definition ducking_calls (log : list native_call)
  : list (DuckingCall * option pointer) :=
  omap (λ e, match e with ProcessDucking_call a r => Some (a, r) | _ => None end) log.

Definition freed (log : list native_call) : list pointer :=
  omap (λ e, match e with FreeProcessingResult_call q => Some q | _ => None end) log.

(** The (batch, channel) pairs in the order of the nested [for] loops. *)
Definition row_major (B C : nat) : list (nat * nat) :=
  seq 0 B ≫= λ b, pair b <$> seq 0 C.

(** What [apply_compression] does to one channel: the samples it leaves
    there, and the native calls it makes for it. *)
Definition compressed (lib_manager : SoundFlowLibraryManager) (sample_rate : Z)
    (p : CompressorParams) (ch : list f32) : list f32 :=
  if (length ch =? 0)%nat then ch
  else if usable lib_manager
       then in_place (compressor_call ch (Z.of_nat (length ch)) sample_rate p)
       else ch.

Definition compressed_log (lib_manager : SoundFlowLibraryManager) (sample_rate : Z)
    (p : CompressorParams) (ch : list f32) : list native_call :=
  if (length ch =? 0)%nat then []
  else if usable lib_manager
       then [ProcessCompressor_call
               (compressor_call ch (Z.of_nat (length ch)) sample_rate p)]
       else [].

(** [apply_compression] with the (batch, channel) pairs visited in a given
    [order] instead of the order of the nested loops; used to state that the
    order does not matter. *)
Definition apply_compression_in (order : list (nat * nat))
    (lib_manager : SoundFlowLibraryManager)
    (audio : AUDIO) (p : CompressorParams) : M AUDIO :=
  if negb (loaded lib_manager) then
    print CompressorNotLoaded ;; return_ audio
  else
    let* t := tensor_at (waveform audio) in
    let* waveform_tensor := new_tensor t in
    let sample_rate := sample_rate audio in
    print (CompressorInputShape (shape0 t, shape1 t, shape2 t) sample_rate) ;;
    print CompressorSettings ;;
    for_each order
      (λ q, compress_channel lib_manager waveform_tensor sample_rate p q.1 q.2) ;;
    return_ {| waveform := waveform_tensor; sample_rate := sample_rate |}.

(** The control signal that [mono_sidechain] computes for batch element
    [b], as a value. *)
Definition control (t : Tensor) (b : nat) : option (list f32) :=
  if (1 <? shape1 t)%nat then
    (λ m, (λ x, tdiv x (shape1 t)) <$> sum_dim0 (shape2 t) m) <$> data t !! b
  else channel (data t) b 0.

(** The arithmetic mean of sample [i] over the channels of [m], in the words
    of the specification: the sum over the channels divided by their number.
    Undefined when some channel has no sample [i]. *)
Definition arithmetic_mean (m : list (list f32)) (i : nat) : option f32 :=
  col ← mapM (.!! i) m; Some (tdiv (tsum col) (length m)).

(** The arguments with which [apply_ducking] calls the engine for the pair
    [q] of main tensor [tm], with sidechain tensor [ts]. *)
Definition expected_call (tm ts : Tensor) (main_sample_rate sidechain_sample_rate : Z)
    (p : DuckingParams) (q : nat * nat) : option DuckingCall :=
  ch ← channel (data tm) q.1 q.2;
  ctl ← control ts q.1;
  Some (ducking_call ch (Z.of_nat (length ch)) main_sample_rate
          ctl (Z.of_nat (length ctl)) sidechain_sample_rate p).

(** A channel of [n] zeros after [out[b, c, :len(buf)] = buf]. *)
Definition written (n : nat) (buf : list f32) : list f32 :=
  buf ++ replicate (n - length buf) zero.

(** *** Invariants of the loops *)

(** The native calls made for the pair [q] of tensor [t]. *)
Definition channel_log (lib_manager : SoundFlowLibraryManager) (sample_rate : Z)
    (p : CompressorParams) (t : Tensor) (q : nat * nat) : list native_call :=
  from_option (compressed_log lib_manager sample_rate p) []
    (channel (data t) q.1 q.2).

(** While [apply_compression] runs over the clone of [t]: the store is the
    caller's store [h0] followed by the clone, the pairs of [pre] hold their
    compressed samples and every other pair still holds the input's, and
    the log has grown by the calls made for [pre]. *)
Definition compress_inv (lib_manager : SoundFlowLibraryManager) (sample_rate : Z)
    (p : CompressorParams) (t : Tensor) (h0 : list Tensor)
    (log0 : list native_call) (pre : list (nat * nat)) (st : state) : Prop :=
  ∃ tw, tensors st = h0 ++ [tw] ∧ same_shape tw t ∧ well_shaped tw ∧
        (∀ b c, channel (data tw) b c =
                  if decide ((b, c) ∈ pre)
                  then compressed lib_manager sample_rate p <$> channel (data t) b c
                  else channel (data t) b c) ∧
        native st = log0 ++ (pre ≫= channel_log lib_manager sample_rate p t).

(** Everything that stays fixed while [apply_ducking] runs: its arguments,
    the two input tensors, and the store, log and console it started
    from. *)
Record ducking_run := {
  run_manager : SoundFlowLibraryManager;
  run_main : AUDIO;
  run_sidechain : AUDIO;
  run_params : DuckingParams;
  run_tm : Tensor;               (* the main waveform *)
  run_ts : Tensor;               (* the sidechain waveform *)
  run_h0 : list Tensor;
  run_log0 : list native_call;
  run_console0 : list message
}.

Definition run_expected (k : ducking_run) (q : nat * nat) : option DuckingCall :=
  expected_call (run_tm k) (run_ts k) (sample_rate (run_main k))
    (sample_rate (run_sidechain k)) (run_params k) q.

Definition run_order (k : ducking_run) : list (nat * nat) :=
  row_major (shape0 (run_tm k)) (shape1 (run_tm k)).

(** What ends up in a channel of [n] zeros when the result [r] is read back
    and copied into it, or the exception raised on the way. *)
Definition read_back (n : nat) (r : ProcessingResult) : exn + list f32 :=
  match audio_ptr r with
  | None => inl ValueError
  | Some buf =>
      match copy_ (take (length buf) (replicate n zero)) buf with
      | inl e => inl e
      | inr new => inr (new ++ drop (length buf) (replicate n zero))
      end
  end.

(** The log of the pairs that went through: a call and the matching free. *)
Definition duck_entries (done : list (DuckingCall * pointer)) : list native_call :=
  done ≫= λ ap, [ProcessDucking_call ap.1 (Some ap.2); FreeProcessingResult_call ap.2].

(** While the loops of [apply_ducking] run: the store is the caller's
    followed by the output tensor; the pairs of [pre] went through, with the
    calls and pointers of [done]; their channels hold what was read back and
    all others are still zero; nothing was printed. *)
Definition duck_inv (k : ducking_run) (pre : list (nat * nat)) (st : state) : Prop :=
  ∃ to done,
    tensors st = run_h0 k ++ [to] ∧ same_shape to (run_tm k) ∧ well_shaped to ∧
    native st = run_log0 k ++ duck_entries done ∧
    console st = run_console0 k ∧
    Forall2 (λ q ap, run_expected k q = Some ap.1) pre done ∧
    (∀ i ap, done !! i = Some ap →
       engine_answer (run_log0 k ++ duck_entries (take i done)) ap.1 = Some ap.2) ∧
    (∀ i q ap, pre !! i = Some q → done !! i = Some ap →
       ∃ v, read_back (shape2 (run_tm k)) (contents ap.2) = inr v ∧
            channel (data to) q.1 q.2 = Some v) ∧
    (∀ b c, b < shape0 (run_tm k) → c < shape1 (run_tm k) → (b, c) ∉ pre →
       channel (data to) b c = Some (replicate (shape2 (run_tm k)) zero)).

(** Why the loops were left early: the library is not usable, the control
    signal of batch element [b] could not be computed (after the pairs of
    all earlier batch elements went through), or the call for the pair [q]
    returned NULL or a result that could not be read back. *)
Inductive stop_reason (k : ducking_run) (pre : list (nat * nat))
    (done : list (DuckingCall * pointer)) : list native_call → Prop :=
| stop_unusable :
    usable (run_manager k) = false →
    stop_reason k pre done []
| stop_no_control b :
    b < shape0 (run_tm k) → control (run_ts k) b = None →
    pre = seq 0 b ≫= (λ b, pair b <$> seq 0 (shape1 (run_tm k))) →
    stop_reason k pre done []
| stop_null q a :
    run_expected k q = Some a →
    pre ++ [q] `prefix_of` run_order k →
    engine_answer (run_log0 k ++ duck_entries done) a = None →
    stop_reason k pre done [ProcessDucking_call a None]
| stop_unreadable q a ptr e :
    run_expected k q = Some a →
    pre ++ [q] `prefix_of` run_order k →
    engine_answer (run_log0 k ++ duck_entries done) a = Some ptr →
    read_back (shape2 (run_tm k)) (contents ptr) = inl e →
    stop_reason k pre done [ProcessDucking_call a (Some ptr)].

(** The state in which the loops were left early: the pairs of [pre] went
    through, and the log ends with the call that failed, if one was made. *)
Definition duck_stopped (k : ducking_run) (st : state) : Prop :=
  ∃ to pre done tail said,
    tensors st = run_h0 k ++ [to] ∧ same_shape to (run_tm k) ∧ well_shaped to ∧
    native st = run_log0 k ++ duck_entries done ++ tail ∧
    console st = run_console0 k ++ said ∧
    pre `prefix_of` run_order k ∧
    Forall2 (λ q ap, run_expected k q = Some ap.1) pre done ∧
    (∀ i ap, done !! i = Some ap →
       engine_answer (run_log0 k ++ duck_entries (take i done)) ap.1 = Some ap.2) ∧
    stop_reason k pre done tail.

(** The references of the two audio inputs designate the two tensors, and
    the main one is well shaped. *)
Definition run_ok (k : ducking_run) : Prop :=
  run_h0 k !! waveform (run_main k) = Some (run_tm k) ∧
  run_h0 k !! waveform (run_sidechain k) = Some (run_ts k) ∧
  well_shaped (run_tm k).

(** The run of [apply_ducking] that starts in state [st]. *)
Definition run_from (lib_manager : SoundFlowLibraryManager)
    (main_audio sidechain_audio : AUDIO) (p : DuckingParams)
    (tm ts : Tensor) (st : state) : ducking_run :=
  {| run_manager := lib_manager; run_main := main_audio;
     run_sidechain := sidechain_audio; run_params := p;
     run_tm := tm; run_ts := ts;
     run_h0 := tensors st; run_log0 := native st; run_console0 := console st |}.

(** ** A program logic for node bodies *)

(** Postconditions distinguish the three ways a body can complete. *)
Definition post {A} (Q : A → state → Prop) (QR : AUDIO → state → Prop)
    (QE : exn → state → Prop) (c : completion A) (st : state) : Prop :=
  match c with
  | Normal a => Q a st
  | Return r => QR r st
  | Raise e => QE e st
  end.

Definition triple {A} (P : state → Prop) (m : M A) (Q : A → state → Prop)
    (QR : AUDIO → state → Prop) (QE : exn → state → Prop) : Prop :=
  ∀ st, P st → post Q QR QE (m st).1 (m st).2.

Lemma triple_ret {A} (a : A) (Q : A → state → Prop) QR QE :
  triple (Q a) (ret a) Q QR QE.
Proof. by intros st H. Qed.

Lemma triple_return {A} r (Q : A → state → Prop) QR QE :
  triple (QR r) (return_ r) Q QR QE.
Proof. by intros st H. Qed.

Lemma triple_raise {A} e (Q : A → state → Prop) QR QE :
  triple (QE e) (raise e) Q QR QE.
Proof. by intros st H. Qed.

Lemma triple_bind {A B} (m : M A) (k : A → M B) P (R : A → state → Prop)
    (Q : B → state → Prop) QR QE :
  triple P m R QR QE →
  (∀ a, triple (R a) (k a) Q QR QE) →
  triple P (bind m k) Q QR QE.
Proof.
  intros Hm Hk st HP. specialize (Hm st HP). unfold bind.
  destruct (m st) as [[a|r|e] st']; simpl in *; try done.
  by apply Hk.
Qed.

Lemma triple_try_except {A} (body : M A) (handler : exn → M A) P
    (Q : A → state → Prop) QR QE (QE' : exn → state → Prop) :
  triple P body Q QR QE' →
  (∀ e, triple (QE' e) (handler e) Q QR QE) →
  triple P (try_except body handler) Q QR QE.
Proof.
  intros Hb Hh st HP. specialize (Hb st HP). unfold try_except.
  destruct (body st) as [[a|r|e] st']; simpl in *; try done.
  by apply Hh.
Qed.

Lemma triple_weaken {A} (m : M A) (P P' : state → Prop)
    (Q Q' : A → state → Prop) (QR QR' : AUDIO → state → Prop)
    (QE QE' : exn → state → Prop) :
  triple P' m Q' QR' QE' →
  (∀ st, P st → P' st) →
  (∀ a st, Q' a st → Q a st) →
  (∀ r st, QR' r st → QR r st) →
  (∀ e st, QE' e st → QE e st) →
  triple P m Q QR QE.
Proof.
  intros Hm HP HQ HR HE st H. specialize (Hm st (HP st H)).
  destruct (m st) as [[a|r|e] st']; simpl in *; auto.
Qed.

(** The loop rule: the invariant is indexed by the elements already
    visited. *)
Lemma triple_for_each {A} (xs : list A) (body : A → M unit)
    (I : list A → state → Prop) QR QE :
  (∀ pre x suf, xs = pre ++ x :: suf →
     triple (I pre) (body x) (λ _, I (pre ++ [x])) QR QE) →
  triple (I []) (for_each xs body) (λ _, I xs) QR QE.
Proof.
  intros Hstep.
  cut (∀ suf pre, xs = pre ++ suf →
         triple (I pre) (for_each suf body) (λ _, I xs) QR QE).
  { intros H. by apply (H xs [] eq_refl). }
  induction suf as [|x suf IH]; intros pre Hxs; simpl.
  - rewrite app_nil_r in Hxs. subst pre. by intros st H.
  - eapply triple_bind; [by apply (Hstep pre x suf)|].
    intros []. apply IH. by rewrite <- app_assoc.
Qed.

(** ** Tensors *)

Lemma channel_set_eq d b c v old :
  channel d b c = Some old → channel (set_channel d b c v) b c = Some v.
Proof.
  unfold channel, set_channel. intros H. rewrite list_lookup_alter_eq.
  destruct (d !! b) as [m|]; simpl in *; [|done].
  apply list_lookup_insert_eq. by eapply lookup_lt_Some.
Qed.

Lemma channel_set_ne d b c v b' c' :
  (b, c) ≠ (b', c') → channel (set_channel d b c v) b' c' = channel d b' c'.
Proof.
  unfold channel, set_channel. intros Hne.
  destruct (decide (b = b')) as [->|Hb].
  - rewrite list_lookup_alter_eq. destruct (d !! b'); simpl; [|done].
    apply list_lookup_insert_ne. congruence.
  - by rewrite list_lookup_alter_ne.
Qed.

Lemma well_shaped_channel t b c ch :
  well_shaped t → channel (data t) b c = Some ch →
  b < shape0 t ∧ c < shape1 t ∧ length ch = shape2 t.
Proof.
  intros [Hlen Hall]. unfold channel. intros H.
  destruct (data t !! b) as [m|] eqn:Hb; simpl in H; [|done].
  pose proof (Forall_lookup_1 _ _ _ _ Hall Hb) as [Hm Hch].
  pose proof (Forall_lookup_1 _ _ _ _ Hch H) as Hc. simpl in Hc.
  apply lookup_lt_Some in Hb. apply lookup_lt_Some in H. lia.
Qed.

Lemma well_shaped_lookup t b c :
  well_shaped t → b < shape0 t → c < shape1 t →
  ∃ ch, channel (data t) b c = Some ch ∧ length ch = shape2 t.
Proof.
  intros Hwf Hb Hc. pose proof Hwf as [Hlen Hall].
  destruct (lookup_lt_is_Some_2 (data t) b) as [m Hm]; [lia|].
  pose proof (Forall_lookup_1 _ _ _ _ Hall Hm) as [Hlm _].
  destruct (lookup_lt_is_Some_2 m c) as [ch Hch]; [lia|].
  assert (channel (data t) b c = Some ch) as H by (unfold channel; by rewrite Hm).
  exists ch. split; [done|]. by eapply well_shaped_channel.
Qed.

Lemma well_shaped_set t b c v :
  well_shaped t → length v = shape2 t →
  well_shaped (with_data t (set_channel (data t) b c v)).
Proof.
  intros [Hlen Hall] Hv. split; simpl.
  - unfold set_channel. by rewrite length_alter.
  - unfold set_channel. apply Forall_alter; [done|].
    intros m _ [Hm Hch]. split; [by rewrite length_insert|].
    by apply Forall_insert.
Qed.

(** Two well-shaped tensors of one shape with the same channels are the
    same data. *)
Lemma well_shaped_ext t u :
  well_shaped t → well_shaped u → same_shape t u →
  (∀ b c, channel (data t) b c = channel (data u) b c) →
  data t = data u.
Proof.
  intros [Ht Hat] [Hu Hau] (H0 & H1 & H2) Hch.
  apply list_eq. intros b.
  destruct (data t !! b) as [m|] eqn:Hm, (data u !! b) as [n|] eqn:Hn; try done.
  - f_equal. apply list_eq. intros c.
    specialize (Hch b c). unfold channel in Hch. by rewrite Hm, Hn in Hch.
  - apply lookup_lt_Some in Hm. apply lookup_ge_None in Hn. lia.
  - apply lookup_lt_Some in Hn. apply lookup_ge_None in Hm. lia.
Qed.

Lemma copy__length dst src new :
  copy_ dst src = inr new → length new = length dst.
Proof.
  unfold copy_. destruct (Nat.eqb_spec (length src) (length dst)) as [E|E].
  - by intros [= <-].
  - destruct src as [|x [|]]; try done. intros [= <-]. apply length_replicate.
Qed.

Lemma copy__same dst src :
  length src = length dst → copy_ dst src = inr src.
Proof. unfold copy_. intros ->. by rewrite Nat.eqb_refl. Qed.

Lemma length_in_place a : length (in_place a) = length (cc_waveform a).
Proof. unfold in_place. by rewrite length_fmap, length_seq. Qed.

Lemma length_compressed lib_manager sample_rate p ch :
  length (compressed lib_manager sample_rate p ch) = length ch.
Proof.
  unfold compressed. destruct (length ch =? 0)%nat; [done|].
  destruct (usable lib_manager); [|done]. by rewrite length_in_place.
Qed.

(** ** The compressor node *)

Lemma compress_inv_lookup lib_manager sample_rate p t h0 log0 pre st :
  compress_inv lib_manager sample_rate p t h0 log0 pre st →
  ∃ tw, tensors st !! length h0 = Some tw ∧ same_shape tw t.
Proof.
  intros (tw & Hts & Hsh & _). exists tw. split; [|done].
  rewrite Hts. by apply list_lookup_middle.
Qed.

(** Membership in the visited pairs after one more pair. *)
Lemma decide_visited {A} (pre : list (nat * nat)) (q q' : nat * nat) (x y : A) :
  q ∉ pre →
  (if decide (q' ∈ pre ++ [q]) then x else y) =
  (if decide (q' = q) then x else if decide (q' ∈ pre) then x else y).
Proof.
  intros Hq. repeat case_decide; try done.
  - apply elem_of_app in H as [?|?%list_elem_of_singleton]; done.
  - subst. exfalso. apply H. apply elem_of_app. right. by apply list_elem_of_singleton.
  - exfalso. apply H. apply elem_of_app. by left.
Qed.

Lemma compress_channel_step lib_manager sample_rate p t h0 log0 pre b c :
  well_shaped t → b < shape0 t → c < shape1 t → (b, c) ∉ pre →
  triple (compress_inv lib_manager sample_rate p t h0 log0 pre)
    (compress_channel lib_manager (length h0) sample_rate p b c)
    (λ _, compress_inv lib_manager sample_rate p t h0 log0 (pre ++ [(b, c)]))
    (λ _ _, False) (λ _ _, False).
Proof.
  intros Hwft Hb Hc Hpre st (tw & Hts & Hsh & Hwf & Hch & Hlog).
  destruct (well_shaped_lookup t b c) as (ch & Hcht & Hlen); [done..|].
  assert (channel (data tw) b c = Some ch) as Htw.
  { rewrite Hch. by rewrite decide_False. }
  assert (tensors st !! length h0 = Some tw) as Hw.
  { rewrite Hts. by apply list_lookup_middle. }
  assert (∀ v, length v = length ch →
            <[length h0 := with_data tw (set_channel (data tw) b c v)]> (tensors st)
            = h0 ++ [with_data tw (set_channel (data tw) b c v)]) as Hstore.
  { intros v _. rewrite Hts.
    replace (length h0) with (length h0 + 0) at 1 by lia.
    by rewrite insert_app_r. }
  assert (∀ v log,
            v = compressed lib_manager sample_rate p ch →
            log = native st ++ compressed_log lib_manager sample_rate p ch →
            ∀ tw', same_shape tw' t → well_shaped tw' →
              (∀ b' c', channel (data tw') b' c' =
                 if decide ((b', c') = (b, c)) then Some v
                 else channel (data tw) b' c') →
              ∀ st', tensors st' = h0 ++ [tw'] → native st' = log →
                compress_inv lib_manager sample_rate p t h0 log0 (pre ++ [(b, c)]) st')
    as Hnew.
  { intros v log -> -> tw' Hsh' Hwf' Hch' st' Hts' Hlog'.
    exists tw'. split_and!; try done.
    - intros b' c'. rewrite Hch', decide_visited by done.
      case_decide as E; [|apply Hch].
      injection E as -> ->. by rewrite Hcht.
    - rewrite Hlog', Hlog, bind_app, <- app_assoc. f_equal. simpl.
      rewrite app_nil_r. unfold channel_log. simpl. by rewrite Hcht. }
  unfold compress_channel, read_channel, tensor_at, bind, lift, ret.
  rewrite Hw, Htw. simpl.
  destruct (Nat.eqb_spec (length ch) 0) as [E|E].
  - assert ((length ch =? 0)%nat = true) as E' by (by apply Nat.eqb_eq).
    simpl. eapply (Hnew ch (native st) _ _ tw); try done.
    intros b' c'. case_decide as E''; [|done]. by injection E'' as -> ->.
    Unshelve.
    + unfold compressed. by rewrite E'.
    + unfold compressed_log. rewrite E'. by rewrite app_nil_r.
  - assert ((length ch =? 0)%nat = false) as E' by (by apply Nat.eqb_neq).
    unfold process_compressor. destruct (usable lib_manager) eqn:U; simpl.
    + unfold assign_channel, tensor_at, bind, lift, ret, record, store, raise. simpl.
      rewrite Hw, Htw, copy__same by (by rewrite length_in_place). simpl.
      set (v := in_place (compressor_call ch (Z.of_nat (length ch)) sample_rate p)).
      eapply (Hnew v
                (native st ++ [ProcessCompressor_call
                   (compressor_call ch (Z.of_nat (length ch)) sample_rate p)])
                _ _ (with_data tw (set_channel (data tw) b c v))); simpl.
      * apply Hsh.
      * apply well_shaped_set; [done|]. unfold v. rewrite length_in_place. simpl.
        destruct Hsh as (_ & _ & ->). done.
      * intros b' c'. simpl. case_decide as E''.
        -- injection E'' as -> ->. by eapply channel_set_eq.
        -- apply channel_set_ne. congruence.
      * apply Hstore. unfold v. by rewrite length_in_place.
      * done.
      Unshelve.
      -- unfold compressed. by rewrite U, E'.
      -- unfold compressed_log. by rewrite U, E'.
    + unfold assign_channel, tensor_at, bind, lift, ret, print, store, raise. simpl.
      rewrite Hw, Htw, copy__same by done. simpl.
      eapply (Hnew ch (native st) _ _ (with_data tw (set_channel (data tw) b c ch)));
        simpl.
      * apply Hsh.
      * apply well_shaped_set; [done|]. destruct Hsh as (_ & _ & ->). done.
      * intros b' c'. simpl. case_decide as E''.
        -- injection E'' as -> ->. by eapply channel_set_eq.
        -- apply channel_set_ne. congruence.
      * by apply Hstore.
      * done.
      Unshelve.
      -- unfold compressed. by rewrite U, E'.
      -- unfold compressed_log. rewrite U, E'. by rewrite app_nil_r.
Qed.

Lemma split_NoDup {A} (xs pre suf : list A) x :
  NoDup xs → xs = pre ++ x :: suf → x ∉ pre.
Proof.
  intros Hnd ->. apply NoDup_app in Hnd as (_ & Hdisj & _).
  intros Hx. apply (Hdisj x Hx). by left.
Qed.

Lemma split_seq n pre x suf : seq 0 n = pre ++ x :: suf → x < n ∧ x ∉ pre.
Proof.
  intros H. split.
  - assert (x ∈ seq 0 n) as Hx by (rewrite H; apply elem_of_app; right; by left).
    apply elem_of_seq in Hx. lia.
  - eapply split_NoDup; [apply (NoDup_seq 0 n)|done].
Qed.

Lemma split_seq_prefix n pre x suf : seq 0 n = pre ++ x :: suf → pre = seq 0 x.
Proof.
  intros H.
  assert (x = length pre) as ->.
  { assert (seq 0 n !! length pre = Some x) as Hx
      by (rewrite H; by apply list_lookup_middle).
    apply lookup_seq in Hx. lia. }
  assert (take (length pre) (seq 0 n) = pre) as Ht
    by (rewrite H; by apply take_app_length).
  rewrite take_seq in Ht. rewrite <- Ht at 1. f_equal.
  assert (length (seq 0 n) = length (pre ++ length pre :: suf)) as Hl by (by rewrite H).
  rewrite length_seq, length_app in Hl. simpl in Hl. lia.
Qed.

Lemma elem_of_row_major B C b c : (b, c) ∈ row_major B C ↔ b < B ∧ c < C.
Proof.
  unfold row_major. rewrite list_elem_of_bind. split.
  - intros (b' & Hc & Hb). apply list_elem_of_fmap in Hc as (c' & [= -> ->] & Hc).
    apply elem_of_seq in Hb, Hc. lia.
  - intros [Hb Hc]. exists b. split.
    + apply list_elem_of_fmap. exists c. split; [done|]. apply elem_of_seq. lia.
    + apply elem_of_seq. lia.
Qed.

Lemma NoDup_row_major B C : NoDup (row_major B C).
Proof.
  unfold row_major. apply NoDup_bind.
  - intros b1 b2 q _ _ H1 H2.
    apply list_elem_of_fmap in H1 as (? & -> & _).
    apply list_elem_of_fmap in H2 as (? & [= ->] & _). done.
  - intros b _. apply NoDup_fmap_2; [|apply NoDup_seq]. by intros ?? [=].
  - apply NoDup_seq.
Qed.

(** Any order of the pairs. *)
Lemma compress_in_order lib_manager sample_rate p t h0 log0 order :
  well_shaped t → NoDup order →
  Forall (λ q, q.1 < shape0 t ∧ q.2 < shape1 t) order →
  triple (compress_inv lib_manager sample_rate p t h0 log0 [])
    (for_each order
       (λ q, compress_channel lib_manager (length h0) sample_rate p q.1 q.2))
    (λ _, compress_inv lib_manager sample_rate p t h0 log0 order)
    (λ _ _, False) (λ _ _, False).
Proof.
  intros Hwf Hnd Hrange.
  apply (triple_for_each order _ (compress_inv lib_manager sample_rate p t h0 log0)).
  intros pre [b c] suf Hxs. simpl.
  assert ((b, c) ∈ order) as Hin by (rewrite Hxs; apply elem_of_app; right; by left).
  rewrite Forall_forall in Hrange. destruct (Hrange _ Hin) as [Hb Hc].
  apply compress_channel_step; try done. by eapply split_NoDup.
Qed.

(** One iteration of the outer loop. *)
Lemma compress_batch_step lib_manager sample_rate p t h0 log0 bs b :
  well_shaped t → b < shape0 t → b ∉ bs →
  triple
    (compress_inv lib_manager sample_rate p t h0 log0
       (bs ≫= λ b, pair b <$> seq 0 (shape1 t)))
    (compress_batch lib_manager (length h0) sample_rate p b)
    (λ _, compress_inv lib_manager sample_rate p t h0 log0
            ((bs ++ [b]) ≫= λ b, pair b <$> seq 0 (shape1 t)))
    (λ _ _, False) (λ _ _, False).
Proof.
  intros Hwf Hb Hbs. unfold compress_batch.
  set (pre := bs ≫= λ b, pair b <$> seq 0 (shape1 t)).
  eapply triple_bind with
    (R := λ tw st, compress_inv lib_manager sample_rate p t h0 log0 pre st ∧
                   shape1 tw = shape1 t).
  { intros st H. destruct (compress_inv_lookup _ _ _ _ _ _ _ _ H) as (tw & Hw & Hsh).
    unfold tensor_at. rewrite Hw. simpl. split; [done|]. apply Hsh. }
  intros tw.
  assert (triple
    (compress_inv lib_manager sample_rate p t h0 log0 (pre ++ (pair b <$> [])))
    (for_each (seq 0 (shape1 t))
       (compress_channel lib_manager (length h0) sample_rate p b))
    (λ _, compress_inv lib_manager sample_rate p t h0 log0
            (pre ++ (pair b <$> seq 0 (shape1 t))))
    (λ _ _, False) (λ _ _, False)) as Hloop.
  { apply (triple_for_each (seq 0 (shape1 t)) _
      (λ cs, compress_inv lib_manager sample_rate p t h0 log0 (pre ++ (pair b <$> cs)))).
    intros cs c suf Hxs. apply split_seq in Hxs as [Hc Hcs].
    rewrite fmap_app, app_assoc. simpl.
    apply compress_channel_step; try done.
    intros [Hin|Hin]%elem_of_app.
    - apply list_elem_of_bind in Hin as (b' & Hin & Hb').
      apply list_elem_of_fmap in Hin as (? & [= -> ->] & _). done.
    - apply list_elem_of_fmap in Hin as (? & [= ->] & ?). done. }
  intros st [H Hshape]. rewrite Hshape.
  specialize (Hloop st). simpl in Hloop. rewrite app_nil_r in Hloop.
  specialize (Hloop H). rewrite bind_app. simpl. by rewrite app_nil_r.
Qed.

(** The two nested loops visit the pairs in row-major order. *)
Lemma compress_loops lib_manager sample_rate p t h0 log0 :
  well_shaped t →
  triple (compress_inv lib_manager sample_rate p t h0 log0 [])
    (for_each (seq 0 (shape0 t))
       (compress_batch lib_manager (length h0) sample_rate p))
    (λ _, compress_inv lib_manager sample_rate p t h0 log0
            (row_major (shape0 t) (shape1 t)))
    (λ _ _, False) (λ _ _, False).
Proof.
  intros Hwf.
  refine (triple_for_each (seq 0 (shape0 t)) _
    (λ bs, compress_inv lib_manager sample_rate p t h0 log0
             (bs ≫= λ b, pair b <$> seq 0 (shape1 t))) _ _ _).
  intros bs b suf Hxs. apply split_seq in Hxs as [Hb Hbs].
  by apply compress_batch_step.
Qed.

Lemma compress_inv_start lib_manager sample_rate p t h0 log0 st :
  well_shaped t → tensors st = h0 ++ [t] → native st = log0 →
  compress_inv lib_manager sample_rate p t h0 log0 [] st.
Proof.
  intros Hwf Hts Hlog. exists t. split_and!; try done.
  simpl. by rewrite app_nil_r.
Qed.

(** What a call of [apply_compression] with the library loaded amounts
    to. *)
Lemma apply_compression_loaded lib_manager audio p st t :
  loaded lib_manager = true →
  tensors st !! waveform audio = Some t → well_shaped t →
  ∃ st',
    call (apply_compression lib_manager audio p) st
    = (inr {| waveform := length (tensors st); sample_rate := sample_rate audio |}, st') ∧
    compress_inv lib_manager (sample_rate audio) p t (tensors st) (native st)
      (row_major (shape0 t) (shape1 t)) st'.
Proof.
  intros Hl Ht Hwf. unfold call, apply_compression. rewrite Hl. simpl.
  unfold bind at 1. unfold tensor_at at 1. rewrite Ht.
  unfold bind at 1. unfold new_tensor at 1.
  unfold bind at 1. unfold print at 1.
  unfold bind at 1. unfold print at 1.
  unfold bind at 1. unfold tensor_at at 1. simpl.
  rewrite list_lookup_middle by done.
  set (st1 := {| tensors := tensors st ++ [t]; native := native st;
                 console := _ |}).
  pose proof (compress_loops lib_manager (sample_rate audio) p t (tensors st)
                (native st) Hwf st1) as H.
  unfold bind.
  destruct (for_each _ _ st1) as [[[]|r|e] st2]; simpl in *.
  - eexists. split; [done|]. apply H. by apply compress_inv_start.
  - destruct H. by apply compress_inv_start.
  - destruct H. by apply compress_inv_start.
Qed.

Lemma apply_compression_in_loaded order lib_manager audio p st t :
  loaded lib_manager = true →
  tensors st !! waveform audio = Some t → well_shaped t →
  NoDup order → Forall (λ q, q.1 < shape0 t ∧ q.2 < shape1 t) order →
  ∃ st',
    call (apply_compression_in order lib_manager audio p) st
    = (inr {| waveform := length (tensors st); sample_rate := sample_rate audio |}, st') ∧
    compress_inv lib_manager (sample_rate audio) p t (tensors st) (native st)
      order st'.
Proof.
  intros Hl Ht Hwf Hnd Hrange. unfold call, apply_compression_in. rewrite Hl. simpl.
  unfold bind at 1. unfold tensor_at at 1. rewrite Ht.
  unfold bind at 1. unfold new_tensor at 1.
  unfold bind at 1. unfold print at 1.
  unfold bind at 1. unfold print at 1. simpl.
  set (st1 := {| tensors := tensors st ++ [t]; native := native st;
                 console := _ |}).
  pose proof (compress_in_order lib_manager (sample_rate audio) p t (tensors st)
                (native st) order Hwf Hnd Hrange st1) as H.
  unfold bind.
  destruct (for_each _ _ st1) as [[[]|r|e] st2]; simpl in *.
  - eexists. split; [done|]. apply H. by apply compress_inv_start.
  - destruct H. by apply compress_inv_start.
  - destruct H. by apply compress_inv_start.
Qed.

Lemma apply_compression_not_loaded lib_manager audio p st :
  loaded lib_manager = false →
  call (apply_compression lib_manager audio p) st
  = (inr audio, {| tensors := tensors st; native := native st;
                   console := console st ++ [CompressorNotLoaded] |}).
Proof. intros Hl. unfold call, apply_compression. by rewrite Hl. Qed.

(** Reading the invariant once every pair has been visited. *)
Lemma compress_inv_done lib_manager sample_rate p t h0 log0 order st :
  well_shaped t →
  (∀ b c, (b, c) ∈ order ↔ b < shape0 t ∧ c < shape1 t) →
  compress_inv lib_manager sample_rate p t h0 log0 order st →
  ∃ tw, tensors st = h0 ++ [tw] ∧ same_shape tw t ∧ well_shaped tw ∧
        (∀ b c, channel (data tw) b c
                = compressed lib_manager sample_rate p <$> channel (data t) b c) ∧
        native st = log0 ++ (order ≫= channel_log lib_manager sample_rate p t).
Proof.
  intros Hwf Hall (tw & Hts & Hsh & Hwfw & Hch & Hlog).
  exists tw. split_and!; try done.
  intros b c. rewrite Hch. case_decide as Hin; [done|].
  destruct (channel (data t) b c) as [ch|] eqn:E; [|done].
  exfalso. apply Hin, Hall.
  by destruct (well_shaped_channel t b c ch Hwf E) as (? & ? & _).
Qed.

(** ** The ducking node *)

Lemma duck_entries_snoc done a ptr :
  duck_entries (done ++ [(a, ptr)])
  = duck_entries done ++ [ProcessDucking_call a (Some ptr); FreeProcessingResult_call ptr].
Proof. unfold duck_entries. by rewrite bind_app. Qed.

Lemma mono_sidechain_control r b st t :
  tensors st !! r = Some t →
  mono_sidechain r b st
  = (match control t b with Some ctl => Normal ctl | None => Raise IndexError end, st).
Proof.
  intros Ht. unfold mono_sidechain, control, read_batch, read_channel, tensor_at, bind, lift.
  rewrite Ht. simpl. destruct (1 <? shape1 t)%nat.
  - rewrite Ht. simpl. by destruct (data t !! b).
  - rewrite Ht. simpl. by destruct (channel (data t) b 0).
Qed.

Lemma duck_channel_step k pre b c ctl :
  run_ok k → b < shape0 (run_tm k) → c < shape1 (run_tm k) → (b, c) ∉ pre →
  control (run_ts k) b = Some ctl →
  pre ++ [(b, c)] `prefix_of` run_order k →
  triple (duck_inv k pre)
    (duck_channel (run_manager k) (run_main k) (length (run_h0 k)) ctl
       (sample_rate (run_sidechain k)) (run_params k) b c)
    (λ _, duck_inv k (pre ++ [(b, c)]))
    (λ r st, r = run_main k ∧ duck_stopped k st)
    (λ _ _, False).
Proof.
  intros (Hm & Hs & Hwfm) Hb Hc Hpre Hctl Hord st
    (to & done & Hts & Hsh & Hwf & Hlog & Hcon & Hexp & Hans & Hvis & Hzero).
  destruct (well_shaped_lookup _ b c Hwfm Hb Hc) as (ch & Hch & Hlen).
  assert (tensors st !! waveform (run_main k) = Some (run_tm k)) as Hmain.
  { rewrite Hts, lookup_app_l; [done|]. by eapply lookup_lt_Some. }
  assert (tensors st !! length (run_h0 k) = Some to) as Hout.
  { rewrite Hts. by apply list_lookup_middle. }
  set (a := ducking_call ch (Z.of_nat (length ch)) (sample_rate (run_main k))
              ctl (Z.of_nat (length ctl)) (sample_rate (run_sidechain k)) (run_params k)).
  assert (run_expected k (b, c) = Some a) as Ha.
  { unfold run_expected, expected_call. simpl. rewrite Hch, Hctl. done. }
  assert (pre `prefix_of` run_order k) as Hord' by (by eapply prefix_app_l).
  unfold duck_channel, read_channel, tensor_at, bind, lift, ret.
  rewrite Hmain, Hch. simpl. unfold process_ducking.
  destruct (usable (run_manager k)) eqn:U; simpl.
  2:{ split; [done|].
      exists to, pre, done, [], [CannotProcessDucking; DuckNullResult].
      split_and!; try done.
      - by rewrite app_nil_r.
      - simpl. by rewrite Hcon, <- app_assoc.
      - by apply stop_unusable. }
  fold a. destruct (engine_answer (native st) a) as [ptr|] eqn:E; simpl.
  2:{ split; [done|].
      exists to, pre, done, [ProcessDucking_call a None], [DuckNullResult].
      split_and!; try done.
      - by rewrite Hlog, app_assoc.
      - simpl. by rewrite Hcon.
      - eapply stop_null; try done. by rewrite <- Hlog. }
  assert (native st ++ [ProcessDucking_call a (Some ptr)]
          = run_log0 k ++ duck_entries done ++ [ProcessDucking_call a (Some ptr)])
    as Hlog1 by (by rewrite Hlog, app_assoc).
  assert (engine_answer (run_log0 k ++ duck_entries done) a = Some ptr) as E'
    by (by rewrite <- Hlog).
  pose proof (Hzero b c Hb Hc Hpre) as Hz.
  unfold try_except, assign_prefix, tensor_at, bind, lift, ret, raise, return_,
    print, store, record.
  destruct (audio_ptr (contents ptr)) as [buf|] eqn:Ebuf; simpl.
  2:{ split; [done|].
      exists to, pre, done, [ProcessDucking_call a (Some ptr)],
        [DuckErrorProcessingResult ValueError].
      split_and!; try done.
      - by rewrite Hcon.
      - eapply stop_unreadable; try done. unfold read_back. by rewrite Ebuf. }
  rewrite Hout, Hz. simpl.
  destruct (copy_ (take (length buf) (replicate (shape2 (run_tm k)) zero)) buf)
    as [e|new] eqn:Ecopy; simpl.
  { split; [done|].
    exists to, pre, done, [ProcessDucking_call a (Some ptr)],
      [DuckErrorProcessingResult e].
    split_and!; try done.
    - by rewrite Hcon.
    - eapply stop_unreadable; try done. unfold read_back. by rewrite Ebuf, Ecopy. }
  rewrite U. simpl.
  set (v := new ++ drop (length buf) (replicate (shape2 (run_tm k)) zero)).
  assert (read_back (shape2 (run_tm k)) (contents ptr) = inr v) as Hread.
  { unfold read_back. by rewrite Ebuf, Ecopy. }
  assert (length v = shape2 (run_tm k)) as Hlv.
  { unfold v. rewrite length_app, (copy__length _ _ _ Ecopy), length_take, length_drop,
      length_replicate. lia. }
  pose proof (Forall2_length _ _ _ Hexp) as Hlen'.
  exists (with_data to (set_channel (data to) b c v)), (done ++ [(a, ptr)]).
  split_and!; simpl.
  - rewrite Hts. replace (length (run_h0 k)) with (length (run_h0 k) + 0) at 1 by lia.
    by rewrite insert_app_r.
  - apply Hsh.
  - apply well_shaped_set; [done|]. destruct Hsh as (_ & _ & ->). done.
  - rewrite duck_entries_snoc, Hlog, <- !app_assoc. done.
  - done.
  - apply Forall2_app; [done|]. by constructor.
  - intros i ap Hi. destruct (decide (i < length done)) as [Hlt|Hge].
    + rewrite lookup_app_l in Hi by done.
      rewrite take_app_le by lia. by apply Hans.
    + assert (i = length done) as ->.
      { apply lookup_lt_Some in Hi. rewrite length_app in Hi. simpl in Hi. lia. }
      rewrite list_lookup_middle in Hi by done. injection Hi as <-.
      rewrite take_app_length. done.
  - intros i q ap Hq Hap. destruct (decide (i < length pre)) as [Hlt|Hge].
    + rewrite lookup_app_l in Hq by done. rewrite lookup_app_l in Hap by lia.
      destruct (Hvis i q ap Hq Hap) as (v' & Hv' & Hchq). exists v'. split; [done|].
      rewrite channel_set_ne; [done|]. intros Heq. apply Hpre. rewrite Heq.
      destruct q. simpl. apply list_elem_of_lookup. by exists i.
    + assert (i = length pre) as ->.
      { apply lookup_lt_Some in Hq. rewrite length_app in Hq. simpl in Hq. lia. }
      rewrite list_lookup_middle in Hq by done. injection Hq as <-.
      rewrite list_lookup_middle in Hap by done. injection Hap as <-.
      exists v. split; [done|]. simpl. by eapply channel_set_eq.
  - intros b' c' Hb' Hc' Hnot. rewrite channel_set_ne.
    + apply Hzero; try done. intros Hin. apply Hnot. apply elem_of_app. by left.
    + intros [= -> ->]. apply Hnot. apply elem_of_app. right. by left.
Qed.


Lemma well_shaped_zeros_like t : well_shaped (zeros_like t).
Proof.
  split; simpl.
  - by rewrite length_replicate.
  - apply Forall_replicate. split; [by rewrite length_replicate|].
    apply Forall_replicate. by rewrite length_replicate.
Qed.

Lemma channel_zeros_like t b c :
  b < shape0 t → c < shape1 t →
  channel (data (zeros_like t)) b c = Some (replicate (shape2 t) zero).
Proof.
  intros Hb Hc. unfold channel, zeros_like. simpl.
  rewrite lookup_replicate_2 by done. simpl. by rewrite lookup_replicate_2.
Qed.

Lemma prefix_of_bind_snoc {A B} (f : A → list B) (xs pre suf : list A) x :
  xs = pre ++ x :: suf → (pre ++ [x]) ≫= f `prefix_of` xs ≫= f.
Proof.
  intros ->. exists (suf ≫= f).
  replace (pre ++ x :: suf) with ((pre ++ [x]) ++ suf) by (by rewrite <- app_assoc).
  by rewrite bind_app.
Qed.

(** The inner loop of [apply_ducking], for batch element [b]. *)
Lemma duck_channels k pre b ctl :
  run_ok k → b < shape0 (run_tm k) →
  (∀ c, (b, c) ∉ pre) →
  control (run_ts k) b = Some ctl →
  pre ++ (pair b <$> seq 0 (shape1 (run_tm k))) `prefix_of` run_order k →
  triple
    (duck_inv k pre)
    (for_each (seq 0 (shape1 (run_tm k)))
       (duck_channel (run_manager k) (run_main k) (length (run_h0 k)) ctl
          (sample_rate (run_sidechain k)) (run_params k) b))
    (λ _, duck_inv k (pre ++ (pair b <$> seq 0 (shape1 (run_tm k)))))
    (λ r st, r = run_main k ∧ duck_stopped k st)
    (λ _ st, duck_stopped k st).
Proof.
  intros Hok Hb Hpre Hctl Hord.
  assert (triple
    (duck_inv k (pre ++ (pair b <$> [])))
    (for_each (seq 0 (shape1 (run_tm k)))
       (duck_channel (run_manager k) (run_main k) (length (run_h0 k)) ctl
          (sample_rate (run_sidechain k)) (run_params k) b))
    (λ _, duck_inv k (pre ++ (pair b <$> seq 0 (shape1 (run_tm k)))))
    (λ r st, r = run_main k ∧ duck_stopped k st)
    (λ _ st, duck_stopped k st)) as Hloop.
  { apply (triple_for_each (seq 0 (shape1 (run_tm k))) _
      (λ cs, duck_inv k (pre ++ (pair b <$> cs)))).
    intros cs c suf Hxs.
    pose proof (split_seq _ _ _ _ Hxs) as [Hc Hcs].
    rewrite fmap_app, app_assoc. simpl.
    eapply triple_weaken with (QE' := λ _ _, False);
      [apply (duck_channel_step k (pre ++ (pair b <$> cs)) b c ctl)|..]; try done.
    - intros [Hin|Hin]%elem_of_app; [by apply (Hpre c)|].
      apply list_elem_of_fmap in Hin as (? & [= ->] & ?). done.
    - etrans; [|exact Hord]. rewrite <- app_assoc. apply prefix_app.
      rewrite Hxs, fmap_app. simpl.
      apply prefix_app, prefix_cons, prefix_nil. }
  intros st H. apply Hloop. simpl. by rewrite app_nil_r.
Qed.

(** One iteration of the outer loop of [apply_ducking]. *)
Lemma duck_batch_step k bs b :
  run_ok k → b < shape0 (run_tm k) → b ∉ bs → bs = seq 0 b →
  (bs ++ [b]) ≫= (λ b, pair b <$> seq 0 (shape1 (run_tm k))) `prefix_of` run_order k →
  triple
    (duck_inv k (bs ≫= λ b, pair b <$> seq 0 (shape1 (run_tm k))))
    (duck_batch (run_manager k) (run_main k) (run_sidechain k)
       (length (run_h0 k)) (run_params k) b)
    (λ _, duck_inv k ((bs ++ [b]) ≫= λ b, pair b <$> seq 0 (shape1 (run_tm k))))
    (λ r st, r = run_main k ∧ duck_stopped k st)
    (λ _ st, duck_stopped k st).
Proof.
  intros Hok Hb Hbs Hseq Hord. pose proof Hok as (Hm & Hs & Hwfm).
  set (pairs := λ b, pair b <$> seq 0 (shape1 (run_tm k))) in *.
  set (pre := bs ≫= pairs).
  assert ((bs ++ [b]) ≫= pairs = pre ++ pairs b) as Hsnoc.
  { rewrite bind_app. simpl. by rewrite app_nil_r. }
  rewrite Hsnoc in *.
  assert (∀ st, duck_inv k pre st →
            tensors st !! waveform (run_main k) = Some (run_tm k) ∧
            tensors st !! waveform (run_sidechain k) = Some (run_ts k)) as Hlook.
  { intros st (to & done & Hts & _). rewrite Hts.
    split; (rewrite lookup_app_l; [done|by eapply lookup_lt_Some]). }
  unfold duck_batch.
  eapply triple_bind with
    (R := λ ctl st, duck_inv k pre st ∧ control (run_ts k) b = Some ctl).
  { intros st H. destruct (Hlook st H) as [_ Hsc].
    rewrite (mono_sidechain_control _ _ _ _ Hsc).
    destruct (control (run_ts k) b) as [ctl|] eqn:Hctl; simpl; [done|].
    destruct H as (to & done & Hts & Hsh & Hwf & Hlog & Hcon & Hexp & Hans & _).
    exists to, pre, done, [], []. split_and!; try done.
    - by rewrite app_nil_r.
    - by rewrite app_nil_r.
    - by eapply prefix_app_l.
    - eapply stop_no_control; try done. unfold pre. by rewrite Hseq. }
  intros ctl.
  eapply triple_bind with
    (R := λ t st, (duck_inv k pre st ∧ control (run_ts k) b = Some ctl) ∧ t = run_tm k).
  { intros st [H Hctl]. destruct (Hlook st H) as [Hmain _].
    unfold tensor_at. rewrite Hmain. done. }
  intros t st [[H Hctl] ->]. revert st H.
  apply duck_channels; try done.
  intros c Hin. apply list_elem_of_bind in Hin as (b' & Hin & Hb').
  apply list_elem_of_fmap in Hin as (? & [= -> ->] & _). done.
Qed.

(** The two nested loops. *)
Lemma duck_loops k :
  run_ok k →
  triple (duck_inv k [])
    (for_each (seq 0 (shape0 (run_tm k)))
       (duck_batch (run_manager k) (run_main k) (run_sidechain k)
          (length (run_h0 k)) (run_params k)))
    (λ _, duck_inv k (run_order k))
    (λ r st, r = run_main k ∧ duck_stopped k st)
    (λ _ st, duck_stopped k st).
Proof.
  intros Hok.
  refine (triple_for_each (seq 0 (shape0 (run_tm k))) _
    (λ bs, duck_inv k (bs ≫= λ b, pair b <$> seq 0 (shape1 (run_tm k)))) _ _ _).
  intros bs b suf Hxs. pose proof (split_seq _ _ _ _ Hxs) as [Hb Hbs].
  apply duck_batch_step; try done.
  - by eapply split_seq_prefix.
  - unfold run_order, row_major. by eapply prefix_of_bind_snoc.
Qed.

Lemma duck_inv_start k st :
  tensors st = run_h0 k ++ [zeros_like (run_tm k)] →
  native st = run_log0 k → console st = run_console0 k →
  duck_inv k [] st.
Proof.
  intros Hts Hlog Hcon. exists (zeros_like (run_tm k)), [].
  split_and!; try done.
  - apply well_shaped_zeros_like.
  - simpl. by rewrite app_nil_r.
  - intros b c Hb Hc _. by apply channel_zeros_like.
Qed.

(** [apply_ducking] never lets an exception escape. *)
Lemma apply_ducking_returns lib_manager main_audio sidechain_audio p st :
  ∃ out st',
    call (apply_ducking lib_manager main_audio sidechain_audio p) st = (inr out, st').
Proof.
  unfold call, apply_ducking. destruct (loaded lib_manager); simpl; [|eauto].
  unfold try_except.
  destruct (bind _ _ st) as [[a|r|e] st']; simpl; eauto.
Qed.

(** What a call of [apply_ducking] with the library loaded amounts to:
    either every pair went through and the fresh output tensor is returned,
    or the loops were left early and the caller gets [main_audio] back. *)
Lemma apply_ducking_loaded lib_manager main_audio sidechain_audio p st tm ts :
  loaded lib_manager = true →
  tensors st !! waveform main_audio = Some tm →
  tensors st !! waveform sidechain_audio = Some ts →
  well_shaped tm →
  let k := run_from lib_manager main_audio sidechain_audio p tm ts st in
  ∃ out st',
    call (apply_ducking lib_manager main_audio sidechain_audio p) st = (inr out, st') ∧
    ((out = {| waveform := length (tensors st);
               sample_rate := sample_rate main_audio |} ∧
      duck_inv k (run_order k) st') ∨
     (out = main_audio ∧ duck_stopped k st')).
Proof.
  intros Hl Hm Hs Hwf k.
  assert (run_ok k) as Hok by done.
  unfold call, apply_ducking. rewrite Hl. simpl. unfold try_except.
  unfold bind at 1. unfold tensor_at at 1. rewrite Hm.
  unfold bind at 1. unfold tensor_at at 1. rewrite Hs.
  unfold bind at 1. unfold new_tensor at 1.
  unfold bind at 1. unfold tensor_at at 1. simpl.
  rewrite lookup_app_l by (by eapply lookup_lt_Some). rewrite Hm.
  set (st1 := {| tensors := tensors st ++ [zeros_like tm]; native := native st;
                 console := console st |}).
  pose proof (duck_loops k Hok st1) as H.
  unfold bind.
  change (for_each (seq 0 (shape0 tm))
            (duck_batch lib_manager main_audio sidechain_audio
               (length (tensors st)) p) st1)
    with (for_each (seq 0 (shape0 (run_tm k)))
            (duck_batch (run_manager k) (run_main k) (run_sidechain k)
               (length (run_h0 k)) (run_params k)) st1).
  destruct (for_each _ _ st1) as [[[]|r|e] st2]; simpl in *.
  - eexists _, _. split; [done|]. left. split; [done|].
    apply H. by apply duck_inv_start.
  - destruct H as [-> H]; [by apply duck_inv_start|].
    eexists _, _. split; [done|]. by right.
  - specialize (H ltac:(by apply duck_inv_start)).
    eexists _, _. split; [done|]. right. split; [done|].
    destruct H as (to & pre & done & tail & said & H1 & H2 & H3 & H4 & Hcon & H5 & H6 & H7 & H8).
    exists to, pre, done, tail, (said ++ [DuckErrorDuringProcessing e]).
    split_and!; try done. simpl. by rewrite Hcon, <- app_assoc.
Qed.

(** What else a run that reaches the end of the loops has established: the
    control signal of every batch element could be computed, and the
    library was usable if there was a pair to process. *)

Lemma triple_conj {A} (m : M A) (P : state → Prop) (Q Q' : A → state → Prop)
    (QR QR' : AUDIO → state → Prop) (QE QE' : exn → state → Prop) :
  triple P m Q QR QE → triple P m Q' QR' QE' →
  triple P m (λ a st, Q a st ∧ Q' a st) (λ r st, QR r st ∧ QR' r st)
    (λ e st, QE e st ∧ QE' e st).
Proof.
  intros H H' st HP. specialize (H st HP). specialize (H' st HP).
  destruct (m st) as [[a|r|e] st']; simpl in *; done.
Qed.

(** A loop that completes normally has run its body normally on every
    element. *)
Lemma for_each_normal {A} (xs : list A) (body : A → M unit) (G : Prop) :
  (∀ x, triple (λ _, True) (body x) (λ _ _, G) (λ _ _, True) (λ _ _, True)) →
  triple (λ _, True) (for_each xs body) (λ _ _, xs = [] ∨ G)
    (λ _ _, True) (λ _ _, True).
Proof.
  intros Hbody.
  eapply triple_weaken;
    [apply (triple_for_each xs body (λ pre _, pre = [] ∨ G) (λ _ _, True) (λ _ _, True))
    |..]; simpl; try done.
  - intros pre x suf _. eapply triple_weaken; [apply (Hbody x)|..]; simpl; try done.
    intros _ _ HG. by right.
  - intros _ _. by left.
Qed.

(** Without a usable library [duck_channel] does not complete normally. *)
Lemma duck_channel_usable lib_manager main_audio output_waveform sidechain_np
    sidechain_sample_rate p b c :
  triple (λ _, True)
    (duck_channel lib_manager main_audio output_waveform sidechain_np
       sidechain_sample_rate p b c)
    (λ _ _, usable lib_manager = true) (λ _ _, True) (λ _ _, True).
Proof.
  intros st _. destruct (usable lib_manager) eqn:U.
  - by destruct (duck_channel _ _ _ _ _ _ _ _ st) as [[?|?|?] ?].
  - unfold duck_channel, bind.
    destruct (read_channel (waveform main_audio) b c st) as [[ch|r|e] st1]; simpl;
      try done.
    unfold process_ducking. by rewrite U.
Qed.

Lemma duck_batch_outcome k pre b :
  run_ok k →
  triple (duck_inv k pre)
    (duck_batch (run_manager k) (run_main k) (run_sidechain k)
       (length (run_h0 k)) (run_params k) b)
    (λ _ _, is_Some (control (run_ts k) b) ∧
            (shape1 (run_tm k) = 0 ∨ usable (run_manager k) = true))
    (λ _ _, True) (λ _ _, True).
Proof.
  intros (Hm & Hs & Hwfm) st (to & done & Hts & _).
  assert (tensors st !! waveform (run_main k) = Some (run_tm k)) as Hmain.
  { rewrite Hts, lookup_app_l; [done|]. by eapply lookup_lt_Some. }
  assert (tensors st !! waveform (run_sidechain k) = Some (run_ts k)) as Hside.
  { rewrite Hts, lookup_app_l; [done|]. by eapply lookup_lt_Some. }
  unfold duck_batch. unfold bind at 1.
  rewrite (mono_sidechain_control _ _ _ _ Hside).
  destruct (control (run_ts k) b) as [ctl|]; simpl; [|done].
  unfold bind at 1. unfold tensor_at at 1. rewrite Hmain.
  pose proof (for_each_normal (seq 0 (shape1 (run_tm k)))
                (duck_channel (run_manager k) (run_main k) (length (run_h0 k)) ctl
                   (sample_rate (run_sidechain k)) (run_params k) b)
                (usable (run_manager k) = true)
                (λ c, duck_channel_usable _ _ _ _ _ _ _ c) st I) as Hloop.
  destruct (for_each _ _ st) as [[[]|r|e] st1]; simpl in *; try done.
  split; [done|]. destruct Hloop as [Hnil|HU]; [left|by right].
  destruct (shape1 (run_tm k)); done.
Qed.

Lemma duck_loops_outcome k :
  run_ok k →
  triple (duck_inv k [])
    (for_each (seq 0 (shape0 (run_tm k)))
       (duck_batch (run_manager k) (run_main k) (run_sidechain k)
          (length (run_h0 k)) (run_params k)))
    (λ _ st, duck_inv k (run_order k) st ∧
             (∀ b, b < shape0 (run_tm k) → is_Some (control (run_ts k) b)) ∧
             (shape0 (run_tm k) = 0 ∨ shape1 (run_tm k) = 0 ∨
              usable (run_manager k) = true))
    (λ r st, r = run_main k ∧ duck_stopped k st)
    (λ _ st, duck_stopped k st).
Proof.
  intros Hok.
  set (pairs := λ b : nat, pair b <$> seq 0 (shape1 (run_tm k))).
  eapply triple_weaken;
    [apply (triple_for_each (seq 0 (shape0 (run_tm k))) _
              (λ bs st, duck_inv k (bs ≫= pairs) st ∧
                        (∀ b, b ∈ bs → is_Some (control (run_ts k) b)) ∧
                        (bs = [] ∨ shape1 (run_tm k) = 0 ∨
                         usable (run_manager k) = true))
              (λ r st, r = run_main k ∧ duck_stopped k st)
              (λ _ st, duck_stopped k st))
    |..]; simpl; try done.
  - intros bs b suf Hxs. pose proof (split_seq _ _ _ _ Hxs) as [Hb Hbs].
    intros st (Hinv & Hctl & Hus).
    assert (triple (duck_inv k (bs ≫= pairs))
              (duck_batch (run_manager k) (run_main k) (run_sidechain k)
                 (length (run_h0 k)) (run_params k) b)
              (λ _, duck_inv k ((bs ++ [b]) ≫= pairs))
              (λ r st, r = run_main k ∧ duck_stopped k st)
              (λ _ st, duck_stopped k st)) as Hstep.
    { apply duck_batch_step; try done.
      - by eapply split_seq_prefix.
      - unfold run_order, row_major. by eapply prefix_of_bind_snoc. }
    pose proof (triple_conj _ _ _ _ _ _ _ _ Hstep
                  (duck_batch_outcome k (bs ≫= pairs) b Hok) st Hinv) as H.
    destruct (duck_batch _ _ _ _ _ b st) as [[[]|r|e] st1]; simpl in *.
    + destruct H as (Hinv1 & Hb1 & Hus1). split_and!; try done.
      * intros b' [Hin| ->%list_elem_of_singleton]%elem_of_app; [by apply Hctl|done].
      * right. destruct Hus1; [by left|by right].
    + by destruct H.
    + by destruct H.
  - intros st H. split_and!; try done.
    + intros b Hb. by apply elem_of_nil in Hb.
    + by left.
  - intros _ st (Hinv & Hctl & Hus). split_and!; try done.
    + intros b Hb. apply Hctl, elem_of_seq. lia.
    + destruct Hus as [Hnil|[?|?]]; [left|by right; left|by right; right].
      destruct (shape0 (run_tm k)); done.
Qed.


(** [apply_ducking_loaded] with what the run to the end has established. *)
Lemma apply_ducking_outcome lib_manager main_audio sidechain_audio p st tm ts :
  loaded lib_manager = true →
  tensors st !! waveform main_audio = Some tm →
  tensors st !! waveform sidechain_audio = Some ts →
  well_shaped tm →
  let k := run_from lib_manager main_audio sidechain_audio p tm ts st in
  ∃ out st',
    call (apply_ducking lib_manager main_audio sidechain_audio p) st = (inr out, st') ∧
    ((out = {| waveform := length (tensors st);
               sample_rate := sample_rate main_audio |} ∧
      duck_inv k (run_order k) st' ∧
      (∀ b, b < shape0 tm → is_Some (control ts b)) ∧
      (shape0 tm = 0 ∨ shape1 tm = 0 ∨ usable lib_manager = true)) ∨
     (out = main_audio ∧ duck_stopped k st')).
Proof.
  intros Hl Hm Hs Hwf k.
  assert (run_ok k) as Hok by done.
  unfold call, apply_ducking. rewrite Hl. simpl. unfold try_except.
  unfold bind at 1. unfold tensor_at at 1. rewrite Hm.
  unfold bind at 1. unfold tensor_at at 1. rewrite Hs.
  unfold bind at 1. unfold new_tensor at 1.
  unfold bind at 1. unfold tensor_at at 1. simpl.
  rewrite lookup_app_l by (by eapply lookup_lt_Some). rewrite Hm.
  set (st1 := {| tensors := tensors st ++ [zeros_like tm]; native := native st;
                 console := console st |}).
  pose proof (duck_loops_outcome k Hok st1) as H.
  unfold bind.
  change (for_each (seq 0 (shape0 tm))
            (duck_batch lib_manager main_audio sidechain_audio
               (length (tensors st)) p) st1)
    with (for_each (seq 0 (shape0 (run_tm k)))
            (duck_batch (run_manager k) (run_main k) (run_sidechain k)
               (length (run_h0 k)) (run_params k)) st1).
  destruct (for_each _ _ st1) as [[[]|r|e] st2]; simpl in *.
  - eexists _, _. split; [done|]. left. split; [done|].
    apply H. by apply duck_inv_start.
  - destruct H as [-> H]; [by apply duck_inv_start|].
    eexists _, _. split; [done|]. by right.
  - specialize (H ltac:(by apply duck_inv_start)).
    eexists _, _. split; [done|]. right. split; [done|].
    destruct H as (to & pre & done & tail & said & H1 & H2 & H3 & H4 & Hcon & H5 & H6 & H7 & H8).
    exists to, pre, done, tail, (said ++ [DuckErrorDuringProcessing e]).
    split_and!; try done. simpl. by rewrite Hcon, <- app_assoc.
Qed.

Lemma apply_ducking_not_loaded lib_manager main_audio sidechain_audio p st :
  loaded lib_manager = false →
  call (apply_ducking lib_manager main_audio sidechain_audio p) st
  = (inr main_audio, {| tensors := tensors st; native := native st;
                        console := console st ++ [DuckNotLoaded] |}).
Proof. intros Hl. unfold call, apply_ducking. by rewrite Hl. Qed.

(** ** The claims about the two nodes *)

Lemma tensor_eq (t u : Tensor) : same_shape t u → data t = data u → t = u.
Proof.
  destruct t, u. unfold same_shape. simpl. intros (-> & -> & ->) ->. done.
Qed.

(** The shape and the store after a call of [apply_compression]: the
    caller's tensors are where they were, and the returned reference
    designates a well-shaped tensor of the input's shape whose channels are
    the compressed input channels. *)
Lemma apply_compression_result lib_manager audio p st t :
  tensors st !! waveform audio = Some t → well_shaped t →
  ∃ out st' t',
    call (apply_compression lib_manager audio p) st = (inr out, st') ∧
    sample_rate out = sample_rate audio ∧
    tensors st' !! waveform out = Some t' ∧ well_shaped t' ∧ same_shape t' t ∧
    (∀ r u, tensors st !! r = Some u → tensors st' !! r = Some u) ∧
    (∀ b c, channel (data t') b c
            = compressed lib_manager (sample_rate audio) p <$> channel (data t) b c) ∧
    native st' = native st ++
      (if loaded lib_manager
       then row_major (shape0 t) (shape1 t)
              ≫= channel_log lib_manager (sample_rate audio) p t
       else []).
Proof.
  intros Ht Hwf. destruct (loaded lib_manager) eqn:Hl.
  - destruct (apply_compression_loaded _ audio p st t Hl Ht Hwf) as (st' & Hcall & Hinv).
    apply compress_inv_done in Hinv as (tw & Hts & Hsh & Hwfw & Hch & Hlog);
      [|done|apply elem_of_row_major].
    eexists _, st', tw. split; [done|]. simpl. split_and!; try done.
    + rewrite Hts. by apply list_lookup_middle.
    + intros r u Hr. rewrite Hts. by apply lookup_app_l_Some.
  - rewrite apply_compression_not_loaded by done.
    eexists _, _, t. split; [done|]. simpl. split_and!; try done.
    + intros b c. unfold compressed, usable. rewrite Hl. simpl.
      destruct (channel (data t) b c) as [ch|]; [|done]. simpl.
      by destruct (length ch =? 0)%nat.
    + by rewrite app_nil_r.
Qed.

(** The same for [apply_ducking]. *)
Lemma apply_ducking_result lib_manager main_audio sidechain_audio p st tm ts :
  tensors st !! waveform main_audio = Some tm → well_shaped tm →
  tensors st !! waveform sidechain_audio = Some ts →
  ∃ out st' t',
    call (apply_ducking lib_manager main_audio sidechain_audio p) st = (inr out, st') ∧
    tensors st' !! waveform out = Some t' ∧ well_shaped t' ∧ same_shape t' tm ∧
    (∀ r u, tensors st !! r = Some u → tensors st' !! r = Some u).
Proof.
  intros Hm Hwf Hs. destruct (loaded lib_manager) eqn:Hl.
  - destruct (apply_ducking_loaded _ main_audio sidechain_audio p st tm ts Hl Hm Hs Hwf)
      as (out & st' & Hcall & [[-> Hinv]|[-> Hstop]]).
    + destruct Hinv as (to & done & Hts & Hsh & Hwfo & _). simpl in *.
      eexists _, st', to. split; [done|]. simpl. split_and!; try done.
      * rewrite Hts. by apply list_lookup_middle.
      * intros r u Hr. rewrite Hts. by apply lookup_app_l_Some.
    + destruct Hstop as (to & pre & done & tail & said & Hts & _). simpl in *.
      eexists _, st', tm. split; [done|]. split_and!; try done.
      * rewrite Hts. by apply lookup_app_l_Some.
      * intros r u Hr. rewrite Hts. by apply lookup_app_l_Some.
  - rewrite apply_ducking_not_loaded by done.
    eexists _, _, tm. split; [done|]. simpl. split_and!; done.
Qed.

(** C1: the waveform returned by [apply_compression] and by [apply_ducking]
    is a well-shaped tensor with the shape of the (main) input waveform, and
    so has the same number of samples in every channel, whichever way the
    node returns: with the library not loaded, after processing every
    channel, after a null result, and after a caught exception. *)
Theorem C1_output_keeps_shape lib_manager audio sidechain_audio cp dp st t ts :
  tensors st !! waveform audio = Some t → well_shaped t →
  tensors st !! waveform sidechain_audio = Some ts →
  (∃ out st' t',
     call (apply_compression lib_manager audio cp) st = (inr out, st') ∧
     tensors st' !! waveform out = Some t' ∧ well_shaped t' ∧ same_shape t' t) ∧
  (∃ out st' t',
     call (apply_ducking lib_manager audio sidechain_audio dp) st = (inr out, st') ∧
     tensors st' !! waveform out = Some t' ∧ well_shaped t' ∧ same_shape t' t).
Proof.
  intros Ht Hwf Hs. split.
  - destruct (apply_compression_result lib_manager audio cp st t Ht Hwf)
      as (out & st' & t' & Hcall & _ & Hout & Hwf' & Hsh & _).
    by exists out, st', t'.
  - destruct (apply_ducking_result lib_manager audio sidechain_audio dp st t ts Ht Hwf Hs)
      as (out & st' & t' & Hcall & Hout & Hwf' & Hsh & _).
    by exists out, st', t'.
Qed.

(** C8: neither node mutates its caller's input. Every tensor that the
    caller's store held before the call, the input waveforms among them, is
    still there with the same samples after [apply_compression] and after
    [apply_ducking]: the nodes write only to the tensor they allocate. *)
Theorem C8_inputs_not_mutated lib_manager audio sidechain_audio cp dp st t ts :
  tensors st !! waveform audio = Some t → well_shaped t →
  tensors st !! waveform sidechain_audio = Some ts →
  (∀ r u, tensors st !! r = Some u →
     tensors (call (apply_compression lib_manager audio cp) st).2 !! r = Some u) ∧
  (∀ r u, tensors st !! r = Some u →
     tensors (call (apply_ducking lib_manager audio sidechain_audio dp) st).2 !! r
     = Some u).
Proof.
  intros Ht Hwf Hs. split.
  - destruct (apply_compression_result lib_manager audio cp st t Ht Hwf)
      as (out & st' & t' & Hcall & _ & _ & _ & _ & Hframe & _).
    rewrite Hcall. exact Hframe.
  - destruct (apply_ducking_result lib_manager audio sidechain_audio dp st t ts Ht Hwf Hs)
      as (out & st' & t' & Hcall & _ & _ & _ & Hframe).
    rewrite Hcall. exact Hframe.
Qed.

Lemma no_null_call_in_entries done a :
  ProcessDucking_call a None ∉ duck_entries done.
Proof.
  unfold duck_entries. intros Hin.
  apply list_elem_of_bind in Hin as (ap & Hin & _).
  apply elem_of_cons in Hin as [?|Hin]; [done|].
  apply elem_of_cons in Hin as [?|Hin]; [done|].
  by apply elem_of_nil in Hin.
Qed.

Lemma call_in_entries done a ptr :
  ProcessDucking_call a (Some ptr) ∈ duck_entries done → (a, ptr) ∈ done.
Proof.
  unfold duck_entries. intros Hin.
  apply list_elem_of_bind in Hin as ([a' ptr'] & Hin & Hdone).
  apply elem_of_cons in Hin as [[= -> ->]|Hin]; [done|].
  apply elem_of_cons in Hin as [?|Hin]; [done|].
  by apply elem_of_nil in Hin.
Qed.

(** C3: when the engine cannot be invoked or fails, the caller gets the
    original audio back, unmodified. [apply_compression] with the library
    not loaded returns [audio] itself and touches neither the store nor the
    library. [apply_ducking] returns [main_audio] itself, its waveform
    unchanged, when the library is not loaded, when a call to the engine
    returned a null result, when [process_ducking] could not call the engine
    for want of a usable library, and when an exception was raised: by
    reading back a result that the engine returned (the engine call is in
    the log and [read_back] of its result raises), or by computing the
    control signal of a batch element of the main waveform ([control] is
    undefined there: the sidechain has no such batch element, or it has no
    channel). It also returns [main_audio] whenever anything was printed:
    the null branch and both exception handlers print before they
    return. *)
Theorem C3_fallback_returns_original lib_manager audio sidechain_audio cp dp st t ts :
  tensors st !! waveform audio = Some t → well_shaped t →
  tensors st !! waveform sidechain_audio = Some ts →
  (loaded lib_manager = false →
   ∃ st', call (apply_compression lib_manager audio cp) st = (inr audio, st') ∧
          tensors st' = tensors st ∧ native st' = native st) ∧
  (∃ out st' new said,
     call (apply_ducking lib_manager audio sidechain_audio dp) st = (inr out, st') ∧
     native st' = native st ++ new ∧ console st' = console st ++ said ∧
     tensors st' !! waveform audio = Some t ∧
     (loaded lib_manager = false → out = audio ∧ new = []) ∧
     ((∃ a, ProcessDucking_call a None ∈ new) → out = audio) ∧
     (usable lib_manager = false → 0 < shape0 t → 0 < shape1 t → out = audio) ∧
     ((∃ a ptr e, ProcessDucking_call a (Some ptr) ∈ new ∧
                  read_back (shape2 t) (contents ptr) = inl e) → out = audio) ∧
     ((∃ b, b < shape0 t ∧ control ts b = None) → out = audio) ∧
     (said ≠ [] → out = audio)).
Proof.
  intros Ht Hwf Hs. split.
  { intros Hl. rewrite apply_compression_not_loaded by done. by eexists. }
  destruct (loaded lib_manager) eqn:Hl.
  - destruct (apply_ducking_outcome _ audio sidechain_audio dp st t ts Hl Ht Hs Hwf)
      as (out & st' & Hcall & [(-> & Hinv & Hctl & Hus)|[-> Hstop]]).
    + destruct Hinv as (to & done & Hts & _ & _ & Hlog & Hcon & Hexp & _ & Hvis & _).
      simpl in *.
      eexists _, st', (duck_entries done), []. split_and!; try done.
      * by rewrite app_nil_r.
      * rewrite Hts. by apply lookup_app_l_Some.
      * intros [a Ha]. by apply no_null_call_in_entries in Ha.
      * intros HU. rewrite HU in Hus. lia.
      * intros (a & ptr & e & Hin%call_in_entries & Hbad). exfalso.
        apply list_elem_of_lookup in Hin as [i Hi].
        destruct (lookup_lt_is_Some_2 (row_major (shape0 t) (shape1 t)) i) as [q Hq].
        { pose proof (Forall2_length _ _ _ Hexp) as Hlen. unfold run_order in Hlen.
          simpl in Hlen. rewrite Hlen. by eapply lookup_lt_Some. }
        destruct (Hvis i q (a, ptr) Hq Hi) as (v & Hv & _). simpl in Hv. congruence.
      * intros (b & Hb & Hnone). destruct (Hctl b Hb) as [ctl Hsome]. congruence.
    + destruct Hstop as (to & pre & done & tail & said & Hts & _ & _ & Hlog & Hcon & _).
      simpl in *.
      eexists _, st', (duck_entries done ++ tail), said. split_and!; try done.
      rewrite Hts. by apply lookup_app_l_Some.
  - rewrite apply_ducking_not_loaded by done.
    eexists _, _, [], [DuckNotLoaded]. simpl. split_and!; try done.
    by rewrite app_nil_r.
Qed.

Lemma bind_all_nil {A B} (f : A → list B) (l : list A) :
  (∀ x, x ∈ l → f x = []) → l ≫= f = [].
Proof.
  induction l as [|x l IH]; intros H; [done|]. simpl.
  rewrite (H x) by (by left). simpl. apply IH. intros y Hy. apply H. by right.
Qed.

(** C4: a zero-length input is a successful no-op. With no samples per
    channel [apply_compression] returns without a single call into the
    library, and the waveform it returns holds the same (empty) channels as
    the input; [apply_ducking] on an empty main or an empty sidechain buffer
    returns a value instead of raising. *)
Theorem C4_empty_input_is_success lib_manager audio sidechain_audio cp dp st t ts :
  tensors st !! waveform audio = Some t → well_shaped t →
  tensors st !! waveform sidechain_audio = Some ts →
  (shape2 t = 0 →
   ∃ out st',
     call (apply_compression lib_manager audio cp) st = (inr out, st') ∧
     native st' = native st ∧ tensors st' !! waveform out = Some t) ∧
  (shape2 t = 0 ∨ shape2 ts = 0 →
   ∃ out st',
     call (apply_ducking lib_manager audio sidechain_audio dp) st = (inr out, st')).
Proof.
  intros Ht Hwf Hs. split.
  - intros Hempty.
    destruct (apply_compression_result lib_manager audio cp st t Ht Hwf)
      as (out & st' & t' & Hcall & _ & Hout & Hwf' & Hsh & _ & Hch & Hlog).
    exists out, st'. split_and!; try done.
    + rewrite Hlog. destruct (loaded lib_manager); [|by rewrite app_nil_r].
      rewrite bind_all_nil; [by rewrite app_nil_r|].
      intros [b c] _. unfold channel_log. simpl.
      destruct (channel (data t) b c) as [ch|] eqn:E; [|done]. simpl.
      destruct (well_shaped_channel t b c ch Hwf E) as (_ & _ & Hlen).
      unfold compressed_log. by rewrite Hlen, Hempty.
    + rewrite Hout. f_equal. apply tensor_eq; [done|].
      apply well_shaped_ext; try done.
      intros b c. rewrite Hch.
      destruct (channel (data t) b c) as [ch|] eqn:E; [|done]. simpl.
      destruct (well_shaped_channel t b c ch Hwf E) as (_ & _ & Hlen).
      unfold compressed. by rewrite Hlen, Hempty.
  - intros _. apply apply_ducking_returns.
Qed.

(** C5: [free_processing_result] is safe on a null handle. Whatever the
    state of the manager, a null pointer makes it do nothing, and so does a
    manager whose library is not loaded; with the library loaded a non-null
    pointer is passed to [FreeProcessingResult] exactly once. Nothing is
    raised in any case. *)
Theorem C5_free_processing_result_null_safe (self : SoundFlowLibraryManager)
    (st : state) :
  free_processing_result self None st = (Normal tt, st) ∧
  (∀ result_ptr, loaded self = false ∨ lib self = None →
     free_processing_result self result_ptr st = (Normal tt, st)) ∧
  (∀ ptr h, loaded self = true → lib self = Some h →
     free_processing_result self (Some ptr) st
     = (Normal tt, {| tensors := tensors st;
                      native := native st ++ [FreeProcessingResult_call ptr];
                      console := console st |})).
Proof.
  split_and!.
  - done.
  - intros [ptr|] Hno; [|done]. unfold free_processing_result, usable.
    destruct Hno as [->| ->]; [done|]. by rewrite andb_false_r.
  - intros ptr h Hl Hlib. unfold free_processing_result, usable.
    by rewrite Hl, Hlib.
Qed.

(** [apply_compression_in] yields, for any order that visits every pair
    once, the tensor whose channels are the compressed input channels. *)
Lemma apply_compression_in_result order lib_manager audio p st t :
  tensors st !! waveform audio = Some t → well_shaped t →
  order ≡ₚ row_major (shape0 t) (shape1 t) →
  ∃ out st' t',
    call (apply_compression_in order lib_manager audio p) st = (inr out, st') ∧
    tensors st' !! waveform out = Some t' ∧ well_shaped t' ∧ same_shape t' t ∧
    (∀ b c, channel (data t') b c
            = compressed lib_manager (sample_rate audio) p <$> channel (data t) b c).
Proof.
  intros Ht Hwf Hperm.
  assert (∀ b c, (b, c) ∈ order ↔ b < shape0 t ∧ c < shape1 t) as Hall.
  { intros b c. rewrite Hperm. apply elem_of_row_major. }
  destruct (loaded lib_manager) eqn:Hl.
  - destruct (apply_compression_in_loaded order _ audio p st t Hl Ht Hwf)
      as (st' & Hcall & Hinv).
    { rewrite Hperm. apply NoDup_row_major. }
    { apply Forall_forall. intros [b c] Hin. by apply Hall. }
    apply compress_inv_done in Hinv as (tw & Hts & Hsh & Hwfw & Hch & Hlog); [|done..].
    eexists _, st', tw. split; [done|]. simpl. split_and!; try done.
    rewrite Hts. by apply list_lookup_middle.
  - exists audio, {| tensors := tensors st; native := native st;
                     console := console st ++ [CompressorNotLoaded] |}, t.
    split; [unfold call, apply_compression_in; by rewrite Hl|].
    simpl. split_and!; try done.
    intros b c. unfold compressed, usable. rewrite Hl. simpl.
    destruct (channel (data t) b c) as [ch|]; [|done]. simpl.
    by destruct (length ch =? 0)%nat.
Qed.

Lemma same_channels t u v (f : list f32 → list f32) :
  well_shaped u → well_shaped v → same_shape u t → same_shape v t →
  (∀ b c, channel (data u) b c = f <$> channel (data t) b c) →
  (∀ b c, channel (data v) b c = f <$> channel (data t) b c) →
  u = v.
Proof.
  intros Hu Hv (U0 & U1 & U2) (V0 & V1 & V2) Hcu Hcv.
  assert (same_shape u v) as Hsh by (unfold same_shape; split_and!; congruence).
  apply tensor_eq; [done|]. apply well_shaped_ext; try done.
  intros b c. by rewrite Hcu, Hcv.
Qed.

(** C7: compression is deterministic and independent of the order of the
    channels. With the native routine a function of its arguments, output
    channel (b, c) of [apply_compression] is [compressed] applied to input
    channel (b, c): it depends on that channel, the sample rate and the
    parameters only. Hence another input that agrees on channel (b, c) gets
    the same output there, a second run on the same input (started in the
    state the first run left) returns the same tensor, and so does a run
    that visits the (batch, channel) pairs in any other order. *)
Theorem C7_compression_channelwise lib_manager audio cp st t :
  tensors st !! waveform audio = Some t → well_shaped t →
  ∃ out st' t',
    call (apply_compression lib_manager audio cp) st = (inr out, st') ∧
    tensors st' !! waveform out = Some t' ∧
    (∀ b c, channel (data t') b c
            = compressed lib_manager (sample_rate audio) cp <$> channel (data t) b c) ∧
    (∀ audio2 st2 t2 b c,
       tensors st2 !! waveform audio2 = Some t2 → well_shaped t2 →
       sample_rate audio2 = sample_rate audio →
       channel (data t2) b c = channel (data t) b c →
       ∃ out2 st2' t2',
         call (apply_compression lib_manager audio2 cp) st2 = (inr out2, st2') ∧
         tensors st2' !! waveform out2 = Some t2' ∧
         channel (data t2') b c = channel (data t') b c) ∧
    (∃ out2 st2,
       call (apply_compression lib_manager audio cp) st' = (inr out2, st2) ∧
       tensors st2 !! waveform out2 = Some t') ∧
    (∀ order, order ≡ₚ row_major (shape0 t) (shape1 t) →
       ∃ out3 st3,
         call (apply_compression_in order lib_manager audio cp) st = (inr out3, st3) ∧
         tensors st3 !! waveform out3 = Some t').
Proof.
  intros Ht Hwf.
  destruct (apply_compression_result lib_manager audio cp st t Ht Hwf)
    as (out & st' & t' & Hcall & _ & Hout & Hwf' & Hsh & Hframe & Hch & _).
  exists out, st', t'. split_and!; try done.
  - intros audio2 st2 t2 b c Ht2 Hwf2 Hsr Hbc.
    destruct (apply_compression_result lib_manager audio2 cp st2 t2 Ht2 Hwf2)
      as (out2 & st2' & t2' & Hcall2 & _ & Hout2 & _ & _ & _ & Hch2 & _).
    exists out2, st2', t2'. split_and!; try done.
    by rewrite Hch2, Hch, Hsr, Hbc.
  - destruct (apply_compression_result lib_manager audio cp st' t (Hframe _ _ Ht) Hwf)
      as (out2 & st2 & t2 & Hcall2 & _ & Hout2 & Hwf2 & Hsh2 & _ & Hch2 & _).
    exists out2, st2. split; [done|]. rewrite Hout2. f_equal.
    by eapply same_channels.
  - intros order Hperm.
    destruct (apply_compression_in_result order lib_manager audio cp st t Ht Hwf Hperm)
      as (out3 & st3 & t3 & Hcall3 & Hout3 & Hwf3 & Hsh3 & Hch3).
    exists out3, st3. split; [done|]. rewrite Hout3. f_equal.
    by eapply same_channels.
Qed.

Lemma bind_singletons {A B} (f : A → list B) (g : A → B) (l : list A) :
  (∀ x, x ∈ l → f x = [g x]) → l ≫= f = g <$> l.
Proof.
  induction l as [|x l IH]; intros H; [done|]. simpl.
  rewrite (H x) by (by left). simpl. f_equal. apply IH. intros y Hy. apply H. by right.
Qed.

Lemma length_row_major B C : length (row_major B C) = B * C.
Proof.
  unfold row_major. induction B as [|B IH]; [done|].
  rewrite seq_S, bind_app, length_app, IH. simpl.
  rewrite app_nil_r, length_fmap, length_seq. lia.
Qed.

Lemma read_back_ok (n : nat) r buf :
  audio_ptr r = Some buf → (length buf ≤ n)%nat →
  read_back n r = inr (written n buf).
Proof.
  intros Hbuf Hlen. unfold read_back, written. rewrite Hbuf.
  rewrite copy__same.
  - by rewrite drop_replicate.
  - rewrite length_take, length_replicate. lia.
Qed.

Lemma expected_call_main tm ts srm srs p q a :
  well_shaped tm → expected_call tm ts srm srs p q = Some a →
  length (dc_main a) = shape2 tm.
Proof.
  intros Hwf. unfold expected_call.
  destruct (channel (data tm) q.1 q.2) as [ch|] eqn:Hch; simpl; [|done].
  destruct (control ts q.1) as [ctl|]; simpl; [|done].
  intros [= <-]. simpl. by destruct (well_shaped_channel _ _ _ _ Hwf Hch) as (_ & _ & ?).
Qed.

Lemma control_defined ts b :
  well_shaped ts → b < shape0 ts → 0 < shape1 ts → is_Some (control ts b).
Proof.
  intros Hwf Hb Hc. unfold control. destruct (1 <? shape1 ts)%nat.
  - destruct Hwf as [Hlen _].
    destruct (lookup_lt_is_Some_2 (data ts) b) as [m Hm]; [lia|].
    rewrite Hm. by eexists.
  - destruct (well_shaped_lookup ts b 0 Hwf Hb Hc) as (ch & Hch & _). by eexists.
Qed.

(** C6 (amended): with the library loaded, [apply_compression] on channels of
    at least one sample calls the engine exactly once for each (batch,
    channel) pair, in row-major order, on that channel's samples, and the
    returned tensor, of the input's shape, holds at each position what the
    engine left in the buffer. [apply_ducking] does the same whenever the
    sidechain has a row for every batch element and at least one channel,
    and every call of the engine returns a result that can be read back
    (non-null, with a buffer no longer than the main channel): one
    [ProcessDucking] call and one [FreeProcessingResult] call per pair, the
    result written over the zeros of the output tensor at that position.
    (Channels without samples are skipped by the compressor, and the ducking
    loops stop at the first result that is null or unreadable.) *)
Theorem C6_once_per_channel lib_manager audio sidechain_audio cp dp st t ts :
  tensors st !! waveform audio = Some t → well_shaped t →
  tensors st !! waveform sidechain_audio = Some ts → well_shaped ts →
  loaded lib_manager = true → is_Some (lib lib_manager) →
  (0 < shape2 t →
   ∃ out st' t' calls,
     call (apply_compression lib_manager audio cp) st = (inr out, st') ∧
     native st' = native st ++ (ProcessCompressor_call <$> calls) ∧
     length calls = shape0 t * shape1 t ∧
     tensors st' !! waveform out = Some t' ∧ well_shaped t' ∧ same_shape t' t ∧
     Forall2
       (λ q a, ∃ ch,
          channel (data t) q.1 q.2 = Some ch ∧
          a = compressor_call ch (Z.of_nat (length ch)) (sample_rate audio) cp ∧
          channel (data t') q.1 q.2 = Some (in_place a))
       (row_major (shape0 t) (shape1 t)) calls) ∧
  ((shape0 t ≤ shape0 ts)%nat → 0 < shape1 ts →
   (∀ log a, ∃ r buf,
      ProcessDucking log a = Some r ∧ audio_ptr r = Some buf ∧
      (length buf ≤ length (dc_main a))%nat) →
   ∃ out st' t' done,
     call (apply_ducking lib_manager audio sidechain_audio dp) st = (inr out, st') ∧
     native st' = native st ++ duck_entries done ∧
     length done = shape0 t * shape1 t ∧
     tensors st' !! waveform out = Some t' ∧ well_shaped t' ∧ same_shape t' t ∧
     Forall2
       (λ q ap,
          expected_call t ts (sample_rate audio) (sample_rate sidechain_audio) dp q
          = Some ap.1 ∧
          ∃ buf, audio_ptr (contents ap.2) = Some buf ∧
                 channel (data t') q.1 q.2 = Some (written (shape2 t) buf))
       (row_major (shape0 t) (shape1 t)) done).
Proof.
  intros Ht Hwf Hs Hwfs Hl Hlib.
  assert (usable lib_manager = true) as U.
  { unfold usable. rewrite Hl. simpl. by apply bool_decide_eq_true. }
  split.
  - intros Hpos.
    destruct (apply_compression_result lib_manager audio cp st t Ht Hwf)
      as (out & st' & t' & Hcall & _ & Hout & Hwf' & Hsh & _ & Hch & Hlog).
    rewrite Hl in Hlog.
    set (mk := λ q : nat * nat,
           compressor_call (default [] (channel (data t) q.1 q.2))
             (Z.of_nat (length (default [] (channel (data t) q.1 q.2))))
             (sample_rate audio) cp).
    assert (∀ q, q ∈ row_major (shape0 t) (shape1 t) →
              ∃ ch, channel (data t) q.1 q.2 = Some ch ∧ length ch ≠ 0) as Hin.
    { intros [b c] [Hb Hc]%elem_of_row_major.
      destruct (well_shaped_lookup t b c Hwf Hb Hc) as (ch & Hc' & Hlen).
      exists ch. split; [done|]. lia. }
    exists out, st', t', (mk <$> row_major (shape0 t) (shape1 t)).
    split_and!; try done.
    + rewrite Hlog. f_equal. rewrite <- list_fmap_compose. apply bind_singletons.
      intros q Hq. destruct (Hin q Hq) as (ch & Hc' & Hne).
      unfold channel_log, compressed_log, mk. simpl. rewrite Hc'. simpl.
      rewrite U. by destruct (Nat.eqb_spec (length ch) 0).
    + by rewrite length_fmap, length_row_major.
    + apply Forall2_fmap_r, Forall_Forall2_diag, Forall_forall.
      intros q Hq. destruct (Hin q Hq) as (ch & Hc' & Hne).
      exists ch. unfold mk. rewrite Hc'. simpl. split_and!; try done.
      rewrite Hch, Hc'. simpl. unfold compressed. rewrite U.
      by destruct (Nat.eqb_spec (length ch) 0).
  - intros Hrows Hchan Hengine.
    assert (∀ log a ptr, engine_answer log a = Some ptr →
              ∃ buf, audio_ptr (contents ptr) = Some buf ∧
                     (length buf ≤ length (dc_main a))%nat) as Hans'.
    { intros log a ptr. unfold engine_answer.
      destruct (Hengine log a) as (r & buf & -> & Hbuf & Hlen). simpl.
      intros [= <-]. by exists buf. }
    destruct (apply_ducking_loaded _ audio sidechain_audio dp st t ts Hl Ht Hs Hwf)
      as (out & st' & Hcall & [[-> Hinv]|[-> Hstop]]).
    + destruct Hinv as (to & done & Hts & Hsh & Hwfo & Hlog & _ & Hexp & Hans & Hvis & _).
      simpl in *.
      eexists _, st', to, done. split; [done|]. simpl. split_and!; try done.
      * rewrite <- (Forall2_length _ _ _ Hexp). apply length_row_major.
      * rewrite Hts. by apply list_lookup_middle.
      * apply Forall2_same_length_lookup_2; [by eapply Forall2_length|].
        intros i q ap Hq Hap.
        pose proof (Forall2_lookup_lr _ _ _ _ _ _ Hexp Hq Hap) as He.
        split; [done|].
        destruct (Hans' _ _ _ (Hans i ap Hap)) as (buf & Hbuf & Hlen).
        destruct (Hvis i q ap Hq Hap) as (v & Hv & Hcv).
        exists buf. split; [done|]. rewrite Hcv. f_equal.
        rewrite (read_back_ok _ _ buf) in Hv; [by injection Hv|done|].
        by rewrite <- (expected_call_main _ _ _ _ _ _ _ Hwf He).
    + exfalso.
      destruct Hstop as (to & pre & done & tail & said & _ & _ & _ & _ & _ & _ & _ & _ & Hwhy).
      simpl in *. destruct Hwhy as [HU|b Hb Hno|q a He _ Hnull|q a ptr e He _ Hsome Hbad];
        simpl in *.
      * congruence.
      * destruct (control_defined ts b) as [? ?]; try done; [lia|congruence].
      * unfold engine_answer in Hnull.
        destruct (Hengine (native st ++ duck_entries done) a) as (r & ? & Hr & _).
        by rewrite Hr in Hnull.
      * destruct (Hans' _ _ _ Hsome) as (buf & Hbuf & Hlen).
        rewrite (read_back_ok _ _ buf) in Hbad; [done|done|].
        by rewrite <- (expected_call_main _ _ _ _ _ _ _ Hwf He).
Qed.

Lemma ducking_calls_app l1 l2 :
  ducking_calls (l1 ++ l2) = ducking_calls l1 ++ ducking_calls l2.
Proof. apply omap_app. Qed.

Lemma ducking_calls_entries done :
  ducking_calls (duck_entries done) = (λ ap, (ap.1, Some ap.2)) <$> done.
Proof.
  induction done as [|ap done IH]; [done|].
  change (duck_entries (ap :: done))
    with ([ProcessDucking_call ap.1 (Some ap.2); FreeProcessingResult_call ap.2]
          ++ duck_entries done).
  by rewrite ducking_calls_app, IH.
Qed.

Lemma omap_expected {A B C} (f : A → option B) (l : list A) (done : list (B * C)) :
  Forall2 (λ q ap, f q = Some ap.1) l done → omap f l = fst <$> done.
Proof.
  induction 1 as [|q ap l done Hq _ IH]; [done|].
  rewrite fmap_cons, <- IH. simpl. by rewrite Hq.
Qed.

(** The calls made during one run, whichever way the loops ended, are the
    expected calls of an initial segment of the pairs. *)
Lemma duck_stopped_calls k st :
  duck_stopped k st →
  ∃ new, native st = run_log0 k ++ new ∧
         (fst <$> ducking_calls new) `prefix_of` omap (run_expected k) (run_order k).
Proof.
  intros (to & pre & done & tail & said & _ & _ & _ & Hlog & _ & Hpre & Hexp & _ & Hwhy).
  exists (duck_entries done ++ tail). split; [done|].
  rewrite ducking_calls_app, ducking_calls_entries, fmap_app, <- list_fmap_compose.
  change (fst ∘ (λ ap : DuckingCall * pointer, (ap.1, Some ap.2))) with (@fst DuckingCall pointer).
  rewrite <- (omap_expected _ _ _ Hexp).
  assert (∀ q a, run_expected k q = Some a → pre ++ [q] `prefix_of` run_order k →
            omap (run_expected k) pre ++ [a] `prefix_of` omap (run_expected k) (run_order k))
    as Hone.
  { intros q a Hq [rest ->]. exists (omap (run_expected k) rest).
    rewrite !omap_app. simpl. by rewrite Hq. }
  destruct Hwhy; simpl; try by eapply Hone.
  - rewrite app_nil_r. destruct Hpre as [rest ->]. rewrite omap_app. by eexists.
  - rewrite app_nil_r. destruct Hpre as [rest ->]. rewrite omap_app. by eexists.
Qed.

Lemma column_mapM (m : list (list f32)) (i n : nat) :
  Forall (λ ch : list f32, length ch = n) m → i < n →
  mapM (.!! i) m = Some ((λ ch : list f32, default zero (ch !! i)) <$> m).
Proof.
  intros Hall Hi. apply mapM_Some.
  apply Forall2_fmap_r, Forall_Forall2_diag.
  eapply Forall_impl; [exact Hall|]. intros ch Hlen. simpl in *.
  destruct (lookup_lt_is_Some_2 ch i) as [x Hx]; [lia|]. by rewrite Hx.
Qed.

Lemma expected_call_parts tm ts srm srs p q a :
  expected_call tm ts srm srs p q = Some a →
  channel (data tm) q.1 q.2 = Some (dc_main a) ∧
  control ts q.1 = Some (dc_sidechain a) ∧
  dc_sidechain_length a = c_int (Z.of_nat (length (dc_sidechain a))).
Proof.
  unfold expected_call.
  destruct (channel (data tm) q.1 q.2) as [ch|]; simpl; [|done].
  destruct (control ts q.1) as [ctl|]; simpl; [|done].
  by intros [= <-].
Qed.

(** How far a run that left the loops early has come: the calls it made are
    the expected calls of the first pairs, one call per pair, and with a
    usable library it stopped because the last call returned NULL or a
    result that could not be read back, or because the control signal of
    the next batch element could not be computed. *)
Lemma duck_stopped_progress k st :
  duck_stopped k st →
  ∃ new, native st = run_log0 k ++ new ∧
    Forall2 (λ q ar, run_expected k q = Some ar.1)
      (take (length (ducking_calls new)) (run_order k)) (ducking_calls new) ∧
    (usable (run_manager k) = true →
       (∃ a, last (ducking_calls new) = Some (a, None)) ∨
       (∃ a ptr e, last (ducking_calls new) = Some (a, Some ptr) ∧
                   read_back (shape2 (run_tm k)) (contents ptr) = inl e) ∨
       (∃ b, b < shape0 (run_tm k) ∧ control (run_ts k) b = None ∧
             length (ducking_calls new) = b * shape1 (run_tm k))).
Proof.
  intros (to & pre & done & tail & said & _ & _ & _ & Hlog & _ & Hpre & Hexp & _ & Hwhy).
  exists (duck_entries done ++ tail). split; [done|].
  rewrite ducking_calls_app, ducking_calls_entries.
  assert (Forall2 (λ q (ar : DuckingCall * option pointer), run_expected k q = Some ar.1)
            pre ((λ ap : DuckingCall * pointer, (ap.1, Some ap.2)) <$> done)) as Hdone.
  { apply Forall2_fmap_r. eapply Forall2_impl; [exact Hexp|done]. }
  pose proof (Forall2_length _ _ _ Hexp) as Hlen.
  assert (∀ l, l `prefix_of` run_order k → take (length l) (run_order k) = l) as Htake.
  { intros l [rest ->]. apply take_app_length. }
  destruct Hwhy as [HU|b Hb Hno Hseq|q a He Hq Hnull|q a ptr e He Hq Hsome Hbad]; simpl.
  - rewrite app_nil_r, length_fmap, <- Hlen, Htake by done. split; [done|]. congruence.
  - rewrite app_nil_r, length_fmap, <- Hlen, Htake by done. split; [done|].
    intros _. right. right. exists b. split_and!; try done.
    rewrite Hseq. apply length_row_major.
  - rewrite length_app, length_fmap, <- Hlen. simpl.
    replace (length pre + 1) with (length (pre ++ [q])) by (by rewrite length_app).
    rewrite Htake by done. split.
    + apply Forall2_app; [done|]. by constructor.
    + intros _. left. exists a. by rewrite last_snoc.
  - rewrite length_app, length_fmap, <- Hlen. simpl.
    replace (length pre + 1) with (length (pre ++ [q])) by (by rewrite length_app).
    rewrite Htake by done. split.
    + apply Forall2_app; [done|]. by constructor.
    + intros _. right. left. exists a, ptr, e. by rewrite last_snoc.
Qed.

(** C9: the control signal handed to the engine. The calls that
    [apply_ducking] makes are, in order, the expected calls of an initial
    segment of the (batch, channel) pairs, one call for each pair of the
    segment, and the call for a pair of batch element [b] carries the control
    buffer [control ts b] (with its length) beside that pair's main channel:
    the same buffer for every channel of [b]. With a usable library the
    segment is all the pairs, unless the last call returned NULL or a result
    that could not be read back, or the control signal of the next batch
    element could not be computed. For a sidechain with more than one
    channel the control buffer has one sample per sidechain sample, each the
    arithmetic mean over the channels (their sum divided by their number);
    otherwise it is channel 0 of the sidechain as it is. *)
Theorem C9_mono_control lib_manager main_audio sidechain_audio dp st tm ts :
  tensors st !! waveform main_audio = Some tm → well_shaped tm →
  tensors st !! waveform sidechain_audio = Some ts → well_shaped ts →
  (∃ out st' new,
     call (apply_ducking lib_manager main_audio sidechain_audio dp) st = (inr out, st') ∧
     native st' = native st ++ new ∧
     (fst <$> ducking_calls new) `prefix_of`
       omap (expected_call tm ts (sample_rate main_audio)
               (sample_rate sidechain_audio) dp)
         (row_major (shape0 tm) (shape1 tm)) ∧
     Forall2
       (λ q ar,
          expected_call tm ts (sample_rate main_audio) (sample_rate sidechain_audio) dp q
          = Some ar.1 ∧
          channel (data tm) q.1 q.2 = Some (dc_main ar.1) ∧
          control ts q.1 = Some (dc_sidechain ar.1))
       (take (length (ducking_calls new)) (row_major (shape0 tm) (shape1 tm)))
       (ducking_calls new) ∧
     (usable lib_manager = true →
      length (ducking_calls new) = shape0 tm * shape1 tm ∨
      (∃ a, last (ducking_calls new) = Some (a, None)) ∨
      (∃ a ptr e, last (ducking_calls new) = Some (a, Some ptr) ∧
                  read_back (shape2 tm) (contents ptr) = inl e) ∨
      (∃ b, b < shape0 tm ∧ control ts b = None ∧
            length (ducking_calls new) = b * shape1 tm))) ∧
  (∀ q a,
     expected_call tm ts (sample_rate main_audio) (sample_rate sidechain_audio) dp q
     = Some a →
     channel (data tm) q.1 q.2 = Some (dc_main a) ∧
     control ts q.1 = Some (dc_sidechain a) ∧
     dc_sidechain_length a = c_int (Z.of_nat (length (dc_sidechain a)))) ∧
  (∀ b ctl, control ts b = Some ctl →
     (1 < shape1 ts →
      ∃ m, data ts !! b = Some m ∧ length m = shape1 ts ∧ length ctl = shape2 ts ∧
           ∀ i, i < shape2 ts → ctl !! i = arithmetic_mean m i) ∧
     (shape1 ts = 1 → channel (data ts) b 0 = Some ctl)).
Proof.
  intros Hm Hwf Hs Hwfs.
  assert (∀ l (calls : list (DuckingCall * option pointer)),
            Forall2 (λ q ar,
               expected_call tm ts (sample_rate main_audio)
                 (sample_rate sidechain_audio) dp q = Some ar.1) l calls →
            Forall2 (λ q ar,
               expected_call tm ts (sample_rate main_audio)
                 (sample_rate sidechain_audio) dp q = Some ar.1 ∧
               channel (data tm) q.1 q.2 = Some (dc_main ar.1) ∧
               control ts q.1 = Some (dc_sidechain ar.1)) l calls) as Hparts.
  { intros l calls H. eapply Forall2_impl; [exact H|]. intros q ar He.
    destruct (expected_call_parts _ _ _ _ _ _ _ He) as (? & ? & _). done. }
  split_and!.
  - destruct (loaded lib_manager) eqn:Hl.
    + destruct (apply_ducking_loaded _ main_audio sidechain_audio dp st tm ts Hl Hm Hs Hwf)
        as (out & st' & Hcall & [[-> Hinv]|[-> Hstop]]).
      * destruct Hinv as (to & done & _ & _ & _ & Hlog & _ & Hexp & _). simpl in *.
        pose proof (Forall2_length _ _ _ Hexp) as Hlen.
        unfold run_order in Hlen. simpl in Hlen. rewrite length_row_major in Hlen.
        eexists _, st', (duck_entries done). split_and!; try done.
        -- rewrite ducking_calls_entries, <- list_fmap_compose.
           change (fst ∘ (λ ap : DuckingCall * pointer, (ap.1, Some ap.2)))
             with (@fst DuckingCall pointer).
           by rewrite <- (omap_expected _ _ _ Hexp).
        -- rewrite ducking_calls_entries, length_fmap, take_ge
             by (rewrite length_row_major; lia).
           apply Hparts, Forall2_fmap_r. eapply Forall2_impl; [exact Hexp|done].
        -- intros _. left. by rewrite ducking_calls_entries, length_fmap.
      * destruct (duck_stopped_calls _ _ Hstop) as (new & Hlog & Hpre).
        destruct (duck_stopped_progress _ _ Hstop) as (new' & Hlog' & Hcalls & Hwhy).
        assert (new' = new) as -> by (eapply app_inv_head; by rewrite <- Hlog, <- Hlog').
        eexists _, st', new. split_and!; try done.
        -- by apply Hparts.
        -- intros U. right. by apply Hwhy.
    + rewrite apply_ducking_not_loaded by done.
      eexists _, _, []. simpl. split_and!; try done.
      * by rewrite app_nil_r.
      * apply prefix_nil.
      * unfold usable. rewrite Hl. done.
  - intros q a. apply expected_call_parts.
  - intros b ctl Hctl. unfold control in Hctl. split.
    + intros Hmany. apply Nat.ltb_lt in Hmany. rewrite Hmany in Hctl.
      destruct (data ts !! b) as [m|] eqn:Hb; simpl in Hctl; [|done].
      injection Hctl as <-. destruct Hwfs as [_ Hall].
      pose proof (Forall_lookup_1 _ _ _ _ Hall Hb) as [Hlen Hch].
      exists m. split_and!; try done.
      * unfold sum_dim0. by rewrite !length_fmap, length_seq.
      * intros i Hi. unfold arithmetic_mean, sum_dim0.
        rewrite (column_mapM m i (shape2 ts)) by done. simpl.
        rewrite !list_lookup_fmap, lookup_seq_lt by done. simpl. by rewrite Hlen.
    + intros Hone. by rewrite Hone in Hctl.
Qed.

(** *** Result handles *)

Lemma freed_app l1 l2 : freed (l1 ++ l2) = freed l1 ++ freed l2.
Proof. apply omap_app. Qed.

Lemma freed_entries done : freed (duck_entries done) = snd <$> done.
Proof.
  induction done as [|ap done IH]; [done|].
  change (duck_entries (ap :: done))
    with ([ProcessDucking_call ap.1 (Some ap.2); FreeProcessingResult_call ap.2]
          ++ duck_entries done).
  by rewrite freed_app, IH.
Qed.

Lemma length_duck_entries done : length (duck_entries done) = 2 * length done.
Proof.
  induction done as [|ap done IH]; [done|].
  change (duck_entries (ap :: done))
    with ([ProcessDucking_call ap.1 (Some ap.2); FreeProcessingResult_call ap.2]
          ++ duck_entries done).
  rewrite length_app, IH. simpl. lia.
Qed.

(** In a log made of call-and-free pairs followed by entries that free
    nothing, every free comes directly after the call that returned the
    pointer it frees. *)
Lemma free_follows_call (done : list (DuckingCall * pointer)) tail i p :
  freed tail = [] →
  (duck_entries done ++ tail) !! i = Some (FreeProcessingResult_call p) →
  ∃ j a, i = S j ∧
         (duck_entries done ++ tail) !! j = Some (ProcessDucking_call a (Some p)).
Proof.
  intros Htail. revert i. induction done as [|ap done IH]; intros i Hi.
  - simpl in Hi. apply list_elem_of_lookup_2 in Hi.
    assert (p ∈ freed tail) as Hin; [|rewrite Htail in Hin; by apply elem_of_nil in Hin].
    unfold freed. apply list_elem_of_omap. by exists (FreeProcessingResult_call p).
  - change (duck_entries (ap :: done) ++ tail)
      with (ProcessDucking_call ap.1 (Some ap.2) :: FreeProcessingResult_call ap.2
            :: (duck_entries done ++ tail)) in *.
    destruct i as [|[|i]]; simpl in Hi.
    + done.
    + injection Hi as <-. by exists 0, ap.1.
    + destruct (IH i Hi) as (j & a & -> & Hj). by exists (S (S j)), a.
Qed.

(** X3: Which result handles [apply_ducking] frees. The non-null pointers that
    the engine returned during a call are, in order, the pointers that were
    freed, followed by at most one more: the result that could not be read
    back, which was the last thing the engine returned, after which the node
    returns [main_audio] without freeing it. Every free comes directly after
    the engine call that returned the pointer it frees, so no result is
    freed twice and none is freed before the engine returned it. *)
Lemma ducking_frees_all_but_unreadable lib_manager main_audio sidechain_audio dp st tm ts :
  tensors st !! waveform main_audio = Some tm → well_shaped tm →
  tensors st !! waveform sidechain_audio = Some ts →
  ∃ out st' new leaked,
    call (apply_ducking lib_manager main_audio sidechain_audio dp) st = (inr out, st') ∧
    native st' = native st ++ new ∧
    omap snd (ducking_calls new) = freed new ++ leaked ∧
    (∀ i p, new !! i = Some (FreeProcessingResult_call p) →
       ∃ j a, i = S j ∧ new !! j = Some (ProcessDucking_call a (Some p))) ∧
    (leaked = [] ∨
     ∃ a ptr e, leaked = [ptr] ∧ out = main_audio ∧
                last new = Some (ProcessDucking_call a (Some ptr)) ∧
                read_back (shape2 tm) (contents ptr) = inl e).
Proof.
  intros Hm Hwf Hs. destruct (loaded lib_manager) eqn:Hl.
  2:{ rewrite apply_ducking_not_loaded by done.
      eexists _, _, [], []. simpl. split_and!; try done.
      - by rewrite app_nil_r.
      - by left. }
  assert (∀ done, omap snd (ducking_calls (duck_entries done)) = snd <$> done) as Hret.
  { intros done. rewrite ducking_calls_entries.
    induction done as [|ap done IH]; [done|]. csimpl. by rewrite IH. }
  destruct (apply_ducking_loaded _ main_audio sidechain_audio dp st tm ts Hl Hm Hs Hwf)
    as (out & st' & Hcall & [[-> Hinv]|[-> Hstop]]).
  - destruct Hinv as (to & done & _ & _ & _ & Hlog & _). simpl in *.
    eexists _, st', (duck_entries done ++ []), []. split_and!; try done.
    + by rewrite app_nil_r.
    + by rewrite !app_nil_r, Hret, freed_entries.
    + intros i p. by apply free_follows_call.
    + by left.
  - destruct Hstop as (to & pre & done & tail & said & _ & _ & _ & Hlog & _ & _ & _ & _ & Hwhy).
    simpl in *.
    destruct Hwhy as [HU|b Hb Hno|q a He _ Hnull|q a ptr e He _ Hsome Hbad]; simpl in *.
    + eexists _, st', (duck_entries done ++ []), []. split_and!; try done.
      * by rewrite !app_nil_r, Hret, freed_entries.
      * intros i p. by apply free_follows_call.
      * by left.
    + eexists _, st', (duck_entries done ++ []), []. split_and!; try done.
      * by rewrite !app_nil_r, Hret, freed_entries.
      * intros i p. by apply free_follows_call.
      * by left.
    + eexists _, st', (duck_entries done ++ [ProcessDucking_call a None]), [].
      split_and!; try done.
      * rewrite ducking_calls_app, omap_app, Hret, freed_app, freed_entries. simpl.
        by rewrite !app_nil_r.
      * intros i p. by apply free_follows_call.
      * by left.
    + eexists _, st', (duck_entries done ++ [ProcessDucking_call a (Some ptr)]), [ptr].
      split_and!; try done.
      * rewrite ducking_calls_app, omap_app, Hret, freed_app, freed_entries. simpl.
        by rewrite !app_nil_r.
      * intros i p. by apply free_follows_call.
      * right. exists a, ptr, e. split_and!; try done. by rewrite last_snoc.
Qed.

(** *** What else the two nodes guarantee *)

Lemma Forall_compressor_calls_bind {A} (P : CompressorCall → Prop)
    (f : A → list native_call) (l : list A) :
  (∀ x, x ∈ l → Forall P (compressor_calls (f x))) →
  Forall P (compressor_calls (l ≫= f)).
Proof.
  induction l as [|x l IH]; intros H; [constructor|].
  change ((x :: l) ≫= f) with (f x ++ l ≫= f).
  unfold compressor_calls. rewrite omap_app. apply Forall_app. split.
  - apply H. by left.
  - apply IH. intros y Hy. apply H. by right.
Qed.

Lemma c_int_small (v : Z) : (- 2 ^ 31 ≤ v < 2 ^ 31)%Z → c_int v = v.
Proof. intros H. unfold c_int. rewrite Z.mod_small; lia. Qed.

(** X1: The buffers that [apply_compression] hands to the engine: each is one
    channel of the input, never an empty one, and the [length] argument that
    goes with it is the number of its samples (as a C int, hence the number
    itself for fewer than 2^31 samples), so the engine is never told to work
    past the end of the buffer. *)
Lemma compression_calls_fit_their_buffers lib_manager audio p st t :
  tensors st !! waveform audio = Some t → well_shaped t →
  ∃ out st' new,
    call (apply_compression lib_manager audio p) st = (inr out, st') ∧
    native st' = native st ++ new ∧
    Forall
      (λ a, cc_waveform a ≠ [] ∧
            (∃ b c, channel (data t) b c = Some (cc_waveform a)) ∧
            cc_length a = c_int (Z.of_nat (length (cc_waveform a))) ∧
            cc_sample_rate a = c_int (sample_rate audio) ∧
            ((Z.of_nat (shape2 t) < 2 ^ 31)%Z → cc_length a = Z.of_nat (shape2 t)))
      (compressor_calls new).
Proof.
  intros Ht Hwf.
  destruct (apply_compression_result lib_manager audio p st t Ht Hwf)
    as (out & st' & t' & Hcall & _ & _ & _ & _ & _ & _ & Hlog).
  eexists out, st', _. split; [done|]. split; [exact Hlog|].
  destruct (loaded lib_manager); [|constructor].
  apply Forall_compressor_calls_bind. intros [b c] _.
  unfold channel_log. simpl.
  destruct (channel (data t) b c) as [ch|] eqn:Hch; [|constructor]. simpl.
  unfold compressed_log. destruct (Nat.eqb_spec (length ch) 0) as [E|E]; [constructor|].
  destruct (usable lib_manager); [|constructor].
  repeat constructor; simpl.
  - by destruct ch.
  - by exists b, c.
  - intros Hsmall.
    destruct (well_shaped_channel t b c ch Hwf Hch) as (_ & _ & ->).
    apply c_int_small. lia.
Qed.

(** X2: A sidechain that cannot drive every batch element makes [apply_ducking]
    give up: when the sidechain waveform has fewer batch elements than the
    main waveform, or no channel at all, reading the control signal raises
    [IndexError] inside the [try], and the node returns [main_audio] itself,
    whatever the engine answered for the batch elements before. *)
Lemma ducking_short_sidechain_returns_main lib_manager main_audio sidechain_audio
    dp st tm ts :
  tensors st !! waveform main_audio = Some tm → well_shaped tm →
  tensors st !! waveform sidechain_audio = Some ts → well_shaped ts →
  0 < shape0 tm → 0 < shape1 tm →
  shape0 ts < shape0 tm ∨ shape1 ts = 0 →
  ∃ st',
    call (apply_ducking lib_manager main_audio sidechain_audio dp) st
    = (inr main_audio, st') ∧
    tensors st' !! waveform main_audio = Some tm.
Proof.
  intros Hm Hwf Hs Hwfs Hb Hc Hshort.
  assert (∃ b, b < shape0 tm ∧ control ts b = None) as (b & Hbb & Hno).
  { destruct Hshort as [Hrows|Hchan].
    - exists (shape0 ts). split; [done|]. unfold control, channel.
      destruct Hwfs as [Hlen _].
      rewrite (lookup_ge_None_2 (data ts) (shape0 ts)) by lia.
      by destruct (1 <? shape1 ts)%nat.
    - exists 0. split; [done|]. unfold control. rewrite Hchan. simpl.
      destruct (channel (data ts) 0 0) as [ch|] eqn:Hch; [|done].
      destruct (well_shaped_channel ts 0 0 ch Hwfs Hch) as (_ & ? & _). lia. }
  destruct (loaded lib_manager) eqn:Hl.
  2:{ rewrite apply_ducking_not_loaded by done. by eexists. }
  destruct (apply_ducking_loaded _ main_audio sidechain_audio dp st tm ts Hl Hm Hs Hwf)
    as (out & st' & Hcall & [[-> Hinv]|[-> Hstop]]).
  - exfalso. destruct Hinv as (to & done & _ & _ & _ & _ & _ & Hexp & _). simpl in *.
    assert ((b, 0) ∈ run_order
              (run_from lib_manager main_audio sidechain_audio dp tm ts st)) as Hin.
    { apply elem_of_row_major. simpl. done. }
    apply list_elem_of_lookup in Hin as [i Hi].
    destruct (Forall2_lookup_l _ _ _ _ _ Hexp Hi) as (ap & _ & He).
    unfold run_expected, expected_call in He. simpl in He. rewrite Hno in He.
    by destruct (channel (data tm) b 0).
  - destruct Hstop as (to & pre & done & tail & said & Hts & _). simpl in *.
    exists st'. split; [done|]. rewrite Hts. by apply lookup_app_l_Some.
Qed.

End nodes.

(** ** The claims about libeffects.py *)

Lemma try_names_found P names self out self' path out' :
  try_names P names self out = (self', Some path, out') →
  ∃ h, lib self' = Some h.
Proof.
  revert out. induction names as [|n names IH]; intros out; simpl; [done|].
  destruct (path_exists P _); [|apply IH].
  destruct (dlopen P _) as [h|]; [|apply IH].
  intros [= <- _ _]. by exists h.
Qed.

(** [loaded] is set only once the library is open and its three entry points
    have been resolved; this is why the wrappers, which test [loaded] and
    [lib], can go on to call them. *)
Lemma load_library_loaded P self out ok self' out' :
  load_library P self out = (ok, self', out') →
  loaded self' = ok ∧
  (ok = true →
   ∃ h, lib self' = Some h ∧
        Forall (λ s, s ∈ cdll_symbols h)
          ["ProcessCompressor"; "ProcessDucking"; "FreeProcessingResult"]).
Proof.
  unfold load_library. destruct (lib_names P _) as [e|names].
  { intros [= <- <- _]. done. }
  destruct (try_names P names self out) as [[self1 [path|]] out1] eqn:Htry.
  2:{ intros [= <- <- _]. done. }
  destruct (try_names_found _ _ _ _ _ _ _ Htry) as [h Hh].
  unfold _setup_function_signatures. rewrite Hh.
  destruct (forallb _ _) eqn:Hsym.
  - intros [= <- <- _]. split; [done|]. intros _. exists h. split; [done|].
    apply Is_true_eq_left, forallb_True in Hsym.
    eapply Forall_impl; [exact Hsym|].
    intros s Hs. by apply bool_decide_unpack in Hs.
  - intros [= <- <- _]. done.
Qed.

Lemma get_library_manager_again P name r w :
  _library_manager w = Some r → get_library_manager P name w = (r, w).
Proof. intros H. unfold get_library_manager. by rewrite H. Qed.

Lemma get_many_again P names r w :
  _library_manager w = Some r →
  get_many P names w = (replicate (length names) r, w).
Proof.
  intros H. induction names as [|n names IH]; [done|]. simpl.
  by rewrite (get_library_manager_again P n r w H), IH.
Qed.

(** C10: [get_library_manager] is idempotent. Called while the global is
    [None] it constructs one manager, calls [load_library] on it once and
    stores it in the global, whether or not the load succeeds; from then on
    every call, whatever name it is given, returns that same object and
    changes nothing: no manager is constructed and nothing is loaded
    again. *)
Theorem C10_get_library_manager_idempotent P name names w :
  _library_manager w = None →
  ∃ r w1,
    get_library_manager P name w = (r, w1) ∧
    r = length (objects w) ∧
    objects w1 = objects w ++ [(load_library P (init name) (stdout w)).1.2] ∧
    invocations w1 = invocations w ++ [Constructed r name; LoadLibrary r] ∧
    _library_manager w1 = Some r ∧
    (∀ name', get_library_manager P name' w1 = (r, w1)) ∧
    get_many P names w1 = (replicate (length names) r, w1).
Proof.
  intros Hnone. unfold get_library_manager at 1. rewrite Hnone.
  destruct (load_library P (init name) (stdout w)) as [[ok self] out] eqn:Hload.
  eexists _, _. split; [done|]. simpl. split_and!; try done.
  by apply get_many_again.
Qed.

(** ** Concrete runs *)

(** Samples and parameters are integers here; the compressor doubles every
    sample, and the ducking engine answers with a copy of the main channel. *)
Definition demo_manager : SoundFlowLibraryManager :=
  {| lib_base_name := "lib/effects";
     lib := Some {| cdll_path := "/nodes/liblib/effects.so";
                    cdll_symbols := ["ProcessCompressor"; "ProcessDucking";
                                     "FreeProcessingResult"] |};
     loaded := true |}.

Definition demo_sum (xs : list Z) : Z := foldr Z.add 0%Z xs.
Definition demo_div (x : Z) (n : nat) : Z := (x / Z.of_nat n)%Z.

Definition demo_compressor (a : @CompressorCall Z) (i : nat) : Z :=
  (2 * default 0 (cc_waveform a !! i))%Z.

Definition demo_ducking (log : list (@native_call Z)) (a : @DuckingCall Z)
  : option (@ProcessingResult Z) :=
  Some {| audio_ptr := Some (dc_main a);
          result_sample_rate := dc_main_sample_rate a |}.

Definition demo_main : @Tensor Z :=
  {| shape0 := 1; shape1 := 2; shape2 := 3;
     data := [[[1; 2; 3]; [4; 5; 6]]]%Z |}.

Definition demo_sidechain : @Tensor Z :=
  {| shape0 := 1; shape1 := 2; shape2 := 2;
     data := [[[10; 20]; [30; 50]]]%Z |}.

Definition demo_state : @state Z :=
  {| tensors := [demo_main; demo_sidechain]; native := []; console := [] |}.

Definition demo_audio : AUDIO := {| waveform := 0; sample_rate := 44100 |}.
Definition demo_sidechain_audio : AUDIO := {| waveform := 1; sample_rate := 48000 |}.

Definition demo_cp : @CompressorParams Z :=
  {| threshold_db := (-20)%Z; ratio := 4%Z; attack_ms := 10%Z;
     release_ms := 100%Z; knee_db := 0%Z; makeup_gain_db := 0%Z; mix := 1%Z |}.

Definition demo_dp : @DuckingParams Z :=
  {| main_gain_db := 0%Z; sidechain_gain_db := 0%Z;
     duck_threshold_db := (-24)%Z; reduction_db := (-12)%Z;
     duck_attack_ms := 5%Z; duck_release_ms := 200%Z |}.

(** A manager whose load failed. *)
Definition unloaded_manager : SoundFlowLibraryManager :=
  {| lib_base_name := "lib/effects"; lib := None; loaded := false |}.

(** An input with one channel and no samples. *)
Definition empty_main : @Tensor Z :=
  {| shape0 := 1; shape1 := 1; shape2 := 0; data := [[[]]] |}.

Definition empty_state : @state Z :=
  {| tensors := [empty_main; demo_sidechain]; native := []; console := [] |}.

(** An engine that answers NULL, and one whose result is one sample longer
    than the main channel it was given. *)
Definition null_ducking (log : list (@native_call Z)) (a : @DuckingCall Z)
  : option (@ProcessingResult Z) := None.

Definition long_ducking (log : list (@native_call Z)) (a : @DuckingCall Z)
  : option (@ProcessingResult Z) :=
  Some {| audio_ptr := Some (dc_main a ++ [0%Z]);
          result_sample_rate := dc_main_sample_rate a |}.

(** A sidechain with one batch element and no channel. *)
Definition no_sidechain : @Tensor Z :=
  {| shape0 := 1; shape1 := 0; shape2 := 0; data := [[]] |}.

Definition no_sidechain_state : @state Z :=
  {| tensors := [demo_main; no_sidechain]; native := []; console := [] |}.

(** A Linux host on which the library file is missing. *)
Definition demo_platform : Platform :=
  {| os_name := "posix"; platform_system := "Linux"; script_dir := "/nodes";
     path_join := λ d f, d +:+ "/" +:+ f;
     path_exists := λ _, false;
     dlopen := λ _, None |}.

Lemma demo_main_well_shaped : well_shaped demo_main.
Proof. split; [done|]. repeat constructor. Qed.

Lemma demo_sidechain_well_shaped : well_shaped demo_sidechain.
Proof. split; [done|]. repeat constructor. Qed.

Lemma empty_main_well_shaped : well_shaped empty_main.
Proof. split; [done|]. repeat constructor. Qed.

Lemma C1_witness :
  (∃ out st' t',
     call (apply_compression id demo_compressor demo_manager demo_audio demo_cp)
       demo_state = (inr out, st') ∧
     tensors st' !! waveform out = Some t' ∧ well_shaped t' ∧ same_shape t' demo_main) ∧
  (∃ out st' t',
     call (apply_ducking 0%Z id demo_sum demo_div demo_ducking demo_manager
             demo_audio demo_sidechain_audio demo_dp) demo_state = (inr out, st') ∧
     tensors st' !! waveform out = Some t' ∧ well_shaped t' ∧ same_shape t' demo_main).
Proof.
  apply (C1_output_keeps_shape 0%Z id demo_sum demo_div demo_compressor demo_ducking
           demo_manager demo_audio demo_sidechain_audio demo_cp demo_dp demo_state
           demo_main demo_sidechain);
    [reflexivity | split; [reflexivity | repeat constructor] | reflexivity].
Defined.

(** Three runs: the library is not loaded; the result of the first call
    cannot be read back; the sidechain has no channel to take the control
    signal from. *)
Lemma C3_witness :
  ((loaded unloaded_manager = false →
    ∃ st', call (apply_compression id demo_compressor unloaded_manager demo_audio demo_cp)
             demo_state = (inr demo_audio, st') ∧
           tensors st' = tensors demo_state ∧ native st' = native demo_state) ∧
   (∃ out st' new said,
      call (apply_ducking 0%Z id demo_sum demo_div null_ducking unloaded_manager
              demo_audio demo_sidechain_audio demo_dp) demo_state = (inr out, st') ∧
      native st' = native demo_state ++ new ∧ console st' = console demo_state ++ said ∧
      tensors st' !! waveform demo_audio = Some demo_main ∧
      (loaded unloaded_manager = false → out = demo_audio ∧ new = []) ∧
      ((∃ a, ProcessDucking_call a None ∈ new) → out = demo_audio) ∧
      (usable unloaded_manager = false → 0 < shape0 demo_main → 0 < shape1 demo_main →
       out = demo_audio) ∧
      ((∃ a ptr e, ProcessDucking_call a (Some ptr) ∈ new ∧
                   read_back 0%Z (shape2 demo_main) (contents ptr) = inl e) →
       out = demo_audio) ∧
      ((∃ b, b < shape0 demo_main ∧ control 0%Z demo_sum demo_div demo_sidechain b = None) →
       out = demo_audio) ∧
      (said ≠ [] → out = demo_audio))) ∧
  ((loaded demo_manager = false →
    ∃ st', call (apply_compression id demo_compressor demo_manager demo_audio demo_cp)
             demo_state = (inr demo_audio, st') ∧
           tensors st' = tensors demo_state ∧ native st' = native demo_state) ∧
   (∃ out st' new said,
      call (apply_ducking 0%Z id demo_sum demo_div long_ducking demo_manager
              demo_audio demo_sidechain_audio demo_dp) demo_state = (inr out, st') ∧
      native st' = native demo_state ++ new ∧ console st' = console demo_state ++ said ∧
      tensors st' !! waveform demo_audio = Some demo_main ∧
      (loaded demo_manager = false → out = demo_audio ∧ new = []) ∧
      ((∃ a, ProcessDucking_call a None ∈ new) → out = demo_audio) ∧
      (usable demo_manager = false → 0 < shape0 demo_main → 0 < shape1 demo_main →
       out = demo_audio) ∧
      ((∃ a ptr e, ProcessDucking_call a (Some ptr) ∈ new ∧
                   read_back 0%Z (shape2 demo_main) (contents ptr) = inl e) →
       out = demo_audio) ∧
      ((∃ b, b < shape0 demo_main ∧ control 0%Z demo_sum demo_div demo_sidechain b = None) →
       out = demo_audio) ∧
      (said ≠ [] → out = demo_audio))) ∧
  ((loaded demo_manager = false →
    ∃ st', call (apply_compression id demo_compressor demo_manager demo_audio demo_cp)
             no_sidechain_state = (inr demo_audio, st') ∧
           tensors st' = tensors no_sidechain_state ∧ native st' = native no_sidechain_state) ∧
   (∃ out st' new said,
      call (apply_ducking 0%Z id demo_sum demo_div demo_ducking demo_manager
              demo_audio demo_sidechain_audio demo_dp) no_sidechain_state = (inr out, st') ∧
      native st' = native no_sidechain_state ++ new ∧ console st' = console no_sidechain_state ++ said ∧
      tensors st' !! waveform demo_audio = Some demo_main ∧
      (loaded demo_manager = false → out = demo_audio ∧ new = []) ∧
      ((∃ a, ProcessDucking_call a None ∈ new) → out = demo_audio) ∧
      (usable demo_manager = false → 0 < shape0 demo_main → 0 < shape1 demo_main →
       out = demo_audio) ∧
      ((∃ a ptr e, ProcessDucking_call a (Some ptr) ∈ new ∧
                   read_back 0%Z (shape2 demo_main) (contents ptr) = inl e) →
       out = demo_audio) ∧
      ((∃ b, b < shape0 demo_main ∧ control 0%Z demo_sum demo_div no_sidechain b = None) →
       out = demo_audio) ∧
      (said ≠ [] → out = demo_audio))).
Proof.
  split; [|split].
  - apply (C3_fallback_returns_original 0%Z id demo_sum demo_div demo_compressor
             null_ducking unloaded_manager demo_audio demo_sidechain_audio demo_cp demo_dp
             demo_state demo_main demo_sidechain);
      [reflexivity | split; [reflexivity | repeat constructor] | reflexivity].
  - apply (C3_fallback_returns_original 0%Z id demo_sum demo_div demo_compressor
             long_ducking demo_manager demo_audio demo_sidechain_audio demo_cp demo_dp
             demo_state demo_main demo_sidechain);
      [reflexivity | split; [reflexivity | repeat constructor] | reflexivity].
  - apply (C3_fallback_returns_original 0%Z id demo_sum demo_div demo_compressor
             demo_ducking demo_manager demo_audio demo_sidechain_audio demo_cp demo_dp
             no_sidechain_state demo_main no_sidechain);
      [reflexivity | split; [reflexivity | repeat constructor] | reflexivity].
Defined.

Lemma C4_witness :
  (shape2 empty_main = 0 →
   ∃ out st',
     call (apply_compression id demo_compressor demo_manager demo_audio demo_cp)
       empty_state = (inr out, st') ∧
     native st' = native empty_state ∧ tensors st' !! waveform out = Some empty_main) ∧
  (shape2 empty_main = 0 ∨ shape2 demo_sidechain = 0 →
   ∃ out st',
     call (apply_ducking 0%Z id demo_sum demo_div demo_ducking demo_manager
             demo_audio demo_sidechain_audio demo_dp) empty_state = (inr out, st')).
Proof.
  apply (C4_empty_input_is_success 0%Z id demo_sum demo_div demo_compressor
           demo_ducking demo_manager demo_audio demo_sidechain_audio demo_cp demo_dp
           empty_state empty_main demo_sidechain);
    [reflexivity | split; [reflexivity | repeat constructor] | reflexivity].
Defined.

Definition demo_pointer : @pointer Z :=
  {| address := 0;
     contents := {| audio_ptr := Some [7; 8; 9]%Z; result_sample_rate := 44100 |} |}.

Lemma C5_witness :
  free_processing_result demo_manager (Some demo_pointer) demo_state
  = (Normal tt, {| tensors := tensors demo_state;
                   native := native demo_state ++ [FreeProcessingResult_call demo_pointer];
                   console := console demo_state |}) ∧
  free_processing_result unloaded_manager (Some demo_pointer) demo_state
  = (Normal tt, demo_state) ∧
  free_processing_result demo_manager None demo_state = (Normal tt, demo_state).
Proof.
  destruct (C5_free_processing_result_null_safe demo_manager demo_state)
    as (Hnull & _ & Hfree).
  destruct (C5_free_processing_result_null_safe unloaded_manager demo_state)
    as (_ & Hnot & _).
  split_and!.
  - eapply Hfree; reflexivity.
  - apply Hnot. left. reflexivity.
  - exact Hnull.
Defined.

(** C6, as stated, fails. On an input whose only channel has no samples
    [apply_compression] returns without calling the engine, although there
    is one (batch, channel) pair; and when the engine answers NULL to the
    first call, [apply_ducking] returns after that one call, although the
    input has two pairs. *)
Lemma C6_counterexample :
  ¬ (length (compressor_calls (native
       (call (apply_compression id demo_compressor demo_manager demo_audio demo_cp)
          empty_state).2))
     = shape0 empty_main * shape1 empty_main) ∧
  ¬ (length (ducking_calls (native
       (call (apply_ducking 0%Z id demo_sum demo_div null_ducking demo_manager
                demo_audio demo_sidechain_audio demo_dp) demo_state).2))
     = shape0 demo_main * shape1 demo_main).
Proof. split; vm_compute; discriminate. Qed.

Lemma C6_witness :
  (∃ out st' t' calls,
     call (apply_compression id demo_compressor demo_manager demo_audio demo_cp)
       demo_state = (inr out, st') ∧
     native st' = native demo_state ++ (ProcessCompressor_call <$> calls) ∧
     length calls = shape0 demo_main * shape1 demo_main ∧
     tensors st' !! waveform out = Some t' ∧ well_shaped t' ∧ same_shape t' demo_main ∧
     Forall2
       (λ q a, ∃ ch,
          channel (data demo_main) q.1 q.2 = Some ch ∧
          a = compressor_call id ch (Z.of_nat (length ch)) (sample_rate demo_audio) demo_cp ∧
          channel (data t') q.1 q.2 = Some (in_place demo_compressor a))
       (row_major (shape0 demo_main) (shape1 demo_main)) calls) ∧
  (∃ out st' t' done,
     call (apply_ducking 0%Z id demo_sum demo_div demo_ducking demo_manager
             demo_audio demo_sidechain_audio demo_dp) demo_state = (inr out, st') ∧
     native st' = native demo_state ++ duck_entries done ∧
     length done = shape0 demo_main * shape1 demo_main ∧
     tensors st' !! waveform out = Some t' ∧ well_shaped t' ∧ same_shape t' demo_main ∧
     Forall2
       (λ q ap,
          expected_call 0%Z id demo_sum demo_div demo_main demo_sidechain
            (sample_rate demo_audio) (sample_rate demo_sidechain_audio) demo_dp q
          = Some ap.1 ∧
          ∃ buf, audio_ptr (contents ap.2) = Some buf ∧
                 channel (data t') q.1 q.2 = Some (written 0%Z (shape2 demo_main) buf))
       (row_major (shape0 demo_main) (shape1 demo_main)) done).
Proof.
  destruct (C6_once_per_channel 0%Z id demo_sum demo_div demo_compressor demo_ducking
              demo_manager demo_audio demo_sidechain_audio demo_cp demo_dp demo_state
              demo_main demo_sidechain) as [Hc Hd];
    [reflexivity | split; [reflexivity | repeat constructor] | reflexivity
    | split; [reflexivity | repeat constructor] | reflexivity | by eexists |].
  split.
  - apply Hc. simpl. lia.
  - apply Hd; [simpl; lia | simpl; lia |].
    intros log a. eexists _, _. split_and!; [reflexivity | reflexivity | simpl; lia].
Defined.

Lemma C7_witness :
  ∃ out st' t',
    call (apply_compression id demo_compressor demo_manager demo_audio demo_cp)
      demo_state = (inr out, st') ∧
    tensors st' !! waveform out = Some t' ∧
    (∀ b c, channel (data t') b c
            = compressed id demo_compressor demo_manager (sample_rate demo_audio) demo_cp
                <$> channel (data demo_main) b c) ∧
    (∀ audio2 st2 t2 b c,
       tensors st2 !! waveform audio2 = Some t2 → well_shaped t2 →
       sample_rate audio2 = sample_rate demo_audio →
       channel (data t2) b c = channel (data demo_main) b c →
       ∃ out2 st2' t2',
         call (apply_compression id demo_compressor demo_manager audio2 demo_cp) st2
         = (inr out2, st2') ∧
         tensors st2' !! waveform out2 = Some t2' ∧
         channel (data t2') b c = channel (data t') b c) ∧
    (∃ out2 st2,
       call (apply_compression id demo_compressor demo_manager demo_audio demo_cp) st'
       = (inr out2, st2) ∧
       tensors st2 !! waveform out2 = Some t') ∧
    (∀ order, order ≡ₚ row_major (shape0 demo_main) (shape1 demo_main) →
       ∃ out3 st3,
         call (apply_compression_in id demo_compressor order demo_manager demo_audio
                 demo_cp) demo_state = (inr out3, st3) ∧
         tensors st3 !! waveform out3 = Some t').
Proof.
  apply (C7_compression_channelwise id demo_compressor demo_manager demo_audio demo_cp
           demo_state demo_main);
    [reflexivity | split; [reflexivity | repeat constructor]].
Defined.

Lemma C8_witness :
  (∀ r u, tensors demo_state !! r = Some u →
     tensors (call (apply_compression id demo_compressor demo_manager demo_audio demo_cp)
                demo_state).2 !! r = Some u) ∧
  (∀ r u, tensors demo_state !! r = Some u →
     tensors (call (apply_ducking 0%Z id demo_sum demo_div demo_ducking demo_manager
                      demo_audio demo_sidechain_audio demo_dp) demo_state).2 !! r
     = Some u).
Proof.
  apply (C8_inputs_not_mutated 0%Z id demo_sum demo_div demo_compressor demo_ducking
           demo_manager demo_audio demo_sidechain_audio demo_cp demo_dp demo_state
           demo_main demo_sidechain);
    [reflexivity | split; [reflexivity | repeat constructor] | reflexivity].
Defined.

Lemma C9_witness :
  (∃ out st' new,
     call (apply_ducking 0%Z id demo_sum demo_div demo_ducking demo_manager
             demo_audio demo_sidechain_audio demo_dp) demo_state = (inr out, st') ∧
     native st' = native demo_state ++ new ∧
     (fst <$> ducking_calls new) `prefix_of`
       omap (expected_call 0%Z id demo_sum demo_div demo_main demo_sidechain
               (sample_rate demo_audio) (sample_rate demo_sidechain_audio) demo_dp)
         (row_major (shape0 demo_main) (shape1 demo_main)) ∧
     Forall2
       (λ q ar,
          expected_call 0%Z id demo_sum demo_div demo_main demo_sidechain
            (sample_rate demo_audio) (sample_rate demo_sidechain_audio) demo_dp q
          = Some ar.1 ∧
          channel (data demo_main) q.1 q.2 = Some (dc_main ar.1) ∧
          control 0%Z demo_sum demo_div demo_sidechain q.1 = Some (dc_sidechain ar.1))
       (take (length (ducking_calls new))
          (row_major (shape0 demo_main) (shape1 demo_main)))
       (ducking_calls new) ∧
     (usable demo_manager = true →
      length (ducking_calls new) = shape0 demo_main * shape1 demo_main ∨
      (∃ a, last (ducking_calls new) = Some (a, None)) ∨
      (∃ a ptr e, last (ducking_calls new) = Some (a, Some ptr) ∧
                  read_back 0%Z (shape2 demo_main) (contents ptr) = inl e) ∨
      (∃ b, b < shape0 demo_main ∧ control 0%Z demo_sum demo_div demo_sidechain b = None ∧
            length (ducking_calls new) = b * shape1 demo_main))) ∧
  (∀ q a,
     expected_call 0%Z id demo_sum demo_div demo_main demo_sidechain
       (sample_rate demo_audio) (sample_rate demo_sidechain_audio) demo_dp q = Some a →
     channel (data demo_main) q.1 q.2 = Some (dc_main a) ∧
     control 0%Z demo_sum demo_div demo_sidechain q.1 = Some (dc_sidechain a) ∧
     dc_sidechain_length a = c_int (Z.of_nat (length (dc_sidechain a)))) ∧
  (∀ b ctl, control 0%Z demo_sum demo_div demo_sidechain b = Some ctl →
     (1 < shape1 demo_sidechain →
      ∃ m, data demo_sidechain !! b = Some m ∧ length m = shape1 demo_sidechain ∧
           length ctl = shape2 demo_sidechain ∧
           ∀ i, i < shape2 demo_sidechain →
                ctl !! i = arithmetic_mean demo_sum demo_div m i) ∧
     (shape1 demo_sidechain = 1 → channel (data demo_sidechain) b 0 = Some ctl)).
Proof.
  apply (C9_mono_control 0%Z id demo_sum demo_div demo_ducking demo_manager demo_audio
           demo_sidechain_audio demo_dp demo_state demo_main demo_sidechain);
    [reflexivity | split; [reflexivity | repeat constructor] | reflexivity
    | split; [reflexivity | repeat constructor]].
Defined.

(** The control signal of the demo run: the two sidechain channels
    [10; 20] and [30; 50] averaged sample by sample. *)
Example demo_control :
  control 0%Z demo_sum demo_div demo_sidechain 0 = Some [20; 35]%Z.
Proof. reflexivity. Qed.

Lemma C10_witness :
  ∃ r w1,
    get_library_manager demo_platform "lib/effects" imported = (r, w1) ∧
    r = length (objects imported) ∧
    objects w1 = objects imported ++
      [(load_library demo_platform (init "lib/effects") (stdout imported)).1.2] ∧
    invocations w1 = invocations imported ++ [Constructed r "lib/effects"; LoadLibrary r] ∧
    _library_manager w1 = Some r ∧
    (∀ name', get_library_manager demo_platform name' w1 = (r, w1)) ∧
    get_many demo_platform ["other"; "lib/effects"] w1
    = (replicate (length ["other"; "lib/effects"]) r, w1).
Proof.
  apply (C10_get_library_manager_idempotent demo_platform "lib/effects"
           ["other"; "lib/effects"] imported).
  reflexivity.
Defined.

(** On the demo platform the load fails, and the singleton is kept all the
    same. *)
Example demo_load_fails :
  (load_library demo_platform (init "lib/effects") []).1.1 = false ∧
  (get_many demo_platform ["lib/effects"; "other"; "lib/effects"] imported).1
  = [0; 0; 0].
Proof. split; reflexivity. Qed.

(** C2: the handle that is not freed. The main waveform has one channel of
    two samples and the engine answers with a result of three. Reading it
    back raises (the three samples do not fit the two-sample channel), the
    handler returns [main_audio], and the log of the call holds the
    [ProcessDucking] call that returned the pointer and no
    [FreeProcessingResult] call at all. *)
Theorem C2_unreadable_result_is_not_freed :
  let main : @Tensor Z :=
    {| shape0 := 1; shape1 := 1; shape2 := 2; data := [[[1; 2]]]%Z |} in
  let st : @state Z :=
    {| tensors := [main; demo_sidechain]; native := []; console := [] |} in
  let result :=
    call (apply_ducking 0%Z id demo_sum demo_div long_ducking demo_manager
            demo_audio demo_sidechain_audio demo_dp) st in
  let ptr : @pointer Z :=
    {| address := 0;
       contents := {| audio_ptr := Some [1; 2; 0]%Z; result_sample_rate := 44100 |} |} in
  result.1 = inr demo_audio ∧
  omap snd (ducking_calls (native result.2)) = [ptr] ∧
  freed (native result.2) = [] ∧
  console result.2 = [DuckErrorProcessingResult RuntimeError].
Proof. vm_compute. done. Qed.

(** * More of libeffects.py *)

(** [SoundFlow_SimpleCompressorNode.__init__] and
    [SoundFlow_DuckCompressorNode.__init__]: the node keeps the object that
    [get_library_manager()] returns, here as the object's fields at that
    time. *)
Definition node_init (P : Platform) (w : world)
  : option SoundFlowLibraryManager * world :=
  let '(r, w1) := get_library_manager P "lib/effects" w in (objects w1 !! r, w1).

(** A candidate file that is missing or cannot be opened. *)
Definition unloadable (P : Platform) (lib_name : string) : Prop :=
  path_exists P (path_join P (script_dir P) lib_name) = false ∨
  dlopen P (path_join P (script_dir P) lib_name) = None.

Lemma try_names_first P names self out self' path out' :
  try_names P names self out = (self', Some path, out') →
  ∃ pre lib_name suf h,
    names = pre ++ lib_name :: suf ∧ Forall (unloadable P) pre ∧
    path = path_join P (script_dir P) lib_name ∧
    path_exists P path = true ∧ dlopen P path = Some h ∧ self' = set_lib self h.
Proof.
  revert out. induction names as [|n names IH]; intros out; simpl; [done|].
  destruct (path_exists P (path_join P (script_dir P) n)) eqn:Hex.
  - destruct (dlopen P (path_join P (script_dir P) n)) as [h|] eqn:Hopen.
    + intros [= <- <- _]. by exists [], n, names, h.
    + intros H. destruct (IH _ H) as (pre & name & suf & h & -> & Hpre & Hrest).
      exists (n :: pre), name, suf, h. split; [done|]. split; [|done].
      constructor; [by right|done].
  - intros H. destruct (IH _ H) as (pre & name & suf & h & -> & Hpre & Hrest).
    exists (n :: pre), name, suf, h. split; [done|]. split; [|done].
    constructor; [by left|done].
Qed.

Lemma try_names_none P names self out self' out' :
  try_names P names self out = (self', None, out') →
  self' = self ∧ Forall (unloadable P) names.
Proof.
  revert out. induction names as [|n names IH]; intros out; simpl.
  { by intros [= <- _]. }
  destruct (path_exists P (path_join P (script_dir P) n)) eqn:Hex.
  - destruct (dlopen P (path_join P (script_dir P) n)) as [h|] eqn:Hopen; [done|].
    intros H. destruct (IH _ H) as [-> Hall]. split; [done|].
    constructor; [by right|done].
  - intros H. destruct (IH _ H) as [-> Hall]. split; [done|].
    constructor; [by left|done].
Qed.

(** X4: When [load_library] returns [True], the library it keeps is the first
    candidate file that exists and opens: every candidate before it was
    missing or failed to open, it exports the three entry points, and
    [loaded] is set. *)
Theorem load_library_takes_first_loadable P self out self' out' :
  load_library P self out = (true, self', out') →
  ∃ names pre lib_name suf h,
    lib_names P (lib_base_name self) = inr names ∧
    names = pre ++ lib_name :: suf ∧ Forall (unloadable P) pre ∧
    path_exists P (path_join P (script_dir P) lib_name) = true ∧
    dlopen P (path_join P (script_dir P) lib_name) = Some h ∧
    lib self' = Some h ∧ loaded self' = true ∧
    lib_base_name self' = lib_base_name self ∧
    Forall (λ s, s ∈ cdll_symbols h)
      ["ProcessCompressor"; "ProcessDucking"; "FreeProcessingResult"].
Proof.
  intros Hload.
  destruct (load_library_loaded _ _ _ _ _ _ Hload) as [Hl Hsym].
  destruct (Hsym eq_refl) as (h' & Hlib' & Hsyms).
  unfold load_library in Hload.
  destruct (lib_names P (lib_base_name self)) as [e|names] eqn:Hnames; [done|].
  destruct (try_names P names self out) as [[self1 [path|]] out1] eqn:Htry; [|done].
  destruct (try_names_first _ _ _ _ _ _ _ Htry)
    as (pre & name & suf & h & Hsplit & Hpre & -> & Hex & Hopen & ->).
  destruct (_setup_function_signatures (set_lib self h)); [done|].
  injection Hload as <- _. simpl in *. injection Hlib' as <-.
  by exists names, pre, name, suf, h.
Qed.

(** X5: When [load_library] returns [False] the last two things it printed are
    the exception and then its traceback, [loaded] is [False], and the
    exception tells why: the platform
    is not supported ([RuntimeError], no file was probed), no candidate file
    exists and opens ([FileNotFoundError], [lib] as before), or the library
    that was opened lacks an entry point ([AttributeError]; [lib] then keeps
    the opened library although [loaded] is [False]). *)
Theorem load_library_failure P self out self' out' :
  load_library P self out = (false, self', out') →
  loaded self' = false ∧
  ∃ e said, out' = said ++ [CriticalLoadError e; Traceback e] ∧
    ((e = RuntimeError ∧ said = out ∧ lib self' = lib self ∧
      os_name P ≠ "nt" ∧ os_name P ≠ "posix") ∨
     (e = FileNotFoundError ∧ lib self' = lib self ∧
      ∃ names, lib_names P (lib_base_name self) = inr names ∧
               Forall (unloadable P) names) ∨
     (e = AttributeError ∧
      ∃ h, lib self' = Some h ∧
           ¬ Forall (λ s, s ∈ cdll_symbols h)
               ["ProcessCompressor"; "ProcessDucking"; "FreeProcessingResult"])).
Proof.
  intros Hload. split; [by destruct (load_library_loaded _ _ _ _ _ _ Hload)|].
  unfold load_library in Hload.
  destruct (lib_names P (lib_base_name self)) as [e|names] eqn:Hnames.
  { injection Hload as <- <-. exists e, out. split; [done|]. left.
    unfold lib_names in Hnames.
    destruct (String.eqb_spec (os_name P) "nt") as [?|Hnt]; [done|].
    destruct (String.eqb_spec (os_name P) "posix") as [?|Hposix].
    - by destruct (String.eqb (platform_system P) "Darwin").
    - by injection Hnames as <-. }
  destruct (try_names P names self out) as [[self1 [path|]] out1] eqn:Htry.
  2:{ injection Hload as <- <-. destruct (try_names_none _ _ _ _ _ _ Htry) as [-> Hall].
      exists FileNotFoundError, out1. split; [done|]. right. left.
      split_and!; try done. by exists names. }
  destruct (try_names_first _ _ _ _ _ _ _ Htry)
    as (pre & name & suf & h & Hsplit & Hpre & -> & Hex & Hopen & ->).
  unfold _setup_function_signatures in Hload.
  change (lib (set_lib self h)) with (Some h) in Hload. cbv beta iota in Hload.
  destruct (forallb _ _) eqn:Hsym; [done|].
  injection Hload as <- <-. eexists AttributeError, _. split; [done|]. right. right.
  split; [done|]. exists h. split; [done|]. intros Hall.
  assert (forallb (λ s, bool_decide (s ∈ cdll_symbols h))
            ["ProcessCompressor"; "ProcessDucking"; "FreeProcessingResult"] = true)
    as Htrue; [|congruence].
  apply Is_true_eq_true, forallb_True.
  eapply Forall_impl; [exact Hall|]. intros s Hs. by apply bool_decide_pack.
Qed.

(** X6: If the library cannot be loaded when the first node is constructed,
    every node constructed afterwards shares that unloaded manager, and both
    nodes pass their audio through: [apply_compression] returns [audio] and
    [apply_ducking] returns [main_audio], without touching the store or the
    library. *)
Theorem nodes_pass_through_without_library {f32 pyfloat : Type} (zero : f32)
    (c_float : pyfloat → f32) (tsum : list f32 → f32) (tdiv : f32 → nat → f32)
    (ProcessCompressor : CompressorCall → nat → f32)
    (ProcessDucking : list native_call → DuckingCall → option ProcessingResult)
    (P : Platform) :
  (load_library P (init "lib/effects") []).1.1 = false →
  ∃ m w1,
    node_init P imported = (Some m, w1) ∧
    node_init P w1 = (Some m, w1) ∧
    loaded m = false ∧
    ∀ audio sidechain_audio cp dp (st : state),
      (∃ st', call (apply_compression c_float ProcessCompressor m audio cp) st
              = (inr audio, st') ∧
              tensors st' = tensors st ∧ native st' = native st) ∧
      (∃ st', call (apply_ducking zero c_float tsum tdiv ProcessDucking m audio
                      sidechain_audio dp) st = (inr audio, st') ∧
              tensors st' = tensors st ∧ native st' = native st).
Proof.
  intros Hfail. unfold node_init, get_library_manager. simpl.
  destruct (load_library P (init "lib/effects") []) as [[ok self] out] eqn:Hload.
  simpl in Hfail. subst ok.
  destruct (load_library_loaded _ _ _ _ _ _ Hload) as [Hl _].
  exists self. eexists. split_and!; try done.
  intros audio sidechain_audio cp dp st. split.
  - rewrite apply_compression_not_loaded by done. by eexists.
  - rewrite apply_ducking_not_loaded by done. by eexists.
Qed.


(** *** Concrete platforms and runs for the properties above *)

(** Windows, with only the second candidate name present. *)
Definition windows_platform : Platform :=
  {| os_name := "nt"; platform_system := "Windows"; script_dir := "C:/nodes";
     path_join := λ d f, d +:+ "/" +:+ f;
     path_exists := λ p, String.eqb p "C:/nodes/liblib/effects.dll";
     dlopen := λ p, Some {| cdll_path := p;
                            cdll_symbols := ["ProcessCompressor"; "ProcessDucking";
                                             "FreeProcessingResult"] |} |}.

(** Linux, with a library built before [ProcessDucking] existed. *)
Definition stale_platform : Platform :=
  {| os_name := "posix"; platform_system := "Linux"; script_dir := "/nodes";
     path_join := λ d f, d +:+ "/" +:+ f;
     path_exists := λ _, true;
     dlopen := λ p, Some {| cdll_path := p;
                            cdll_symbols := ["ProcessCompressor"] |} |}.

Lemma load_library_takes_first_loadable_witness :
  ∃ names pre lib_name suf h,
    lib_names windows_platform "lib/effects" = inr names ∧
    names = pre ++ lib_name :: suf ∧ Forall (unloadable windows_platform) pre ∧
    path_exists windows_platform
      (path_join windows_platform (script_dir windows_platform) lib_name) = true ∧
    dlopen windows_platform
      (path_join windows_platform (script_dir windows_platform) lib_name) = Some h ∧
    lib (load_library windows_platform (init "lib/effects") []).1.2 = Some h ∧
    loaded (load_library windows_platform (init "lib/effects") []).1.2 = true ∧
    lib_base_name (load_library windows_platform (init "lib/effects") []).1.2
    = "lib/effects" ∧
    Forall (λ s, s ∈ cdll_symbols h)
      ["ProcessCompressor"; "ProcessDucking"; "FreeProcessingResult"].
Proof.
  apply (load_library_takes_first_loadable windows_platform (init "lib/effects") []
           (load_library windows_platform (init "lib/effects") []).1.2
           (load_library windows_platform (init "lib/effects") []).2).
  reflexivity.
Defined.

Lemma load_library_failure_witness :
  loaded (load_library stale_platform (init "lib/effects") []).1.2 = false ∧
  ∃ e said,
    (load_library stale_platform (init "lib/effects") []).2
    = said ++ [CriticalLoadError e; Traceback e] ∧
    ((e = RuntimeError ∧ said = [] ∧
      lib (load_library stale_platform (init "lib/effects") []).1.2
      = lib (init "lib/effects") ∧
      os_name stale_platform ≠ "nt" ∧ os_name stale_platform ≠ "posix") ∨
     (e = FileNotFoundError ∧
      lib (load_library stale_platform (init "lib/effects") []).1.2
      = lib (init "lib/effects") ∧
      ∃ names, lib_names stale_platform (lib_base_name (init "lib/effects")) = inr names ∧
               Forall (unloadable stale_platform) names) ∨
     (e = AttributeError ∧
      ∃ h, lib (load_library stale_platform (init "lib/effects") []).1.2 = Some h ∧
           ¬ Forall (λ s, s ∈ cdll_symbols h)
               ["ProcessCompressor"; "ProcessDucking"; "FreeProcessingResult"])).
Proof.
  apply (load_library_failure stale_platform (init "lib/effects") []
           (load_library stale_platform (init "lib/effects") []).1.2
           (load_library stale_platform (init "lib/effects") []).2).
  reflexivity.
Defined.

Lemma nodes_pass_through_without_library_witness :
  ∃ m w1,
    node_init demo_platform imported = (Some m, w1) ∧
    node_init demo_platform w1 = (Some m, w1) ∧
    loaded m = false ∧
    ∀ audio sidechain_audio cp dp (st : @state Z),
      (∃ st', call (apply_compression id demo_compressor m audio cp) st
              = (inr audio, st') ∧
              tensors st' = tensors st ∧ native st' = native st) ∧
      (∃ st', call (apply_ducking 0%Z id demo_sum demo_div demo_ducking m audio
                      sidechain_audio dp) st = (inr audio, st') ∧
              tensors st' = tensors st ∧ native st' = native st).
Proof.
  apply (nodes_pass_through_without_library 0%Z id demo_sum demo_div
           demo_compressor demo_ducking demo_platform).
  reflexivity.
Defined.

Lemma compression_calls_fit_their_buffers_witness :
  ∃ out st' new,
    call (apply_compression id demo_compressor demo_manager demo_audio demo_cp)
      demo_state = (inr out, st') ∧
    native st' = native demo_state ++ new ∧
    Forall
      (λ a, cc_waveform a ≠ [] ∧
            (∃ b c, channel (data demo_main) b c = Some (cc_waveform a)) ∧
            cc_length a = c_int (Z.of_nat (length (cc_waveform a))) ∧
            cc_sample_rate a = c_int (sample_rate demo_audio) ∧
            ((Z.of_nat (shape2 demo_main) < 2 ^ 31)%Z →
             cc_length a = Z.of_nat (shape2 demo_main)))
      (compressor_calls new).
Proof.
  apply (compression_calls_fit_their_buffers id demo_compressor demo_manager
           demo_audio demo_cp demo_state demo_main).
  - reflexivity.
  - split; [reflexivity | repeat constructor].
Defined.

Lemma ducking_short_sidechain_returns_main_witness :
  ∃ st',
    call (apply_ducking 0%Z id demo_sum demo_div demo_ducking demo_manager
            demo_audio demo_sidechain_audio demo_dp) no_sidechain_state
    = (inr demo_audio, st') ∧
    tensors st' !! waveform demo_audio = Some demo_main.
Proof.
  apply (ducking_short_sidechain_returns_main 0%Z id demo_sum demo_div demo_ducking
           demo_manager demo_audio demo_sidechain_audio demo_dp no_sidechain_state
           demo_main no_sidechain).
  - reflexivity.
  - split; [reflexivity | repeat constructor].
  - reflexivity.
  - split; [reflexivity | repeat constructor].
  - simpl; lia.
  - simpl; lia.
  - right; reflexivity.
Defined.

Lemma ducking_frees_all_but_unreadable_witness :
  ∃ out st' new leaked,
    call (apply_ducking 0%Z id demo_sum demo_div long_ducking demo_manager
            demo_audio demo_sidechain_audio demo_dp) demo_state = (inr out, st') ∧
    native st' = native demo_state ++ new ∧
    omap snd (ducking_calls new) = freed new ++ leaked ∧
    (∀ i p, new !! i = Some (FreeProcessingResult_call p) →
       ∃ j a, i = S j ∧ new !! j = Some (ProcessDucking_call a (Some p))) ∧
    (leaked = [] ∨
     ∃ a ptr e, leaked = [ptr] ∧ out = demo_audio ∧
                last new = Some (ProcessDucking_call a (Some ptr)) ∧
                read_back 0%Z (shape2 demo_main) (contents ptr) = inl e).
Proof.
  apply (ducking_frees_all_but_unreadable 0%Z id demo_sum demo_div long_ducking
           demo_manager demo_audio demo_sidechain_audio demo_dp demo_state
           demo_main demo_sidechain).
  - reflexivity.
  - split; [reflexivity | repeat constructor].
  - reflexivity.
Defined.


(** * The editing nodes of nodes.py

    These nodes work on a clone of the waveform taken from the dictionary
    and return a new dictionary, so they are functions from values to
    values. A dictionary may lack either key. Tensors are three-dimensional
    as everywhere in this development, so the [ndim != 3] checks pass. What
    these nodes print, and the progress bar they update, is left out. *)

(** What a call can raise: a built-in exception already met in the dynamics
    nodes, or one of two more. *)
Inductive raised := Builtin (e : exn) | OverflowError | ZeroDivisionError.

(** ** Python slices *)

(** A bound of the slice [l[lo:hi]] on a sequence of [len] items: a negative
    bound counts from the end, and every bound is clipped to [0, len]. *)
Definition slice_index (len i : Z) : Z :=
  if (i <? 0)%Z then Z.max 0 (i + len) else Z.min i len.

Definition slice_bounds (len : nat) (lo hi : option Z) : Z * Z :=
  (from_option (slice_index (Z.of_nat len)) 0%Z lo,
   from_option (slice_index (Z.of_nat len)) (Z.of_nat len) hi).

Definition slice_length (len : nat) (lo hi : option Z) : nat :=
  Z.to_nat ((slice_bounds len lo hi).2 - (slice_bounds len lo hi).1).

(** [l[lo:hi]]; [None] is an omitted bound. *)
Definition py_slice {A} (lo hi : option Z) (l : list A) : list A :=
  take (slice_length (length l) lo hi)
       (drop (Z.to_nat (slice_bounds (length l) lo hi).1) l).

Section editing.
Context {f32 pyfloat : Type}.
Context (zero : f32).

(** [int(seconds * sample_rate)] on a Python float and an integer: the
    truncated product, or the exception [int] raises on [nan] and [inf]. *)
Context (int_of_product : pyfloat → Z → raised + Z).

(** [x <= 0] on a Python float. *)
Context (le_zero : pyfloat → bool).

(** The AUDIO dictionary as these nodes read it: each key may be missing. *)
Record AudioDict := {
  audio_waveform : option (@Tensor f32);   (* audio['waveform'] *)
  audio_sample_rate : option Z             (* audio['sample_rate'] *)
}.

(** A tensor operation that acts on every channel alike and leaves
    [shape2 = n] samples. *)
Definition on_channels (f : list f32 → list f32) (n : nat) (t : @Tensor f32)
  : @Tensor f32 :=
  {| shape0 := shape0 t; shape1 := shape1 t; shape2 := n;
     data := map (map f) (data t) |}.

(** [t[:, :, lo:hi]] and [t[..., lo:hi]]. *)
Definition slice_samples (lo hi : option Z) (t : @Tensor f32) : @Tensor f32 :=
  on_channels (py_slice lo hi) (slice_length (shape2 t) lo hi) t.

(** [torch.nn.functional.pad(t, (0, n), "constant", 0)] for [n >= 0]. *)
Definition pad (n : nat) (t : @Tensor f32) : @Tensor f32 :=
  on_channels (λ ch, ch ++ replicate n zero) (shape2 t + n) t.

(** [_get_samples_from_seconds], the same method in [SoundFlow_FadeNode],
    [SoundFlow_SetLengthNode] and [SoundFlow_TrimAudioNode]. *)
Definition _get_samples_from_seconds (seconds : pyfloat) (sample_rate : Z)
  : raised + Z :=
  int_of_product seconds sample_rate.

(** [SoundFlow_TrimAudioNode.trim_audio]. *)
Definition trim_audio (audio : AudioDict) (start end_ : pyfloat)
  : raised + AudioDict :=
  match audio_waveform audio with
  | None => inl (Builtin ValueError)
  | Some waveform =>
      let sample_rate := default 44100%Z (audio_sample_rate audio) in
      let total_samples := Z.of_nat (shape2 waveform) in
      match _get_samples_from_seconds start sample_rate with
      | inl e => inl e
      | inr start_samples =>
          match (if le_zero end_ then inr total_samples
                 else _get_samples_from_seconds end_ sample_rate) with
          | inl e => inl e
          | inr end_samples =>
              let start_samples := Z.max 0 (Z.min start_samples total_samples) in
              let end_samples := Z.max start_samples (Z.min end_samples total_samples) in
              let trimmed_waveform :=
                slice_samples (Some start_samples) (Some end_samples) waveform in
              inr {| audio_waveform := Some trimmed_waveform;
                     audio_sample_rate := Some sample_rate |}
          end
      end
  end.

(** [SoundFlow_SetLengthNode.set_audio_length]. *)
Definition set_audio_length (audio : AudioDict) (length_ : pyfloat)
  : raised + AudioDict :=
  match audio_waveform audio with
  | None => inl (Builtin ValueError)
  | Some waveform =>
      let sample_rate := default 44100%Z (audio_sample_rate audio) in
      match _get_samples_from_seconds length_ sample_rate with
      | inl e => inl e
      | inr target_samples =>
          let current_samples := Z.of_nat (shape2 waveform) in
          let trimmed_waveform :=
            if (target_samples <? current_samples)%Z then
              slice_samples None (Some target_samples) waveform
            else if (current_samples <? target_samples)%Z then
              pad (Z.to_nat (target_samples - current_samples)) waveform
            else waveform in
          inr {| audio_waveform := Some trimmed_waveform;
                 audio_sample_rate := Some sample_rate |}
      end
  end.

(** [SoundFlow_MixerNode._match_audio_length]. *)
Definition _match_audio_length (waveform1 waveform2 : @Tensor f32)
  : @Tensor f32 * @Tensor f32 :=
  let length1 := shape2 waveform1 in
  let length2 := shape2 waveform2 in
  if (length2 <? length1)%nat then (waveform1, pad (length1 - length2) waveform2)
  else if (length1 <? length2)%nat then (pad (length2 - length1) waveform1, waveform2)
  else (waveform1, waveform2).

(** ** Tensor operations of the editing nodes *)

(** [torch.linspace(a, b, steps)]: [steps] points; [linspace_at a b steps i]
    is the point of index [i]. *)
Context (linspace_at : Z → Z → nat → nat → f32).
Context (fmul fadd : f32 → f32 → f32).

Definition linspace (a b : Z) (steps : nat) : list f32 :=
  linspace_at a b steps <$> seq 0 steps.

(** [curve.view(1, 1, -1)] *)
Definition view_1_1 (curve : list f32) : @Tensor f32 :=
  {| shape0 := 1; shape1 := 1; shape2 := length curve; data := [[curve]] |}.

(** [torch.empty((b, c, 0))] and [torch.zeros((b, c, n))] *)
Definition zeros (b c n : nat) : @Tensor f32 :=
  {| shape0 := b; shape1 := c; shape2 := n;
     data := replicate b (replicate c (replicate n zero)) |}.

(** Broadcasting of one dimension: sizes must agree unless one of them is 1. *)
Definition broadcast_dim (m n : nat) : option nat :=
  if (m =? n)%nat then Some m
  else if (m =? 1)%nat then Some n
  else if (n =? 1)%nat then Some m
  else None.

Definition expand {A} (n : nat) (l : list A) : list A :=
  match l with [x] => replicate n x | _ => l end.

(** An element-wise binary operator ([*], [+]) with broadcasting. *)
Definition elementwise (op : f32 → f32 → f32) (t u : @Tensor f32)
  : raised + @Tensor f32 :=
  match broadcast_dim (shape0 t) (shape0 u), broadcast_dim (shape1 t) (shape1 u),
        broadcast_dim (shape2 t) (shape2 u) with
  | Some b, Some c, Some n =>
      inr {| shape0 := b; shape1 := c; shape2 := n;
             data := zip_with
                       (λ m1 m2, zip_with
                          (λ c1 c2, zip_with op (expand n c1) (expand n c2))
                          (expand c m1) (expand c m2))
                       (expand b (data t)) (expand b (data u)) |}
  | _, _, _ => inl (Builtin RuntimeError)
  end.

(** [torch.cat([t, u], dim=-1)]: the other dimensions must agree. *)
Definition cat2 (t u : @Tensor f32) : raised + @Tensor f32 :=
  if (shape0 t =? shape0 u)%nat && (shape1 t =? shape1 u)%nat
  then inr {| shape0 := shape0 t; shape1 := shape1 t; shape2 := shape2 t + shape2 u;
              data := zip_with (zip_with app) (data t) (data u) |}
  else inl (Builtin RuntimeError).

(** [torch.cat(tensors, dim=-1)]; an empty list is refused with
    [ValueError] (older releases of torch raised [RuntimeError] there),
    tensors that disagree on another dimension with [RuntimeError]. *)
Fixpoint cat (tensors : list (@Tensor f32)) : raised + @Tensor f32 :=
  match tensors with
  | [] => inl (Builtin ValueError)
  | t :: rest =>
      match rest with
      | [] => inr t
      | _ => match cat rest with inl e => inl e | inr u => cat2 t u end
      end
  end.

(** ** Crossfades *)

(** The part of [_apply_crossfade] that both nodes share, from the fade
    curves on; [torch.linspace] refuses a negative number of steps. *)
Definition crossfade_with (segment1 segment2 : @Tensor f32) (fade_samples : Z)
  : raised + @Tensor f32 :=
  if (fade_samples <? 0)%Z then inl (Builtin RuntimeError) else
  let fade_in := view_1_1 (linspace 0 1 (Z.to_nat fade_samples)) in
  let fade_out := view_1_1 (linspace 1 0 (Z.to_nat fade_samples)) in
  let end_segment := slice_samples (Some (- fade_samples)%Z) None segment1 in
  let start_segment := slice_samples None (Some fade_samples) segment2 in
  match elementwise fmul end_segment fade_out with
  | inl e => inl e
  | inr faded_out =>
      match elementwise fmul start_segment fade_in with
      | inl e => inl e
      | inr faded_in =>
          match elementwise fadd faded_out faded_in with
          | inl e => inl e
          | inr crossfaded =>
              cat [slice_samples None (Some (- fade_samples)%Z) segment1;
                   crossfaded;
                   slice_samples (Some fade_samples) None segment2]
          end
      end
  end.

(** [SoundFlow_SilenceTrimmerNode._apply_crossfade] *)
Definition SilenceTrimmer_apply_crossfade (segment1 segment2 : @Tensor f32)
    (fade_samples : Z) : raised + @Tensor f32 :=
  if (fade_samples =? 0)%Z then cat [segment1; segment2] else
  let fade_samples :=
    Z.min (Z.of_nat (shape2 segment1))
          (Z.min (Z.of_nat (shape2 segment2)) fade_samples) in
  if (fade_samples =? 0)%Z then cat [segment1; segment2] else
  crossfade_with segment1 segment2 fade_samples.

(** [SoundFlow_ConcatenatorNode._apply_crossfade] *)
Definition Concatenator_apply_crossfade (segment1 segment2 : @Tensor f32)
    (fade_samples : Z) : raised + @Tensor f32 :=
  if (fade_samples =? 0)%Z then cat [segment1; segment2] else
  if (Z.of_nat (shape2 segment1) <? fade_samples)%Z
     || (Z.of_nat (shape2 segment2) <? fade_samples)%Z then
    let fade_samples :=
      Z.min (Z.of_nat (shape2 segment1)) (Z.of_nat (shape2 segment2)) in
    if (fade_samples =? 0)%Z then cat [segment1; segment2]
    else crossfade_with segment1 segment2 fade_samples
  else crossfade_with segment1 segment2 fade_samples.

(** ** Silence trimming *)

(** [_merge_close_regions]: the loop over [regions[1:]]; its state is
    [merged] and the current region. *)
Fixpoint merge_from (regions : list (Z * Z)) (min_gap_samples : Z)
    (merged : list (Z * Z)) (current_start current_end : Z) : list (Z * Z) :=
  match regions with
  | [] => merged ++ [(current_start, current_end)]
  | (start, end_) :: rest =>
      if (start - current_end <=? min_gap_samples)%Z
      then merge_from rest min_gap_samples merged current_start (Z.max current_end end_)
      else merge_from rest min_gap_samples (merged ++ [(current_start, current_end)])
             start end_
  end.

Definition _merge_close_regions (regions : list (Z * Z)) (min_gap_samples : Z)
  : list (Z * Z) :=
  match regions with
  | [] => regions
  | (current_start, current_end) :: rest =>
      merge_from rest min_gap_samples [] current_start current_end
  end.

(** The loop of [_find_non_silent_regions] over the windows, [i] being the
    index of the window at the head of [is_sound]. *)
Fixpoint scan_windows (is_sound : list bool) (i hop_length min_silence_samples : Z)
    (regions : list (Z * Z)) (in_sound : bool) (current_start : Z)
  : list (Z * Z) * bool * Z :=
  match is_sound with
  | [] => (regions, in_sound, current_start)
  | is_active :: rest =>
      let sample_pos := (i * hop_length)%Z in
      if is_active && negb in_sound then
        scan_windows rest (i + 1) hop_length min_silence_samples regions true sample_pos
      else if negb is_active && in_sound then
        let end_sample_pos := sample_pos in
        let regions :=
          if (min_silence_samples <=? end_sample_pos - current_start)%Z
          then regions ++ [(current_start, end_sample_pos)] else regions in
        scan_windows rest (i + 1) hop_length min_silence_samples regions false
          current_start
      else
        scan_windows rest (i + 1) hop_length min_silence_samples regions in_sound
          current_start
  end.

(** [_find_non_silent_regions] from [is_sound] on: the windows are turned
    into sample positions, the sound still running at the end is closed at
    [total_samples = waveform.shape[-1]], and close regions are merged. *)
Definition regions_of_windows (is_sound : list bool)
    (hop_length min_silence_samples total_samples : Z) : list (Z * Z) :=
  let '(regions, in_sound, current_start) :=
    scan_windows is_sound 0 hop_length min_silence_samples [] false 0 in
  let regions :=
    if in_sound then regions ++ [(current_start, total_samples)] else regions in
  _merge_close_regions regions min_silence_samples.

(** [torch.mean(m, dim=0)] of a [channels, samples] matrix, [torch.sqrt(
    torch.mean(window ** 2))], and [20 * log10(clamp(e, 1e-10)) > threshold]. *)
Context (tmean : list f32 → f32) (rms : list f32 → f32).
Context (louder : f32 → pyfloat → bool).

(** The window and hop durations, [0.02] and [0.01]. *)
Context (window_duration hop_duration : pyfloat).

Definition mean_dim0 (n : nat) (m : list (list f32)) : list f32 :=
  (λ i, tmean ((λ ch : list f32, default zero (ch !! i)) <$> m)) <$> seq 0 n.

(** [_get_energy_profile]. The mono signal is two-dimensional, [batch,
    samples], except for a waveform without channels, which [squeeze(1)]
    leaves as it is: its [shape[1]] is then 0 and every window is empty.
    Only the first batch element is looked at. *)
Definition _get_energy_profile (waveform : @Tensor f32) (window_size hop_length : Z)
  : raised + list f32 :=
  let mono_samples :=
    if (shape1 waveform =? 0)%nat then 0%Z else Z.of_nat (shape2 waveform) in
  if (hop_length =? 0)%Z then inl ZeroDivisionError else
  let num_windows := ((mono_samples - window_size) / hop_length + 1)%Z in
  if (num_windows <? 0)%Z then inl (Builtin RuntimeError) else
  if (num_windows =? 0)%Z then inr [] else
  match data waveform !! 0 with
  | None => inl (Builtin IndexError)
  | Some m =>
      let mono_waveform_0 :=
        if (1 <? shape1 waveform)%nat then mean_dim0 (shape2 waveform) m
        else default [] (m !! 0) in
      inr ((λ i, let start := (Z.of_nat i * hop_length)%Z in
                 let end_ := (start + window_size)%Z in
                 rms (py_slice (Some start) (Some end_) mono_waveform_0))
           <$> seq 0 (Z.to_nat num_windows))
  end.

(** [_find_non_silent_regions] *)
Definition _find_non_silent_regions (waveform : @Tensor f32) (threshold_db : pyfloat)
    (min_silence_samples sample_rate : Z) : raised + list (Z * Z) :=
  match int_of_product window_duration sample_rate with
  | inl e => inl e
  | inr window_size =>
      match int_of_product hop_duration sample_rate with
      | inl e => inl e
      | inr hop_length =>
          match _get_energy_profile waveform window_size hop_length with
          | inl e => inl e
          | inr energy =>
              let is_sound := (λ e, louder e threshold_db) <$> energy in
              inr (regions_of_windows is_sound hop_length min_silence_samples
                     (Z.of_nat (shape2 waveform)))
          end
      end
  end.

(** The loop of [trim_silence] appends twice in the same way: with a
    crossfade when [fade_samples > 0] and neither side is empty, by plain
    concatenation otherwise. *)
Definition append_segment (fade_samples : Z) (result segment : @Tensor f32)
  : raised + @Tensor f32 :=
  if (0 <? fade_samples)%Z && (0 <? shape2 result)%nat && (0 <? shape2 segment)%nat
  then SilenceTrimmer_apply_crossfade result segment fade_samples
  else cat [result; segment].

(** One turn of the loop of [trim_silence] over the regions. The state is
    [result], [total_silence_removed] and [last_region_end]. *)
Definition trim_step (waveform : @Tensor f32) (keep_silence_samples fade_samples : Z)
    (st : option (@Tensor f32) * Z * Z) (region : Z * Z)
  : raised + (option (@Tensor f32) * Z * Z) :=
  let '(result, total_silence_removed, last_region_end) := st in
  let '(start, end_) := region in
  let segment := slice_samples (Some start) (Some end_) waveform in
  match result with
  | None =>
      let start_padding := Z.max 0 (start - keep_silence_samples) in
      inr (Some (slice_samples (Some start_padding) (Some end_) waveform),
           total_silence_removed, end_)
  | Some result =>
      let gap_start := last_region_end in
      let gap_end := start in
      let gap_duration := (gap_end - gap_start)%Z in
      let silence_to_keep_samples := Z.min gap_duration keep_silence_samples in
      let kept_silence_start := (gap_end - silence_to_keep_samples)%Z in
      let kept_silence_segment :=
        if (0 <? silence_to_keep_samples)%Z
        then slice_samples (Some kept_silence_start) (Some gap_end) waveform
        else zeros (shape0 waveform) (shape1 waveform) 0 in
      match append_segment fade_samples result kept_silence_segment with
      | inl e => inl e
      | inr result =>
          match append_segment fade_samples result segment with
          | inl e => inl e
          | inr result =>
              let silence_removed_in_gap :=
                (gap_duration - silence_to_keep_samples)%Z in
              inr (Some result,
                   (total_silence_removed + Z.max 0 silence_removed_in_gap)%Z, end_)
          end
      end
  end.

Fixpoint trim_loop (waveform : @Tensor f32) (keep_silence_samples fade_samples : Z)
    (regions : list (Z * Z)) (st : option (@Tensor f32) * Z * Z)
  : raised + (option (@Tensor f32) * Z * Z) :=
  match regions with
  | [] => inr st
  | region :: rest =>
      match trim_step waveform keep_silence_samples fade_samples st region with
      | inl e => inl e
      | inr st => trim_loop waveform keep_silence_samples fade_samples rest st
      end
  end.

(** [SoundFlow_SilenceTrimmerNode.trim_silence]. Both keys are read with
    [audio[...]]. The closing report divides by the sample rate and by the
    number of samples. *)
Definition trim_silence (audio : AudioDict)
    (threshold_db min_silence_duration keep_silence fade_duration : pyfloat)
  : raised + AudioDict :=
  match audio_waveform audio with
  | None => inl (Builtin KeyError)
  | Some waveform =>
  match audio_sample_rate audio with
  | None => inl (Builtin KeyError)
  | Some sample_rate =>
  match int_of_product min_silence_duration sample_rate with
  | inl e => inl e
  | inr min_silence_samples =>
  match int_of_product keep_silence sample_rate with
  | inl e => inl e
  | inr keep_silence_samples =>
  match int_of_product fade_duration sample_rate with
  | inl e => inl e
  | inr fade_samples =>
  match _find_non_silent_regions waveform threshold_db min_silence_samples
          sample_rate with
  | inl e => inl e
  | inr regions =>
      if bool_decide (regions = []) then inr audio else
      match trim_loop waveform keep_silence_samples fade_samples regions
              (None, 0%Z, 0%Z) with
      | inl e => inl e
      | inr (None, _, _) => inr audio
      | inr (Some result, total_silence_removed, _) =>
          if (sample_rate =? 0)%Z || (shape2 waveform =? 0)%nat
          then inl ZeroDivisionError
          else inr {| audio_waveform := Some result;
                      audio_sample_rate := Some sample_rate |}
      end
  end end end end end end.

(** ** Gain and pitch *)

(** [10 ** (gain / 20.0)], which overflows for a huge gain; [clamp(x *
    gain_factor, -1.0, 1.0)] on one sample; [pitch != 0.0]; and the
    [T.Resample] object built for a pitch and a sample rate, as the
    function it applies to a chunk. *)
Context (gain_factor_of : pyfloat → raised + pyfloat).
Context (amplify : pyfloat → f32 → f32).
Context (nonzero : pyfloat → bool).
Context (resampler_for : pyfloat → Z → raised + (@Tensor f32 → @Tensor f32)).

(** The body of the loop of [SoundFlow_GainPitchControlNode.process_audio]
    for chunk [i]. *)
Definition process_chunk (waveform : @Tensor f32) (chunk_size : Z)
    (gain_factor : pyfloat) (resampler : option (@Tensor f32 → @Tensor f32))
    (i : Z) : @Tensor f32 :=
  let total_samples := Z.of_nat (shape2 waveform) in
  let start := (i * chunk_size)%Z in
  let end_ := Z.min (start + chunk_size) total_samples in
  let chunk := slice_samples (Some start) (Some end_) waveform in
  let chunk := on_channels (map (amplify gain_factor)) (shape2 chunk) chunk in
  match resampler with
  | Some resample => if (1 <? shape2 chunk)%nat then resample chunk else chunk
  | None => chunk
  end.

(** [SoundFlow_GainPitchControlNode.process_audio] *)
Definition GainPitch_process_audio (audio : AudioDict) (gain pitch : pyfloat)
    (chunk_size : Z) : raised + AudioDict :=
  match audio_waveform audio with
  | None => inl (Builtin KeyError)
  | Some waveform =>
  match audio_sample_rate audio with
  | None => inl (Builtin KeyError)
  | Some sample_rate =>
      let total_samples := Z.of_nat (shape2 waveform) in
      if (chunk_size =? 0)%Z then inl ZeroDivisionError else
      let num_chunks := ((total_samples + chunk_size - 1) / chunk_size)%Z in
      match gain_factor_of gain with
      | inl e => inl e
      | inr gain_factor =>
          match (if nonzero pitch
                 then match resampler_for pitch sample_rate with
                      | inl e => inl e
                      | inr resample => inr (Some resample)
                      end
                 else inr None) with
          | inl e => inl e
          | inr resampler =>
              let processed_chunks :=
                (λ i, process_chunk waveform chunk_size gain_factor resampler
                        (Z.of_nat i))
                <$> seq 0 (Z.to_nat num_chunks) in
              match cat processed_chunks with
              | inl e => inl e
              | inr modified_waveform =>
                  inr {| audio_waveform := Some modified_waveform;
                         audio_sample_rate := Some sample_rate |}
              end
          end
      end
  end end.

(** ** The preview's downsampled waveform *)

(** [float(np.mean(np.abs(block)))] *)
Context (mean_abs : list f32 → pyfloat).

(** The minimum height [0.1] that pads the list of peaks. *)
Context (minimum_height : pyfloat).

(** The [for] loop of [process_waveform] from index [i] on, with [fuel]
    turns left; [break] ends it. *)
Fixpoint peaks_from (audio_data : list f32) (block_size total_samples : Z)
    (fuel : nat) (i : Z) (peaks : list pyfloat) : list pyfloat :=
  match fuel with
  | 0 => peaks
  | S fuel =>
      let block_start := Z.min (i * block_size) (total_samples - 1) in
      let block_end := Z.min (block_start + block_size) total_samples in
      if (block_end <=? block_start)%Z then peaks
      else
        let block := py_slice (Some block_start) (Some block_end) audio_data in
        peaks_from audio_data block_size total_samples fuel (i + 1)
          (peaks ++ [mean_abs block])
  end.

(** [SoundFlow_PreviewAudioNode.process_waveform] from [total_samples =
    len(audio_data)] on, for the flattened mono signal [audio_data] and
    [self.num_samples] points. The [while] loop pads up to [num_samples]. *)
Definition downsample (num_samples : nat) (audio_data : list f32)
  : raised + list pyfloat :=
  let total_samples := Z.of_nat (length audio_data) in
  if (num_samples =? 0)%nat then inl ZeroDivisionError else
  let block_size := Z.max 1 (total_samples / Z.of_nat num_samples) in
  let peaks := peaks_from audio_data block_size total_samples num_samples 0 [] in
  inr (peaks ++ replicate (num_samples - length peaks) minimum_height).

(** ** The equalizer *)

(** [tfaudio.resample(waveform, orig, new)]; [tfaudio.gain(output, -12.0)]
    on one sample; [torch.hann_window(n)[i]]; [tfaudio.equalizer_biquad(
    chunk, sample_rate, freq, gain, q)] with [q = 1.0]; [gains[j] * 12];
    [torch.sqrt(torch.mean(t ** 2))]; [output_rms > 1e-7]; and [x *
    (input_rms / output_rms)] on one sample. *)
Context (tfaudio_resample : @Tensor f32 → Z → Z → raised + @Tensor f32).
Context (attenuate : f32 → f32).
Context (hann_at : nat → nat → f32).
Context (equalizer_biquad : @Tensor f32 → Z → Z → pyfloat → raised + @Tensor f32).
Context (times_12 : pyfloat → pyfloat).
Context (rms_of : @Tensor f32 → f32).
Context (above_floor : f32 → bool).
Context (rescale : f32 → f32 → f32 → f32).

(** [self.bands]: the centre frequencies; every [q] is [1.0]. *)
Definition bands : list Z := [60; 170; 350; 1000; 3500; 10000; 20000]%Z.

Definition hann_window (n : nat) : list f32 := hann_at n <$> seq 0 n.

(** The [for j, band in enumerate(self.bands)] loop on one chunk. *)
Fixpoint apply_bands (chunk : @Tensor f32) (sample_rate : Z)
    (bands_gains : list (Z * pyfloat)) : raised + @Tensor f32 :=
  match bands_gains with
  | [] => inr chunk
  | (freq, g) :: rest =>
      let gain := times_12 g in
      if nonzero gain then
        match equalizer_biquad chunk sample_rate freq gain with
        | inl e => inl e
        | inr chunk => apply_bands chunk sample_rate rest
        end
      else apply_bands chunk sample_rate rest
  end.

(** [chunk[..., :overlap] *= fade_in] and [chunk[..., -overlap:] *=
    fade_out], in place on the chunk. *)
Definition fade_start (overlap : Z) (fade_in : list f32) (chunk : @Tensor f32)
  : @Tensor f32 :=
  on_channels (λ ch, zip_with fmul (py_slice None (Some overlap) ch) fade_in
                     ++ py_slice (Some overlap) None ch)
    (shape2 chunk) chunk.

Definition fade_end (overlap : Z) (fade_out : list f32) (chunk : @Tensor f32)
  : @Tensor f32 :=
  on_channels (λ ch, py_slice None (Some (- overlap)%Z) ch
                     ++ zip_with fmul (py_slice (Some (- overlap)%Z) None ch) fade_out)
    (shape2 chunk) chunk.

(** [output_buffer[..., start:end] += chunk], in place on the buffer: the
    chunk must broadcast to the shape of the slice. *)
Definition add_into (output_buffer chunk : @Tensor f32) (start end_ : Z)
  : raised + @Tensor f32 :=
  let view := slice_samples (Some start) (Some end_) output_buffer in
  let a := Z.to_nat (slice_bounds (shape2 output_buffer) (Some start) (Some end_)).1 in
  match elementwise fadd view chunk with
  | inl e => inl e
  | inr sum =>
      if (shape0 sum =? shape0 view)%nat && (shape1 sum =? shape1 view)%nat
         && (shape2 sum =? shape2 view)%nat
      then inr {| shape0 := shape0 output_buffer; shape1 := shape1 output_buffer;
                  shape2 := shape2 output_buffer;
                  data := zip_with
                            (zip_with (λ ch s, take a ch ++ s
                                               ++ drop (a + shape2 view) ch))
                            (data output_buffer) (data sum) |}
      else inl (Builtin RuntimeError)
  end.

(** One turn of the chunk loop of [SoundFlow_EqualizerNode.process_audio];
    the state is the output buffer and [chunk_size], which the loop body
    reassigns. *)
Definition equalize_chunk (output : @Tensor f32) (sample_rate : Z)
    (bands_gains : list (Z * pyfloat)) (overlap total_samples num_chunks : Z)
    (fade_in fade_out : list f32) (st : @Tensor f32 * Z) (i : Z)
  : raised + (@Tensor f32 * Z) :=
  let '(output_buffer, chunk_size) := st in
  let start := (i * (chunk_size - overlap))%Z in
  let end_ := Z.min (start + chunk_size) total_samples in
  let chunk := slice_samples (Some start) (Some end_) output in
  match apply_bands chunk sample_rate bands_gains with
  | inl e => inl e
  | inr chunk =>
      let '(chunk, chunk_size) :=
        if (0 <? i)%Z then
          let chunk_size := Z.of_nat (shape2 chunk) in
          (if (overlap <? chunk_size)%Z then fade_start overlap fade_in chunk
           else chunk, chunk_size)
        else (chunk, chunk_size) in
      let '(chunk, chunk_size) :=
        if (i <? num_chunks - 1)%Z then
          let chunk_size := Z.of_nat (shape2 chunk) in
          (if (overlap <? chunk_size)%Z then fade_end overlap fade_out chunk
           else chunk, chunk_size)
        else (chunk, chunk_size) in
      match add_into output_buffer chunk start end_ with
      | inl e => inl e
      | inr output_buffer => inr (output_buffer, chunk_size)
      end
  end.

Fixpoint equalize_chunks (output : @Tensor f32) (sample_rate : Z)
    (bands_gains : list (Z * pyfloat)) (overlap total_samples num_chunks : Z)
    (fade_in fade_out : list f32) (indices : list nat) (st : @Tensor f32 * Z)
  : raised + (@Tensor f32 * Z) :=
  match indices with
  | [] => inr st
  | i :: rest =>
      match equalize_chunk output sample_rate bands_gains overlap total_samples
              num_chunks fade_in fade_out st (Z.of_nat i) with
      | inl e => inl e
      | inr st => equalize_chunks output sample_rate bands_gains overlap
                    total_samples num_chunks fade_in fade_out rest st
      end
  end.

(** [SoundFlow_EqualizerNode.process_audio]; [kwargs] is the dictionary of
    the band widgets. *)
Definition Equalizer_process_audio (audio : AudioDict)
    (kwargs : string → option pyfloat) : raised + AudioDict :=
  match audio_waveform audio with
  | None => inl (Builtin KeyError)
  | Some waveform =>
  match audio_sample_rate audio with
  | None => inl (Builtin KeyError)
  | Some sample_rate =>
  let target_sample_rate := 44100%Z in
  match (if (sample_rate =? target_sample_rate)%Z then inr waveform
         else tfaudio_resample waveform sample_rate target_sample_rate) with
  | inl e => inl e
  | inr waveform =>
  let sample_rate := target_sample_rate in
  match mapM kwargs ["band1"; "band2"; "band3"; "band4"; "band5"; "band6"; "band7"] with
  | None => inl (Builtin KeyError)
  | Some gains =>
      let output := on_channels (map attenuate) (shape2 waveform) waveform in
      let chunk_size := (44100 * 30)%Z in
      let overlap := 1024%Z in
      let total_samples := Z.of_nat (shape2 waveform) in
      let num_chunks := ((total_samples - overlap) / (chunk_size - overlap))%Z in
      let num_chunks :=
        if (num_chunks * (chunk_size - overlap) + overlap <? total_samples)%Z
        then (num_chunks + 1)%Z else num_chunks in
      let output_buffer := zeros (shape0 output) (shape1 output) (shape2 output) in
      let window := hann_window (Z.to_nat (overlap * 2)) in
      let fade_in := py_slice None (Some overlap) window in
      let fade_out := py_slice (Some overlap) None window in
      match equalize_chunks output sample_rate (zip bands gains) overlap
              total_samples num_chunks fade_in fade_out
              (seq 0 (Z.to_nat num_chunks)) (output_buffer, chunk_size) with
      | inl e => inl e
      | inr (output_buffer, _) =>
          let input_rms := rms_of waveform in
          let output_rms := rms_of output_buffer in
          let output_buffer :=
            if above_floor output_rms
            then on_channels (map (rescale input_rms output_rms))
                   (shape2 output_buffer) output_buffer
            else output_buffer in
          inr {| audio_waveform := Some output_buffer;
                 audio_sample_rate := Some sample_rate |}
      end
  end end end end.

(** ** Properties of the editing nodes *)

(** *** Slices *)

Lemma slice_index_range len i : (0 ≤ len → 0 ≤ slice_index len i ≤ len)%Z.
Proof. unfold slice_index. destruct (Z.ltb_spec i 0); lia. Qed.

Lemma slice_index_id len i : (0 ≤ i ≤ len → slice_index len i = i)%Z.
Proof. unfold slice_index. destruct (Z.ltb_spec i 0); lia. Qed.

Lemma py_slice_in_range {A} (l : list A) (a b : nat) :
  (a ≤ b)%nat → (b ≤ length l)%nat →
  py_slice (Some (Z.of_nat a)) (Some (Z.of_nat b)) l = take (b - a) (drop a l).
Proof.
  intros Hab Hb. unfold py_slice, slice_length, slice_bounds. simpl.
  rewrite !slice_index_id by lia. f_equal; [lia|f_equal; lia].
Qed.

Lemma length_py_slice {A} lo hi (l : list A) :
  length (py_slice lo hi l) = slice_length (length l) lo hi.
Proof.
  unfold py_slice. rewrite length_take, length_drop.
  unfold slice_length, slice_bounds. simpl.
  assert (0 ≤ Z.of_nat (length l))%Z as Hl by lia.
  pose proof (slice_index_range (Z.of_nat (length l))) as Hr.
  destruct lo as [a|], hi as [b|]; simpl;
    try pose proof (Hr a Hl); try pose proof (Hr b Hl); lia.
Qed.

Lemma well_shaped_on_channels f n t :
  well_shaped t → (∀ ch, length ch = shape2 t → length (f ch) = n) →
  well_shaped (on_channels f n t).
Proof.
  intros [Hlen Hall] Hf. split; simpl; [by rewrite length_map|].
  apply Forall_map. eapply Forall_impl; [exact Hall|].
  intros m [Hm Hchs]. simpl. split; [by rewrite length_map|].
  apply Forall_map. eapply Forall_impl; [exact Hchs|]. intros ch Hch. by apply Hf.
Qed.

Lemma channel_on_channels f n t b c :
  channel (data (on_channels f n t)) b c = f <$> channel (data t) b c.
Proof.
  unfold channel. simpl. rewrite list_lookup_fmap.
  destruct (data t !! b) as [m|]; simpl; [|done]. by rewrite list_lookup_fmap.
Qed.

Lemma on_channels_id f t :
  well_shaped t → (∀ ch, length ch = shape2 t → f ch = ch) →
  on_channels f (shape2 t) t = t.
Proof.
  intros [Hlen Hall] Hf. destruct t as [s0 s1 s2 d]. unfold on_channels. simpl in *.
  f_equal. clear Hlen. induction Hall as [|m d [_ Hm] _ IH]; [done|].
  simpl. f_equal; [|done]. clear IH. induction Hm as [|ch m Hch _ IH]; [done|].
  simpl. f_equal; [by apply Hf|done].
Qed.

Lemma well_shaped_slice_samples lo hi t :
  well_shaped t → well_shaped (slice_samples lo hi t).
Proof.
  intros Ht. apply well_shaped_on_channels; [done|].
  intros ch Hch. by rewrite length_py_slice, Hch.
Qed.

Lemma well_shaped_pad n t : well_shaped t → well_shaped (pad n t).
Proof.
  intros Ht. apply well_shaped_on_channels; [done|].
  intros ch Hch. by rewrite length_app, length_replicate, Hch.
Qed.
(** *** Trimming and setting the length *)

Lemma channel_length (t : @Tensor f32) b c ch :
  well_shaped t → channel (data t) b c = Some ch → length ch = shape2 t.
Proof.
  intros [_ Hall] Hch. unfold channel in Hch.
  destruct (data t !! b) as [m|] eqn:Hm; [|done]. simpl in Hch.
  rewrite Forall_lookup in Hall. destruct (Hall _ _ Hm) as [_ Hchs].
  rewrite Forall_lookup in Hchs. by apply (Hchs c).
Qed.

(** X7: [trim_audio] returns a contiguous part of every channel: samples [s] up
    to [e] with [0 <= s <= e <= total], whatever times are asked for, so it
    never reads out of range; when the requested sample positions are in
    range and ordered they are the ones used. *)
Theorem trim_audio_is_a_segment audio start end_ t s0 e0 :
  let sample_rate := default 44100%Z (audio_sample_rate audio) in
  audio_waveform audio = Some t → well_shaped t →
  _get_samples_from_seconds start sample_rate = inr s0 →
  (if le_zero end_ then inr (Z.of_nat (shape2 t))
   else _get_samples_from_seconds end_ sample_rate) = inr e0 →
  ∃ (s e : nat) u,
    trim_audio audio start end_
    = inr {| audio_waveform := Some u; audio_sample_rate := Some sample_rate |} ∧
    (s ≤ e)%nat ∧ (e ≤ shape2 t)%nat ∧
    well_shaped u ∧ shape0 u = shape0 t ∧ shape1 u = shape1 t ∧ shape2 u = e - s ∧
    (∀ b c ch, channel (data t) b c = Some ch →
               channel (data u) b c = Some (take (e - s) (drop s ch))) ∧
    ((0 ≤ s0 ≤ e0)%Z → (e0 ≤ Z.of_nat (shape2 t))%Z →
     Z.of_nat s = s0 ∧ Z.of_nat e = e0).
Proof.
  intros sample_rate Hw Ht Hs He. unfold trim_audio. rewrite Hw. fold sample_rate.
  rewrite Hs, He. set (total := Z.of_nat (shape2 t)).
  set (s := Z.max 0 (Z.min s0 total)). set (e := Z.max s (Z.min e0 total)).
  exists (Z.to_nat s), (Z.to_nat e), (slice_samples (Some s) (Some e) t).
  assert (0 ≤ s ≤ e ∧ e ≤ total)%Z as Hrange by (subst s e total; lia).
  assert (slice_length (shape2 t) (Some s) (Some e) = Z.to_nat e - Z.to_nat s) as Hlen.
  { unfold slice_length, slice_bounds. simpl. fold total.
    rewrite !slice_index_id by lia. lia. }
  split_and!; try done; try lia.
  - by apply well_shaped_slice_samples.
  - intros b c ch Hch. unfold slice_samples. rewrite channel_on_channels, Hch. simpl.
    f_equal. pose proof (channel_length _ _ _ _ Ht Hch) as Hl.
    replace (Some s) with (Some (Z.of_nat (Z.to_nat s))) by (f_equal; lia).
    replace (Some e) with (Some (Z.of_nat (Z.to_nat e))) by (f_equal; lia).
    apply py_slice_in_range; lia.
Qed.

(** X8: With the widgets' defaults, a start at or before 0 and an end at or
    below 0, [trim_audio] returns the waveform as it is. *)
Theorem trim_audio_defaults_keep_audio audio start end_ t s0 :
  let sample_rate := default 44100%Z (audio_sample_rate audio) in
  audio_waveform audio = Some t → well_shaped t →
  _get_samples_from_seconds start sample_rate = inr s0 → (s0 ≤ 0)%Z →
  le_zero end_ = true →
  trim_audio audio start end_
  = inr {| audio_waveform := Some t; audio_sample_rate := Some sample_rate |}.
Proof.
  intros sample_rate Hw Ht Hs Hs0 Hend. unfold trim_audio. rewrite Hw. fold sample_rate.
  rewrite Hs, Hend. do 3 f_equal.
  replace (Z.max 0 (Z.min s0 (Z.of_nat (shape2 t)))) with (Z.of_nat 0) by lia.
  replace (Z.max (Z.of_nat 0) (Z.min (Z.of_nat (shape2 t)) (Z.of_nat (shape2 t))))
    with (Z.of_nat (shape2 t)) by lia.
  unfold slice_samples.
  replace (slice_length (shape2 t) (Some (Z.of_nat 0)) (Some (Z.of_nat (shape2 t))))
    with (shape2 t).
  2:{ unfold slice_length, slice_bounds. simpl. rewrite !slice_index_id by lia. lia. }
  apply on_channels_id; [done|]. intros ch Hch.
  rewrite py_slice_in_range by lia. rewrite drop_0, Nat.sub_0_r.
  apply take_ge. lia.
Qed.

(** X9: For a target of at least 0 samples [set_audio_length] returns exactly
    that many samples in every channel: the first ones of the input, then
    zeros. *)
Theorem set_audio_length_exact audio length_ t target :
  let sample_rate := default 44100%Z (audio_sample_rate audio) in
  audio_waveform audio = Some t → well_shaped t →
  _get_samples_from_seconds length_ sample_rate = inr target → (0 ≤ target)%Z →
  ∃ u,
    set_audio_length audio length_
    = inr {| audio_waveform := Some u; audio_sample_rate := Some sample_rate |} ∧
    well_shaped u ∧ shape0 u = shape0 t ∧ shape1 u = shape1 t ∧
    shape2 u = Z.to_nat target ∧
    ∀ b c ch, channel (data t) b c = Some ch →
      channel (data u) b c
      = Some (take (Z.to_nat target)
                (ch ++ replicate (Z.to_nat target - shape2 t) zero)).
Proof.
  intros sample_rate Hw Ht Hs Htarget. unfold set_audio_length.
  rewrite Hw. fold sample_rate. rewrite Hs.
  destruct (Z.ltb_spec target (Z.of_nat (shape2 t))) as [Hlt|Hge].
  - eexists. split; [done|].
    assert (slice_length (shape2 t) None (Some target) = Z.to_nat target) as Hlen.
    { unfold slice_length, slice_bounds. simpl. rewrite slice_index_id by lia. lia. }
    split_and!; try done.
    + by apply well_shaped_slice_samples.
    + intros b c ch Hch. unfold slice_samples. rewrite channel_on_channels, Hch. simpl.
      f_equal. pose proof (channel_length _ _ _ _ Ht Hch) as Hl.
      unfold py_slice. rewrite Hl, Hlen. simpl. rewrite drop_0.
      replace (Z.to_nat target - shape2 t) with 0 by lia. simpl.
      by rewrite app_nil_r.
  - destruct (Z.ltb_spec (Z.of_nat (shape2 t)) target) as [Hlt|Hle].
    + eexists. split; [done|]. split_and!; try done.
      * by apply well_shaped_pad.
      * simpl. lia.
      * intros b c ch Hch. unfold pad. rewrite channel_on_channels, Hch. simpl.
        f_equal. pose proof (channel_length _ _ _ _ Ht Hch) as Hl.
        replace (Z.to_nat (target - Z.of_nat (shape2 t)))
          with (Z.to_nat target - shape2 t) by lia.
        symmetry. apply take_ge. rewrite length_app, length_replicate. lia.
    + exists t. split; [done|]. split_and!; try done; [lia|].
      intros b c ch Hch. rewrite Hch. f_equal.
      pose proof (channel_length _ _ _ _ Ht Hch) as Hl.
      replace (Z.to_nat target - shape2 t) with 0 by lia. simpl.
      rewrite app_nil_r. symmetry. apply take_ge. lia.
Qed.

(** X10: A negative target is not refused and does not give an empty result:
    [set_audio_length] then drops the last [-target] samples of every
    channel. *)
Theorem set_audio_length_negative_target audio length_ t target :
  let sample_rate := default 44100%Z (audio_sample_rate audio) in
  audio_waveform audio = Some t → well_shaped t →
  _get_samples_from_seconds length_ sample_rate = inr target → (target < 0)%Z →
  ∃ u,
    set_audio_length audio length_
    = inr {| audio_waveform := Some u; audio_sample_rate := Some sample_rate |} ∧
    well_shaped u ∧ shape0 u = shape0 t ∧ shape1 u = shape1 t ∧
    shape2 u = shape2 t - Z.to_nat (- target) ∧
    ∀ b c ch, channel (data t) b c = Some ch →
      channel (data u) b c = Some (take (shape2 t - Z.to_nat (- target)) ch).
Proof.
  intros sample_rate Hw Ht Hs Htarget. unfold set_audio_length.
  rewrite Hw. fold sample_rate. rewrite Hs.
  destruct (Z.ltb_spec target (Z.of_nat (shape2 t))) as [_|?]; [|lia].
  eexists. split; [done|].
  assert (slice_length (shape2 t) None (Some target)
          = shape2 t - Z.to_nat (- target)) as Hlen.
  { unfold slice_length, slice_bounds, slice_index. simpl.
    destruct (Z.ltb_spec target 0); lia. }
  split_and!; try done.
  - by apply well_shaped_slice_samples.
  - intros b c ch Hch. unfold slice_samples. rewrite channel_on_channels, Hch. simpl.
    f_equal. pose proof (channel_length _ _ _ _ Ht Hch) as Hl.
    unfold py_slice. rewrite Hl, Hlen. simpl. by rewrite drop_0.
Qed.

(** X11: Setting the same non-negative length again changes nothing. *)
Theorem set_audio_length_idempotent audio length_ out target :
  _get_samples_from_seconds length_ (default 44100%Z (audio_sample_rate audio))
  = inr target →
  (0 ≤ target)%Z →
  set_audio_length audio length_ = inr out →
  set_audio_length out length_ = inr out.
Proof.
  intros Hs Htarget. unfold set_audio_length at 1.
  destruct (audio_waveform audio) as [t|]; [|done]. rewrite Hs.
  intros [= <-]. unfold set_audio_length. simpl. rewrite Hs.
  assert (∀ u, Z.of_nat (shape2 u) = target →
    (if (target <? Z.of_nat (shape2 u))%Z then slice_samples None (Some target) u
     else if (Z.of_nat (shape2 u) <? target)%Z
          then pad (Z.to_nat (target - Z.of_nat (shape2 u))) u else u) = u) as Hfix.
  { intros u Hu. rewrite Hu, !Z.ltb_irrefl. done. }
  rewrite Hfix; [done|].
  destruct (Z.ltb_spec target (Z.of_nat (shape2 t))).
  - simpl. unfold slice_length, slice_bounds. simpl. rewrite slice_index_id by lia. lia.
  - destruct (Z.ltb_spec (Z.of_nat (shape2 t)) target); simpl; lia.
Qed.

(** X12: [_match_audio_length] pads the shorter waveform with zeros up to the
    length of the longer one and leaves the longer one as it is; batch and
    channel counts are not touched. *)
Theorem match_audio_length_pads_the_shorter (waveform1 waveform2 : @Tensor f32) :
  let r := _match_audio_length waveform1 waveform2 in
  shape2 r.1 = shape2 waveform1 `max` shape2 waveform2 ∧
  shape2 r.2 = shape2 waveform1 `max` shape2 waveform2 ∧
  shape0 r.1 = shape0 waveform1 ∧ shape1 r.1 = shape1 waveform1 ∧
  shape0 r.2 = shape0 waveform2 ∧ shape1 r.2 = shape1 waveform2 ∧
  (well_shaped waveform1 → well_shaped r.1) ∧
  (well_shaped waveform2 → well_shaped r.2) ∧
  (shape2 waveform2 ≤ shape2 waveform1 → r.1 = waveform1)%nat ∧
  (shape2 waveform1 ≤ shape2 waveform2 → r.2 = waveform2)%nat ∧
  ∀ b c,
    channel (data r.1) b c
    = (λ ch, ch ++ replicate (shape2 waveform2 - shape2 waveform1) zero)
      <$> channel (data waveform1) b c ∧
    channel (data r.2) b c
    = (λ ch, ch ++ replicate (shape2 waveform1 - shape2 waveform2) zero)
      <$> channel (data waveform2) b c.
Proof.
  assert (∀ o : option (list f32), o = (λ ch, ch ++ replicate 0 zero) <$> o) as Hid.
  { intros [ch|]; simpl; [|done]. by rewrite app_nil_r. }
  unfold _match_audio_length. simpl.
  destruct (Nat.ltb_spec (shape2 waveform2) (shape2 waveform1)) as [Hlt|Hge]; simpl.
  - split_and!; try done; try lia.
    + apply well_shaped_pad.
    + intros b c. replace (shape2 waveform2 - shape2 waveform1) with 0 by lia.
      split; [apply Hid|].
      exact (channel_on_channels (λ ch, ch ++ replicate _ zero) 0 waveform2 b c).
  - destruct (Nat.ltb_spec (shape2 waveform1) (shape2 waveform2)) as [Hlt|Hle]; simpl.
    + split_and!; try done; try lia.
      * apply well_shaped_pad.
      * intros b c. replace (shape2 waveform1 - shape2 waveform2) with 0 by lia.
        split; [|apply Hid].
        exact (channel_on_channels (λ ch, ch ++ replicate _ zero) 0 waveform1 b c).
    + split_and!; try done; try lia.
      intros b c. replace (shape2 waveform1 - shape2 waveform2) with 0 by lia.
      replace (shape2 waveform2 - shape2 waveform1) with 0 by lia.
      split; apply Hid.
Qed.

(** *** Merging regions *)

(** Consecutive regions of [l] lie more than [gap] samples apart. *)
Fixpoint separated (gap : Z) (l : list (Z * Z)) : Prop :=
  match l with
  | a :: (b :: _) as rest => (gap < b.1 - a.2)%Z ∧ separated gap rest
  | _ => True
  end.

(** The regions of [l] are well formed, in order, do not overlap, and lie
    between [lo] and [hi]. *)
Fixpoint ordered (lo : Z) (l : list (Z * Z)) (hi : Z) : Prop :=
  match l with
  | [] => (lo ≤ hi)%Z
  | a :: rest => (lo ≤ a.1)%Z ∧ (a.1 ≤ a.2)%Z ∧ ordered a.2 rest hi
  end.

Lemma merge_from_merged regions gap merged cs ce :
  merge_from regions gap merged cs ce = merged ++ merge_from regions gap [] cs ce.
Proof.
  revert merged cs ce. induction regions as [|[s e] rest IH]; intros merged cs ce.
  - done.
  - simpl. destruct (s - ce <=? gap)%Z.
    + apply IH.
    + rewrite (IH (merged ++ _)), (IH [_]). by rewrite <- app_assoc.
Qed.

Lemma merge_from_head regions gap cs ce :
  ∃ ce' tl, merge_from regions gap [] cs ce = (cs, ce') :: tl ∧ (ce ≤ ce')%Z.
Proof.
  revert cs ce. induction regions as [|[s e] rest IH]; intros cs ce; simpl.
  - by exists ce, [].
  - destruct (s - ce <=? gap)%Z.
    + destruct (IH cs (Z.max ce e)) as (ce' & tl & -> & Hle).
      exists ce', tl. split; [done|lia].
    + rewrite merge_from_merged. by exists ce, (merge_from rest gap [] s e).
Qed.

Lemma merge_from_separated regions gap cs ce :
  separated gap (merge_from regions gap [] cs ce).
Proof.
  revert cs ce. induction regions as [|[s e] rest IH]; intros cs ce; simpl; [done|].
  destruct (Z.leb_spec (s - ce) gap) as [Hle|Hgt]; [apply IH|].
  rewrite merge_from_merged. simpl.
  destruct (merge_from_head rest gap s e) as (e' & tl & Heq & _).
  specialize (IH s e). rewrite Heq in *. simpl. split; [lia|done].
Qed.

Lemma merge_separated regions gap : separated gap (_merge_close_regions regions gap).
Proof. destruct regions as [|[s e] rest]; [done|]. apply merge_from_separated. Qed.

Lemma separated_lookup gap l i a b :
  separated gap l → l !! i = Some a → l !! S i = Some b → (gap < b.1 - a.2)%Z.
Proof.
  revert i. induction l as [|x [|y l] IH]; intros i Hsep Ha Hb; try done.
  destruct Hsep as [Hxy Hsep]. destruct i as [|i].
  - simpl in Ha, Hb. by simplify_eq.
  - by apply (IH i).
Qed.

Lemma merge_separated_fixed gap l : separated gap l → _merge_close_regions l gap = l.
Proof.
  induction l as [|[s e] [|[s' e'] l] IH]; intros Hsep; try done.
  destruct Hsep as [Hgap Hsep]. simpl in Hgap.
  change (merge_from ((s', e') :: l) gap [] s e = (s, e) :: (s', e') :: l).
  cbn [merge_from]. destruct (Z.leb_spec (s' - e) gap) as [?|_]; [lia|].
  rewrite merge_from_merged. simpl. f_equal. by apply IH.
Qed.

(** X13: Any two consecutive regions that [_merge_close_regions] returns lie more
    than [min_gap_samples] apart, for every input list. *)
Theorem merge_close_regions_separates regions min_gap_samples i a b :
  _merge_close_regions regions min_gap_samples !! i = Some a →
  _merge_close_regions regions min_gap_samples !! S i = Some b →
  (min_gap_samples < b.1 - a.2)%Z.
Proof.
  apply separated_lookup, merge_separated.
Qed.

(** X14: Merging again with the same gap changes nothing. *)
Theorem merge_close_regions_idempotent regions min_gap_samples :
  _merge_close_regions (_merge_close_regions regions min_gap_samples) min_gap_samples
  = _merge_close_regions regions min_gap_samples.
Proof.
  apply merge_separated_fixed, merge_separated.
Qed.

Lemma merge_from_covers rest gap cs ce r :
  StronglySorted Z.le (cs :: rest.*1) →
  r ∈ rest ∨ (cs ≤ r.1 ∧ r.2 ≤ ce)%Z →
  ∃ m, m ∈ merge_from rest gap [] cs ce ∧ (m.1 ≤ r.1 ∧ r.2 ≤ m.2)%Z.
Proof.
  revert cs ce. induction rest as [|[s e] rest IH]; intros cs ce Hsorted Hr.
  - destruct Hr as [Hr|Hr]; [by apply elem_of_nil in Hr|].
    exists (cs, ce). split; [apply list_elem_of_here|done].
  - apply StronglySorted_inv in Hsorted as [Hrest Hcs].
    apply StronglySorted_inv in Hrest as [Hrest Hs].
    apply Forall_cons in Hcs as [Hcss Hcs]. simpl.
    destruct (s - ce <=? gap)%Z.
    + apply IH; [by constructor|].
      destruct Hr as [Hr|Hr].
      * apply elem_of_cons in Hr as [->|Hr]; [right; simpl in *; lia|by left].
      * right. lia.
    + rewrite merge_from_merged. simpl.
      destruct Hr as [Hr|Hr].
      * destruct (IH s e) as (m & Hm & Hcov); [by constructor| |].
        { apply elem_of_cons in Hr as [->|Hr]; [right; simpl; lia|by left]. }
        exists m. split; [by apply list_elem_of_further|done].
      * exists (cs, ce). split; [apply list_elem_of_here|done].
Qed.

(** X15: When the regions come with their starts in non-decreasing order, every
    one of them lies inside one of the regions that [_merge_close_regions]
    returns: merging loses no sample. *)
Theorem merge_close_regions_covers regions min_gap_samples r :
  Sorted Z.le regions.*1 → r ∈ regions →
  ∃ m, m ∈ _merge_close_regions regions min_gap_samples ∧ (m.1 ≤ r.1 ∧ r.2 ≤ m.2)%Z.
Proof.
  intros Hsorted Hr. destruct regions as [|[s e] rest]; [by apply elem_of_nil in Hr|].
  apply Sorted_StronglySorted in Hsorted; [|intros x y z; apply Z.le_trans].
  apply merge_from_covers; [done|].
  apply elem_of_cons in Hr as [->|Hr]; [right; simpl; lia|by left].
Qed.

Lemma merge_from_ordered rest gap lo cs ce hi :
  ordered lo ((cs, ce) :: rest) hi → ordered lo (merge_from rest gap [] cs ce) hi.
Proof.
  revert lo cs ce. induction rest as [|[s e] rest IH]; intros lo cs ce; [done|].
  simpl. intros (Hlo & Hcs & Hs & He & Hrest).
  destruct (s - ce <=? gap)%Z.
  - apply IH. simpl. replace (Z.max ce e) with e by lia. split_and!; try done; lia.
  - rewrite merge_from_merged. simpl. split_and!; try done.
    apply IH. simpl. by split_and!.
Qed.

Lemma merge_ordered regions gap lo hi :
  ordered lo regions hi → ordered lo (_merge_close_regions regions gap) hi.
Proof. destruct regions as [|[s e] rest]; [done|]. apply merge_from_ordered. Qed.

(** *** Finding the regions *)

Lemma ordered_weaken lo l hi hi' : ordered lo l hi → (hi ≤ hi')%Z → ordered lo l hi'.
Proof.
  revert lo. induction l as [|a l IH]; intros lo; simpl; [lia|].
  intros (? & ? & ?) ?. split_and!; try done. by apply IH.
Qed.

Lemma ordered_snoc lo l m s e hi :
  ordered lo l m → (m ≤ s)%Z → (s ≤ e)%Z → (e ≤ hi)%Z → ordered lo (l ++ [(s, e)]) hi.
Proof.
  revert lo. induction l as [|a l IH]; intros lo; simpl.
  - intros. split_and!; lia.
  - intros (? & ? & ?) ? ? ?. split_and!; try done. by apply IH.
Qed.

Lemma ordered_bounds lo l hi : ordered lo l hi → (lo ≤ hi)%Z.
Proof.
  revert lo. induction l as [|a l IH]; intros lo; simpl; [done|].
  intros (? & ? & Hl). apply IH in Hl. lia.
Qed.

Lemma scan_windows_ordered is_sound i hop min_sil regions (in_sound : bool) cs :
  (0 < hop)%Z → (0 ≤ i)%Z →
  ordered 0 regions (if in_sound then cs else Z.max 0 ((i - 1) * hop)) →
  (in_sound = true → (cs ≤ (i - 1) * hop)%Z) →
  let n := (i + Z.of_nat (length is_sound))%Z in
  let r := scan_windows is_sound i hop min_sil regions in_sound cs in
  ordered 0 r.1.1 (if r.1.2 then r.2 else Z.max 0 ((n - 1) * hop)) ∧
  (r.1.2 = true → (r.2 ≤ (n - 1) * hop)%Z).
Proof.
  intros Hhop. revert i regions in_sound cs.
  induction is_sound as [|is_active rest IH]; intros i regions in_sound cs Hi Hord Hcs.
  { simpl. rewrite Z.add_0_r. done. }
  cbn [scan_windows length]. cbv zeta.
  replace (i + Z.of_nat (S (length rest)))%Z
    with ((i + 1) + Z.of_nat (length rest))%Z by lia.
  replace (i + 1 - 1)%Z with i in IH by lia.
  assert (∀ j, (i + 1 - 1)%Z = j → j = i) as _ by lia.
  destruct is_active, in_sound; simpl.
  - apply IH; [lia| |].
    + replace (i + 1 - 1)%Z with i by lia. done.
    + intros _. specialize (Hcs eq_refl). nia.
  - apply IH; [lia| |].
    + replace (i + 1 - 1)%Z with i by lia.
      eapply ordered_weaken; [exact Hord|]. nia.
    + intros _. nia.
  - specialize (Hcs eq_refl).
    apply IH; [lia| |done].
    replace (i + 1 - 1)%Z with i by lia.
    destruct (min_sil <=? i * hop - cs)%Z.
    + eapply ordered_snoc; [exact Hord| | |]; nia.
    + eapply ordered_weaken; [exact Hord|]. nia.
  - apply IH; [lia| |done].
    eapply ordered_weaken; [exact Hord|]. nia.
Qed.

Lemma regions_of_windows_ordered is_sound hop min_sil total :
  (0 < hop)%Z → (0 ≤ total)%Z →
  ((Z.of_nat (length is_sound) - 1) * hop ≤ total)%Z →
  ordered 0 (regions_of_windows is_sound hop min_sil total) total ∧
  separated min_sil (regions_of_windows is_sound hop min_sil total).
Proof.
  intros Hhop Htotal Hlast. unfold regions_of_windows.
  assert (ordered 0 [] (if false then 0%Z else Z.max 0 ((0 - 1) * hop))) as H0
    by (simpl; lia).
  assert (false = true → (0 ≤ (0 - 1) * hop)%Z) as H1 by done.
  destruct (scan_windows_ordered is_sound 0 hop min_sil [] false 0 Hhop
              (Z.le_refl 0) H0 H1) as [Hord Hcs]. clear H0 H1.
  destruct (scan_windows is_sound 0 hop min_sil [] false 0)
    as [[regions in_sound] cs].
  simpl in Hord, Hcs.
  split.
  - apply merge_ordered. destruct in_sound.
    + specialize (Hcs eq_refl). eapply ordered_snoc; [exact Hord|lia| |lia]. lia.
    + eapply ordered_weaken; [exact Hord|]. lia.
  - apply merge_separated.
Qed.

Lemma length_energy_profile waveform window_size hop_length energy :
  (0 < hop_length)%Z → (0 ≤ window_size)%Z →
  _get_energy_profile waveform window_size hop_length = inr energy →
  ((Z.of_nat (length energy) - 1) * hop_length ≤ Z.of_nat (shape2 waveform))%Z.
Proof.
  intros Hhop Hwin. unfold _get_energy_profile.
  set (L := if (shape1 waveform =? 0)%nat then 0%Z else Z.of_nat (shape2 waveform)).
  assert (L ≤ Z.of_nat (shape2 waveform))%Z as HL.
  { subst L. destruct (shape1 waveform =? 0)%nat; lia. }
  destruct (Z.eqb_spec hop_length 0) as [?|_]; [lia|].
  set (q := ((L - window_size) / hop_length)%Z).
  assert (hop_length * q ≤ L - window_size)%Z as Hq
    by (apply Z.mul_div_le; lia).
  destruct (Z.ltb_spec (q + 1) 0) as [?|Hn]; [done|].
  destruct (Z.eqb_spec (q + 1) 0) as [?|Hn0].
  { intros [= <-]. simpl. lia. }
  destruct (data waveform !! 0) as [m|]; [|done].
  intros [= <-]. rewrite length_fmap, length_seq. nia.
Qed.

Lemma find_non_silent_regions_ordered waveform threshold_db min_silence_samples
    sample_rate window_size hop_length regions :
  int_of_product window_duration sample_rate = inr window_size →
  int_of_product hop_duration sample_rate = inr hop_length →
  (0 ≤ window_size)%Z → (0 < hop_length)%Z →
  _find_non_silent_regions waveform threshold_db min_silence_samples sample_rate
  = inr regions →
  ordered 0 regions (Z.of_nat (shape2 waveform)) ∧
  separated min_silence_samples regions.
Proof.
  intros Hw Hh Hwin Hhop. unfold _find_non_silent_regions. rewrite Hw, Hh.
  destruct (_get_energy_profile waveform window_size hop_length) as [e|energy] eqn:He;
    [done|].
  intros [= <-]. apply regions_of_windows_ordered; [done|lia|].
  rewrite length_fmap. by apply (length_energy_profile waveform window_size).
Qed.

(** *** Tensor operations *)

Lemma well_shaped_by_lookup (t : @Tensor f32) :
  length (data t) = shape0 t →
  (∀ b m, data t !! b = Some m →
          length m = shape1 t ∧ ∀ c ch, m !! c = Some ch → length ch = shape2 t) →
  well_shaped t.
Proof.
  intros Hlen Hrows. split; [done|]. apply Forall_lookup. intros b m Hm.
  destruct (Hrows b m Hm) as [Hl Hch]. split; [done|].
  apply Forall_lookup. intros c ch. apply Hch.
Qed.

Lemma well_shaped_row (t : @Tensor f32) b m :
  well_shaped t → data t !! b = Some m →
  length m = shape1 t ∧ Forall (λ ch : list f32, length ch = shape2 t) m.
Proof. intros [_ Hall] Hm. by apply (Forall_lookup_1 _ _ _ _ Hall Hm). Qed.

Lemma expand_id {A} n (l : list A) : length l = n → expand n l = l.
Proof. destruct l as [|x [|y l]]; simpl; intros <-; done. Qed.

Lemma broadcast_dim_same n : broadcast_dim n n = Some n.
Proof. unfold broadcast_dim. by rewrite Nat.eqb_refl. Qed.

Lemma broadcast_dim_1_r n : broadcast_dim n 1 = Some n.
Proof.
  unfold broadcast_dim. destruct (Nat.eqb_spec n 1) as [->|_]; [done|].
  by destruct (Nat.eqb_spec n 1).
Qed.

Lemma well_shaped_zeros b c n : well_shaped (zeros b c n).
Proof.
  split; simpl; [by rewrite length_replicate|].
  apply Forall_replicate. split; [by rewrite length_replicate|].
  apply Forall_replicate. by rewrite length_replicate.
Qed.

(** [t * curve.view(1, 1, -1)] scales every channel by the curve. *)
Lemma elementwise_curve op (t : @Tensor f32) curve :
  well_shaped t → length curve = shape2 t →
  elementwise op t (view_1_1 curve)
  = inr (on_channels (λ ch, zip_with op ch curve) (shape2 t) t).
Proof.
  intros Ht Hcurve. pose proof Ht as [Hlen Hall].
  unfold elementwise. simpl. rewrite !broadcast_dim_1_r, Hcurve, broadcast_dim_same.
  unfold on_channels. do 2 f_equal.
  rewrite (expand_id _ (data t)) by done.
  rewrite zip_with_replicate_r by lia. apply Forall_fmap_ext_1.
  eapply Forall_impl; [exact Hall|]. intros m [Hm Hchs]. unfold flip.
  rewrite (expand_id _ m) by done. simpl.
  rewrite zip_with_replicate_r by lia. apply Forall_fmap_ext_1.
  eapply Forall_impl; [exact Hchs|]. intros ch Hch. unfold flip.
  by rewrite !expand_id.
Qed.

Lemma zip_with_ext_Forall {A B C} (f g : A → B → C) (P : A → Prop) (Q : B → Prop) l k :
  Forall P l → Forall Q k → (∀ a b, P a → Q b → f a b = g a b) →
  zip_with f l k = zip_with g l k.
Proof.
  intros Hl. revert k. induction Hl as [|a l Ha Hl IH]; intros k Hk Hfg; [done|].
  destruct Hk as [|b k Hb Hk]; [done|]. simpl. f_equal; [by apply Hfg|by apply IH].
Qed.

(** [t + u] on tensors of one shape works sample by sample. *)
Lemma elementwise_same op (t u : @Tensor f32) :
  well_shaped t → well_shaped u → same_shape t u →
  elementwise op t u
  = inr {| shape0 := shape0 t; shape1 := shape1 t; shape2 := shape2 t;
           data := zip_with (zip_with (zip_with op)) (data t) (data u) |}.
Proof.
  intros [Ht Hat] [Hu Hau] (H0 & H1 & H2). unfold elementwise.
  rewrite <- H0, <- H1, <- H2, !broadcast_dim_same. do 2 f_equal.
  rewrite !expand_id by congruence.
  eapply zip_with_ext_Forall; [exact Hat|exact Hau|].
  intros m1 m2 [Hm1 Hc1] [Hm2 Hc2]. simpl in *.
  rewrite !expand_id by congruence.
  eapply zip_with_ext_Forall; [exact Hc1|exact Hc2|].
  intros c1 c2 Hl1 Hl2. simpl in *. by rewrite !expand_id by congruence.
Qed.

Lemma channel_zip_with (g : list f32 → list f32 → list f32) d1 d2 b c ch1 ch2 :
  channel d1 b c = Some ch1 → channel d2 b c = Some ch2 →
  channel (zip_with (zip_with g) d1 d2) b c = Some (g ch1 ch2).
Proof.
  unfold channel. intros H1 H2. rewrite lookup_zip_with.
  destruct (d1 !! b) as [m1|]; [|done]. destruct (d2 !! b) as [m2|]; [|done].
  simpl in *. rewrite lookup_zip_with. by rewrite H1, H2.
Qed.

Lemma well_shaped_zip_with (g : list f32 → list f32 → list f32)
    (t u : @Tensor f32) n :
  well_shaped t → well_shaped u → shape0 t = shape0 u → shape1 t = shape1 u →
  (∀ ch1 ch2, length ch1 = shape2 t → length ch2 = shape2 u → length (g ch1 ch2) = n) →
  well_shaped {| shape0 := shape0 t; shape1 := shape1 t; shape2 := n;
                 data := zip_with (zip_with g) (data t) (data u) |}.
Proof.
  intros Ht Hu H0 H1 Hg. pose proof Ht as [Hlt _]. pose proof Hu as [Hlu _].
  apply well_shaped_by_lookup; simpl.
  { rewrite length_zip_with. lia. }
  intros b m. rewrite lookup_zip_with.
  destruct (data t !! b) as [m1|] eqn:Hm1; [|done].
  destruct (data u !! b) as [m2|] eqn:Hm2; [|done]. simpl. intros [= <-].
  destruct (well_shaped_row _ _ _ Ht Hm1) as [Hl1 Hc1].
  destruct (well_shaped_row _ _ _ Hu Hm2) as [Hl2 Hc2].
  split. { rewrite length_zip_with. lia. }
  intros c ch. rewrite lookup_zip_with.
  destruct (m1 !! c) as [ch1|] eqn:Hch1; [|done].
  destruct (m2 !! c) as [ch2|] eqn:Hch2; [|done]. simpl. intros [= <-].
  apply Hg.
  - by apply (Forall_lookup_1 _ _ _ _ Hc1 Hch1).
  - by apply (Forall_lookup_1 _ _ _ _ Hc2 Hch2).
Qed.

(** [torch.cat([t, u], dim=-1)] of tensors that agree on batch and channel
    counts appends the channels of [u] to those of [t]. *)
Lemma cat2_spec (t u : @Tensor f32) :
  shape0 t = shape0 u → shape1 t = shape1 u →
  ∃ r, cat2 t u = inr r ∧
       shape0 r = shape0 t ∧ shape1 r = shape1 t ∧ shape2 r = shape2 t + shape2 u ∧
       (well_shaped t → well_shaped u → well_shaped r) ∧
       ∀ b c ch1 ch2, channel (data t) b c = Some ch1 → channel (data u) b c = Some ch2 →
                      channel (data r) b c = Some (ch1 ++ ch2).
Proof.
  intros H0 H1. unfold cat2. rewrite H0, H1, !Nat.eqb_refl. simpl.
  eexists. split; [done|]. simpl. split_and!; try done.
  - intros Ht Hu. rewrite <- H0, <- H1.
    apply well_shaped_zip_with; try done. intros ch1 ch2 Hl1 Hl2.
    by rewrite length_app, Hl1, Hl2.
  - intros b c ch1 ch2. apply channel_zip_with.
Qed.

Lemma cat2_cases (t u : @Tensor f32) :
  match cat2 t u with
  | inr r => shape0 t = shape0 u ∧ shape1 t = shape1 u ∧
             shape0 r = shape0 t ∧ shape1 r = shape1 t
  | inl e => e = Builtin RuntimeError
  end.
Proof.
  unfold cat2.
  destruct (Nat.eqb_spec (shape0 t) (shape0 u)), (Nat.eqb_spec (shape1 t) (shape1 u));
    simpl; done.
Qed.

Lemma elementwise_raises op (t u : @Tensor f32) e :
  elementwise op t u = inl e → e = Builtin RuntimeError.
Proof.
  unfold elementwise.
  destruct (broadcast_dim (shape0 t) (shape0 u)); [|by intros [= <-]].
  destruct (broadcast_dim (shape1 t) (shape1 u)); [|by intros [= <-]].
  destruct (broadcast_dim (shape2 t) (shape2 u)); [done|by intros [= <-]].
Qed.

Lemma elementwise_curve_shapes op (t : @Tensor f32) curve :
  length curve = shape2 t →
  ∃ r, elementwise op t (view_1_1 curve) = inr r ∧
       shape0 r = shape0 t ∧ shape1 r = shape1 t ∧ shape2 r = shape2 t.
Proof.
  intros Hcurve. unfold elementwise. simpl.
  rewrite !broadcast_dim_1_r, Hcurve, broadcast_dim_same. by eexists.
Qed.

Lemma cat2_mismatch (t u : @Tensor f32) :
  shape0 t ≠ shape0 u ∨ shape1 t ≠ shape1 u → cat2 t u = inl (Builtin RuntimeError).
Proof.
  intros H. unfold cat2.
  destruct (Nat.eqb_spec (shape0 t) (shape0 u)), (Nat.eqb_spec (shape1 t) (shape1 u));
    simpl; try done. by destruct H.
Qed.

(** *** Crossfades *)

(** The channel that a crossfade over [f] samples makes of [ch1] and [ch2]:
    [ch1] without its last [f] samples, the blend of those with the first
    [f] samples of [ch2], then the rest of [ch2]. *)
Definition blend (f : nat) (ch1 ch2 : list f32) : list f32 :=
  take (length ch1 - f) ch1 ++
  zip_with fadd (zip_with fmul (drop (length ch1 - f) ch1) (linspace 1 0 f))
                (zip_with fmul (take f ch2) (linspace 0 1 f)) ++
  drop f ch2.

Lemma length_linspace a b n : length (linspace a b n) = n.
Proof. unfold linspace. by rewrite length_fmap, length_seq. Qed.

Lemma slice_length_last n f :
  (0 < f ≤ Z.of_nat n)%Z → slice_length n (Some (- f)%Z) None = Z.to_nat f.
Proof.
  intros Hf. unfold slice_length, slice_bounds, slice_index. simpl.
  destruct (Z.ltb_spec (- f) 0); lia.
Qed.

Lemma slice_length_but_last n f :
  (0 < f ≤ Z.of_nat n)%Z → slice_length n None (Some (- f)%Z) = n - Z.to_nat f.
Proof.
  intros Hf. unfold slice_length, slice_bounds, slice_index. simpl.
  destruct (Z.ltb_spec (- f) 0); lia.
Qed.

Lemma slice_length_first n f :
  (0 ≤ f ≤ Z.of_nat n)%Z → slice_length n None (Some f) = Z.to_nat f.
Proof.
  intros Hf. unfold slice_length, slice_bounds. simpl.
  rewrite slice_index_id by lia. lia.
Qed.

Lemma slice_length_from n f :
  (0 ≤ f ≤ Z.of_nat n)%Z → slice_length n (Some f) None = n - Z.to_nat f.
Proof.
  intros Hf. unfold slice_length, slice_bounds. simpl.
  rewrite slice_index_id by lia. lia.
Qed.

Lemma py_slice_last (l : list f32) f :
  (0 < f ≤ Z.of_nat (length l))%Z →
  py_slice (Some (- f)%Z) None l = drop (length l - Z.to_nat f) l.
Proof.
  intros Hf. unfold py_slice. rewrite slice_length_last by done.
  unfold slice_bounds, slice_index. simpl.
  destruct (Z.ltb_spec (- f) 0); [|lia].
  replace (Z.to_nat (Z.max 0 (- f + Z.of_nat (length l))))
    with (length l - Z.to_nat f) by lia.
  apply take_ge. rewrite length_drop. lia.
Qed.

Lemma py_slice_but_last (l : list f32) f :
  (0 < f ≤ Z.of_nat (length l))%Z →
  py_slice None (Some (- f)%Z) l = take (length l - Z.to_nat f) l.
Proof.
  intros Hf. unfold py_slice. rewrite slice_length_but_last by done.
  simpl. by rewrite drop_0.
Qed.

Lemma py_slice_first (l : list f32) f :
  (0 ≤ f ≤ Z.of_nat (length l))%Z → py_slice None (Some f) l = take (Z.to_nat f) l.
Proof.
  intros Hf. unfold py_slice. rewrite slice_length_first by done.
  simpl. by rewrite drop_0.
Qed.

Lemma py_slice_from (l : list f32) f :
  (0 ≤ f ≤ Z.of_nat (length l))%Z → py_slice (Some f) None l = drop (Z.to_nat f) l.
Proof.
  intros Hf. unfold py_slice. rewrite slice_length_from by done.
  unfold slice_bounds. simpl. rewrite slice_index_id by lia.
  apply take_ge. rewrite length_drop. lia.
Qed.

Lemma channel_slice_samples lo hi (t : @Tensor f32) b c :
  channel (data (slice_samples lo hi t)) b c = py_slice lo hi <$> channel (data t) b c.
Proof. apply channel_on_channels. Qed.

(** With batch and channel counts that agree and [0 < f] no longer than
    either segment, the crossfade succeeds and works channel by channel. *)
Lemma crossfade_with_spec (segment1 segment2 : @Tensor f32) f :
  well_shaped segment1 → well_shaped segment2 →
  shape0 segment1 = shape0 segment2 → shape1 segment1 = shape1 segment2 →
  (0 < f)%Z → (f ≤ Z.of_nat (shape2 segment1))%Z → (f ≤ Z.of_nat (shape2 segment2))%Z →
  ∃ r, crossfade_with segment1 segment2 f = inr r ∧ well_shaped r ∧
       shape0 r = shape0 segment1 ∧ shape1 r = shape1 segment1 ∧
       shape2 r = shape2 segment1 + shape2 segment2 - Z.to_nat f ∧
       ∀ b c ch1 ch2,
         channel (data segment1) b c = Some ch1 →
         channel (data segment2) b c = Some ch2 →
         channel (data r) b c = Some (blend (Z.to_nat f) ch1 ch2).
Proof.
  intros H1 H2 Hb Hc Hf Hf1 Hf2. unfold crossfade_with.
  destruct (Z.ltb_spec f 0) as [?|_]; [lia|].
  set (end_segment := slice_samples (Some (- f)%Z) None segment1).
  set (start_segment := slice_samples None (Some f) segment2).
  assert (well_shaped end_segment) as Hwe by by apply well_shaped_slice_samples.
  assert (well_shaped start_segment) as Hws by by apply well_shaped_slice_samples.
  assert (shape2 end_segment = Z.to_nat f) as Hle
    by (simpl; apply slice_length_last; lia).
  assert (shape2 start_segment = Z.to_nat f) as Hls
    by (simpl; apply slice_length_first; lia).
  rewrite (elementwise_curve fmul end_segment);
    [|done|by rewrite length_linspace].
  rewrite (elementwise_curve fmul start_segment);
    [|done|by rewrite length_linspace].
  cbv beta iota.
  set (faded_out := on_channels _ _ end_segment).
  set (faded_in := on_channels _ _ start_segment).
  assert (well_shaped faded_out) as Hwo.
  { apply well_shaped_on_channels; [done|]. intros ch Hch.
    rewrite length_zip_with, length_linspace. lia. }
  assert (well_shaped faded_in) as Hwi.
  { apply well_shaped_on_channels; [done|]. intros ch Hch.
    rewrite length_zip_with, length_linspace. lia. }
  rewrite (elementwise_same fadd faded_out faded_in);
    [|done|done|split_and!; [done|done|exact (eq_trans Hle (eq_sym Hls))]].
  set (crossfaded := {| shape0 := shape0 faded_out |}).
  assert (well_shaped crossfaded) as Hwx.
  { apply (well_shaped_zip_with (zip_with fadd) faded_out faded_in); try done.
    intros ch1 ch2 Hl1 Hl2. rewrite length_zip_with. simpl in *. lia. }
  set (head := slice_samples None (Some (- f)%Z) segment1).
  set (tail := slice_samples (Some f) None segment2).
  destruct (cat2_spec crossfaded tail) as (u & Hu & Hu0 & Hu1 & Hu2 & Hwu & Hchu);
    [done|done|].
  destruct (cat2_spec head u) as (r & Hr & Hr0 & Hr1 & Hr2 & Hwr & Hchr).
  { by rewrite Hu0. } { by rewrite Hu1. }
  exists r. cbn [cat]. rewrite Hu. split; [done|]. split.
  { apply Hwr; [by apply well_shaped_slice_samples|].
    apply Hwu; [done|by apply well_shaped_slice_samples]. }
  split; [by rewrite Hr0|]. split; [by rewrite Hr1|]. split.
  { rewrite Hr2, Hu2.
    change (shape2 crossfaded) with (shape2 end_segment). rewrite Hle.
    change (shape2 head) with (slice_length (shape2 segment1) None (Some (- f)%Z)).
    change (shape2 tail) with (slice_length (shape2 segment2) (Some f) None).
    rewrite slice_length_but_last, slice_length_from by lia. lia. }
  - intros b c ch1 ch2 Hch1 Hch2.
    pose proof (channel_length _ _ _ _ H1 Hch1) as Hl1.
    pose proof (channel_length _ _ _ _ H2 Hch2) as Hl2.
    apply Hchr.
    { unfold head. rewrite channel_slice_samples, Hch1. simpl.
      rewrite py_slice_but_last by lia. done. }
    apply Hchu.
    2:{ unfold tail. rewrite channel_slice_samples, Hch2. simpl.
        rewrite py_slice_from by lia. done. }
    apply channel_zip_with.
    + unfold faded_out. rewrite channel_on_channels. unfold end_segment.
      rewrite channel_slice_samples, Hch1. simpl.
      rewrite py_slice_last by lia. done.
    + unfold faded_in. rewrite channel_on_channels. unfold start_segment.
      rewrite channel_slice_samples, Hch2. simpl.
      rewrite py_slice_first by lia. done.
Qed.

Lemma blend_0 ch1 ch2 : blend 0 ch1 ch2 = ch1 ++ ch2.
Proof.
  unfold blend. rewrite Nat.sub_0_r, take_ge, drop_ge by lia. simpl.
  by rewrite drop_0.
Qed.

Lemma SilenceTrimmer_crossfade_spec (segment1 segment2 : @Tensor f32) fade_samples :
  well_shaped segment1 → well_shaped segment2 →
  shape0 segment1 = shape0 segment2 → shape1 segment1 = shape1 segment2 →
  (0 ≤ fade_samples)%Z →
  let f := Z.to_nat (Z.min (Z.of_nat (shape2 segment1))
                       (Z.min (Z.of_nat (shape2 segment2)) fade_samples)) in
  ∃ r, SilenceTrimmer_apply_crossfade segment1 segment2 fade_samples = inr r ∧
       well_shaped r ∧
       shape0 r = shape0 segment1 ∧ shape1 r = shape1 segment1 ∧
       shape2 r = shape2 segment1 + shape2 segment2 - f ∧
       ∀ b c ch1 ch2,
         channel (data segment1) b c = Some ch1 →
         channel (data segment2) b c = Some ch2 →
         channel (data r) b c = Some (blend f ch1 ch2).
Proof.
  intros H1 H2 Hb Hc Hfade f.
  assert (∀ f', f' = 0 →
    ∃ r, cat [segment1; segment2] = inr r ∧ well_shaped r ∧
         shape0 r = shape0 segment1 ∧ shape1 r = shape1 segment1 ∧
         shape2 r = shape2 segment1 + shape2 segment2 - f' ∧
         ∀ b c ch1 ch2,
           channel (data segment1) b c = Some ch1 →
           channel (data segment2) b c = Some ch2 →
           channel (data r) b c = Some (blend f' ch1 ch2)) as Hcat.
  { intros f' ->.
    destruct (cat2_spec segment1 segment2 Hb Hc) as (r & Hr & Hr0 & Hr1 & Hr2 & Hwr & Hch).
    exists r. split; [done|]. split; [by apply Hwr|].
    split; [done|]. split; [done|]. split; [lia|].
    intros b c ch1 ch2 Hch1 Hch2. rewrite blend_0. by apply Hch. }
  unfold SilenceTrimmer_apply_crossfade.
  destruct (Z.eqb_spec fade_samples 0) as [Hz|Hnz].
  { apply Hcat. subst f. lia. }
  destruct (Z.eqb_spec (Z.min (Z.of_nat (shape2 segment1))
              (Z.min (Z.of_nat (shape2 segment2)) fade_samples)) 0) as [Hz'|Hnz'].
  { apply Hcat. subst f. lia. }
  apply crossfade_with_spec; try done; lia.
Qed.

Lemma crossfade_versions_agree (segment1 segment2 : @Tensor f32) fade_samples :
  Concatenator_apply_crossfade segment1 segment2 fade_samples
  = SilenceTrimmer_apply_crossfade segment1 segment2 fade_samples.
Proof.
  unfold Concatenator_apply_crossfade, SilenceTrimmer_apply_crossfade.
  destruct (Z.eqb_spec fade_samples 0) as [|Hnz]; [done|].
  destruct (Z.ltb_spec (Z.of_nat (shape2 segment1)) fade_samples) as [H1|H1];
    destruct (Z.ltb_spec (Z.of_nat (shape2 segment2)) fade_samples) as [H2|H2];
    simpl.
  1-3: replace (Z.min (Z.of_nat (shape2 segment1))
                  (Z.min (Z.of_nat (shape2 segment2)) fade_samples))
         with (Z.min (Z.of_nat (shape2 segment1)) (Z.of_nat (shape2 segment2)))
         by lia; done.
  replace (Z.min (Z.of_nat (shape2 segment1))
             (Z.min (Z.of_nat (shape2 segment2)) fade_samples))
    with fade_samples by lia.
  by destruct (Z.eqb_spec fade_samples 0).
Qed.

(** X17: The two nodes' [_apply_crossfade] methods are the same function,
    although they bound the fade length in different ways: both fade over
    [f = min(len1, len2, fade_samples)] samples, and concatenate plainly
    when [f] is 0. *)
Theorem apply_crossfade_versions_agree (segment1 segment2 : @Tensor f32) fade_samples :
  let f := Z.min (Z.of_nat (shape2 segment1))
             (Z.min (Z.of_nat (shape2 segment2)) fade_samples) in
  Concatenator_apply_crossfade segment1 segment2 fade_samples
  = SilenceTrimmer_apply_crossfade segment1 segment2 fade_samples ∧
  Concatenator_apply_crossfade segment1 segment2 fade_samples
  = if (f =? 0)%Z then cat [segment1; segment2]
    else crossfade_with segment1 segment2 f.
Proof.
  intros f. rewrite crossfade_versions_agree. split; [done|].
  unfold SilenceTrimmer_apply_crossfade. fold f.
  destruct (Z.eqb_spec fade_samples 0) as [Hz|Hnz]; [|done].
  destruct (Z.eqb_spec f 0) as [_|Hf]; [done|].
  unfold crossfade_with. destruct (Z.ltb_spec f 0) as [_|?]; [|subst f; lia].
  exfalso. subst f. lia.
Qed.

(** X18: A crossfade of two well-shaped segments with the same batch and channel
    counts succeeds in both nodes, shortens the concatenation by the fade
    length [f = min(len1, len2, fade_samples)], and blends only the
    overlap: the first [len1 - f] samples of every channel are those of
    [segment1] and the last [len2 - f] those of [segment2]. *)
Theorem apply_crossfade_blends_only_the_overlap (segment1 segment2 : @Tensor f32)
    fade_samples :
  well_shaped segment1 → well_shaped segment2 →
  shape0 segment1 = shape0 segment2 → shape1 segment1 = shape1 segment2 →
  (0 ≤ fade_samples)%Z →
  let f := Z.to_nat (Z.min (Z.of_nat (shape2 segment1))
                       (Z.min (Z.of_nat (shape2 segment2)) fade_samples)) in
  ∃ r, SilenceTrimmer_apply_crossfade segment1 segment2 fade_samples = inr r ∧
       Concatenator_apply_crossfade segment1 segment2 fade_samples = inr r ∧
       well_shaped r ∧
       shape0 r = shape0 segment1 ∧ shape1 r = shape1 segment1 ∧
       shape2 r = shape2 segment1 + shape2 segment2 - f ∧
       ∀ b c ch1 ch2,
         channel (data segment1) b c = Some ch1 →
         channel (data segment2) b c = Some ch2 →
         ∃ ch blended,
           channel (data r) b c = Some ch ∧
           ch = take (shape2 segment1 - f) ch1 ++ blended ++ drop f ch2 ∧
           length blended = f ∧
           take (shape2 segment1 - f) ch = take (shape2 segment1 - f) ch1 ∧
           drop (shape2 segment1) ch = drop f ch2.
Proof.
  intros H1 H2 Hb Hc Hfade f.
  destruct (SilenceTrimmer_crossfade_spec segment1 segment2 fade_samples H1 H2 Hb Hc
              Hfade) as (r & Hr & Hwr & Hr0 & Hr1 & Hr2 & Hch).
  fold f in Hr2, Hch. exists r. split; [done|].
  split. { unfold Concatenator_apply_crossfade.
           pose proof (crossfade_versions_agree segment1 segment2 fade_samples)
             as Hagree. unfold Concatenator_apply_crossfade in Hagree.
           by rewrite Hagree. }
  split; [done|]. split; [done|]. split; [done|]. split; [done|].
  intros b c ch1 ch2 Hch1 Hch2.
  pose proof (channel_length _ _ _ _ H1 Hch1) as Hl1.
  pose proof (channel_length _ _ _ _ H2 Hch2) as Hl2.
  assert (f ≤ shape2 segment1 ∧ f ≤ shape2 segment2)%nat as [Hf1 Hf2]
    by (subst f; lia).
  eexists _, _. split; [by apply Hch|]. unfold blend. rewrite Hl1.
  split; [done|].
  assert (length (zip_with fadd
            (zip_with fmul (drop (shape2 segment1 - f) ch1) (linspace 1 0 f))
            (zip_with fmul (take f ch2) (linspace 0 1 f))) = f) as Hlen.
  { rewrite !length_zip_with, length_drop, length_take, !length_linspace. lia. }
  split; [done|]. split.
  - apply take_app_length'. rewrite length_take. lia.
  - rewrite app_assoc. apply drop_app_length'.
    rewrite length_app, length_take, Hlen. lia.
Qed.

(** X19: With different batch or channel counts, or a negative fade length,
    [_apply_crossfade] raises [RuntimeError] in both nodes. *)
Theorem apply_crossfade_refuses_mismatch (segment1 segment2 : @Tensor f32)
    fade_samples :
  shape0 segment1 ≠ shape0 segment2 ∨ shape1 segment1 ≠ shape1 segment2 ∨
  (fade_samples < 0)%Z →
  SilenceTrimmer_apply_crossfade segment1 segment2 fade_samples
  = inl (Builtin RuntimeError) ∧
  Concatenator_apply_crossfade segment1 segment2 fade_samples
  = inl (Builtin RuntimeError).
Proof.
  intros Hbad. rewrite crossfade_versions_agree.
  enough (SilenceTrimmer_apply_crossfade segment1 segment2 fade_samples
          = inl (Builtin RuntimeError)) by done.
  unfold SilenceTrimmer_apply_crossfade.
  set (f := Z.min (Z.of_nat (shape2 segment1))
              (Z.min (Z.of_nat (shape2 segment2)) fade_samples)).
  destruct (Z.ltb_spec fade_samples 0) as [Hneg|Hpos].
  { destruct (Z.eqb_spec fade_samples 0) as [|_]; [lia|].
    destruct (Z.eqb_spec f 0) as [|_]; [lia|].
    unfold crossfade_with. by destruct (Z.ltb_spec f 0) as [_|?]; [|lia]. }
  assert (shape0 segment1 ≠ shape0 segment2 ∨ shape1 segment1 ≠ shape1 segment2)
    as Hmis by (destruct Hbad as [?|[?|?]]; [by left|by right|lia]).
  assert (cat [segment1; segment2] = inl (Builtin RuntimeError)) as Hcat
    by (cbn [cat]; by apply cat2_mismatch).
  destruct (Z.eqb_spec fade_samples 0) as [|Hnz]; [done|].
  destruct (Z.eqb_spec f 0) as [|Hnz']; [done|].
  unfold crossfade_with. destruct (Z.ltb_spec f 0) as [?|_]; [lia|].
  destruct (elementwise_curve_shapes fmul
              (slice_samples (Some (- f)%Z) None segment1)
              (linspace 1 0 (Z.to_nat f))) as (faded_out & -> & _).
  { rewrite length_linspace. simpl. by rewrite slice_length_last by lia. }
  destruct (elementwise_curve_shapes fmul
              (slice_samples None (Some f) segment2)
              (linspace 0 1 (Z.to_nat f))) as (faded_in & -> & _).
  { rewrite length_linspace. simpl. by rewrite slice_length_first by lia. }
  pose proof (elementwise_raises fadd faded_out faded_in) as Hadd.
  destruct (elementwise fadd faded_out faded_in) as [e|crossfaded];
    [by rewrite (Hadd e eq_refl)|].
  cbn [cat].
  pose proof (cat2_cases crossfaded (slice_samples (Some f) None segment2)) as Hu.
  destruct (cat2 crossfaded _) as [e|u]; [by subst|].
  pose proof (cat2_cases (slice_samples None (Some (- f)%Z) segment1) u) as Hr.
  destruct (cat2 _ u) as [e|r]; [by subst|].
  exfalso. simpl in Hu, Hr. destruct Hmis as [Hmis|Hmis]; apply Hmis; lia.
Qed.

(** *** Trimming silence *)

Lemma slice_length_nonneg n a b :
  (0 ≤ a)%Z → (0 ≤ b)%Z →
  slice_length n (Some a) (Some b)
  = Z.to_nat (Z.min b (Z.of_nat n) - Z.min a (Z.of_nat n)).
Proof.
  intros Ha Hb. unfold slice_length, slice_bounds, slice_index. simpl.
  destruct (Z.ltb_spec a 0), (Z.ltb_spec b 0); lia.
Qed.

Lemma append_segment_spec fade_samples (result segment : @Tensor f32) :
  well_shaped result → well_shaped segment →
  shape0 result = shape0 segment → shape1 result = shape1 segment →
  ∃ r, append_segment fade_samples result segment = inr r ∧ well_shaped r ∧
       shape0 r = shape0 result ∧ shape1 r = shape1 result ∧
       (shape2 r ≤ shape2 result + shape2 segment)%nat.
Proof.
  intros H1 H2 Hb Hc. unfold append_segment.
  destruct (cat2_spec result segment Hb Hc) as (r & Hr & Hr0 & Hr1 & Hr2 & Hwr & _).
  assert (∃ r, cat [result; segment] = inr r ∧ well_shaped r ∧
               shape0 r = shape0 result ∧ shape1 r = shape1 result ∧
               (shape2 r ≤ shape2 result + shape2 segment)%nat) as Hcat.
  { exists r. split; [done|]. split; [by apply Hwr|]. split; [done|].
    split; [done|lia]. }
  destruct (Z.ltb_spec 0 fade_samples) as [Hfade|_]; [|done].
  destruct (0 <? shape2 result)%nat; [|done].
  destruct (0 <? shape2 segment)%nat; [|done]. simpl.
  destruct (SilenceTrimmer_crossfade_spec result segment fade_samples H1 H2 Hb Hc)
    as (x & Hx & Hwx & Hx0 & Hx1 & Hx2 & _); [lia|].
  exists x. split; [done|]. split; [done|]. split; [done|]. split; [done|lia].
Qed.

(** What the loop of [trim_silence] keeps true of its state: the result so
    far has the batch and channel counts of the waveform and is no longer
    than the position [last] reached in it. *)
Definition trim_inv (waveform : @Tensor f32) (st : option (@Tensor f32) * Z * Z)
    (last : Z) : Prop :=
  match st with
  | (Some result, _, last_region_end) =>
      well_shaped result ∧ shape0 result = shape0 waveform ∧
      shape1 result = shape1 waveform ∧
      (Z.of_nat (shape2 result) ≤ last)%Z ∧ last_region_end = last
  | (None, _, _) => True
  end.

Lemma trim_step_spec waveform keep_silence_samples fade_samples st last s e :
  well_shaped waveform →
  (0 ≤ last)%Z → (last ≤ s)%Z → (s ≤ e)%Z → (e ≤ Z.of_nat (shape2 waveform))%Z →
  trim_inv waveform st last →
  ∃ st', trim_step waveform keep_silence_samples fade_samples st (s, e) = inr st' ∧
         trim_inv waveform st' e ∧ is_Some st'.1.1.
Proof.
  intros Hw Hlast Hs He HT Hinv. destruct st as [[[result|] removed] last_end].
  - destruct Hinv as (Hwr & Hr0 & Hr1 & Hr2 & ->). cbn [trim_step].
    set (gap := (s - last)%Z). set (kept := Z.min gap keep_silence_samples).
    set (kept_segment := if (0 <? kept)%Z then _ else _).
    assert (well_shaped kept_segment ∧ shape0 kept_segment = shape0 waveform ∧
            shape1 kept_segment = shape1 waveform ∧
            (Z.of_nat (shape2 kept_segment) ≤ gap)%Z) as (Hwk & Hk0 & Hk1 & Hk2).
    { subst kept_segment. destruct (Z.ltb_spec 0 kept).
      - split; [by apply well_shaped_slice_samples|]. split; [done|]. split; [done|].
        simpl. rewrite slice_length_nonneg by lia. lia.
      - split; [apply well_shaped_zeros|]. simpl. split; [done|]. split; [done|lia]. }
    destruct (append_segment_spec fade_samples result kept_segment)
      as (r1 & -> & Hw1 & H10 & H11 & H12); [done|done|congruence|congruence|].
    set (segment := slice_samples (Some s) (Some e) waveform).
    assert (shape2 segment = Z.to_nat (e - s)) as Hseg.
    { simpl. rewrite slice_length_nonneg by lia. lia. }
    destruct (append_segment_spec fade_samples r1 segment)
      as (r2 & -> & Hw2 & H20 & H21 & H22);
      [done|by apply well_shaped_slice_samples|simpl; congruence|simpl; congruence|].
    eexists. split; [done|]. simpl. split; [|done].
    split; [done|]. split; [congruence|]. split; [congruence|]. split; [lia|done].
  - cbn [trim_step]. eexists. split; [done|]. simpl. split; [|done].
    split; [by apply well_shaped_slice_samples|]. split; [done|]. split; [done|].
    split; [|done]. rewrite slice_length_nonneg by lia. lia.
Qed.

Lemma trim_loop_spec waveform keep_silence_samples fade_samples regions st last :
  well_shaped waveform → (0 ≤ last)%Z →
  ordered last regions (Z.of_nat (shape2 waveform)) →
  trim_inv waveform st last →
  ∃ st' last',
    trim_loop waveform keep_silence_samples fade_samples regions st = inr st' ∧
    trim_inv waveform st' last' ∧ (last' ≤ Z.of_nat (shape2 waveform))%Z ∧
    (regions ≠ [] → is_Some st'.1.1).
Proof.
  intros Hw. revert st last.
  induction regions as [|[s e] rest IH]; intros st last Hlast Hord Hinv.
  { exists st, last. by split_and!. }
  destruct Hord as (Hs & He & Hrest). simpl in Hs, He, Hrest.
  pose proof (ordered_bounds _ _ _ Hrest) as HT.
  destruct (trim_step_spec waveform keep_silence_samples fade_samples st last s e)
    as (st1 & Hst1 & Hinv1 & Hsome); try done.
  destruct (IH st1 e) as (st' & last' & Hloop & Hinv' & Hlast' & Hne); try done; [lia|].
  exists st', last'. cbn [trim_loop]. rewrite Hst1. split; [done|].
  split; [done|]. split; [done|]. intros _.
  destruct rest as [|x rest]; [|by apply Hne].
  simpl in Hloop. by injection Hloop as <-.
Qed.

Lemma scan_windows_silent is_sound i hop_length min_silence_samples regions cs :
  Forall (λ is_active, is_active = false) is_sound →
  scan_windows is_sound i hop_length min_silence_samples regions false cs
  = (regions, false, cs).
Proof.
  intros Hall. revert i. induction Hall as [|x rest -> _ IH]; intros i; [done|].
  simpl. apply IH.
Qed.

Lemma energy_profile_returns (waveform : @Tensor f32) window_size hop_length :
  well_shaped waveform → 0 < shape0 waveform → 0 < shape1 waveform →
  (0 < hop_length)%Z → (window_size ≤ Z.of_nat (shape2 waveform) + hop_length)%Z →
  ∃ energy, _get_energy_profile waveform window_size hop_length = inr energy.
Proof.
  intros [Hlen _] Hb Hc Hhop Hwin. unfold _get_energy_profile.
  destruct (Nat.eqb_spec (shape1 waveform) 0) as [?|_]; [lia|].
  destruct (Z.eqb_spec hop_length 0) as [?|_]; [lia|].
  set (q := ((Z.of_nat (shape2 waveform) - window_size) / hop_length)%Z).
  assert (-1 ≤ q)%Z as Hq by (apply Z.div_le_lower_bound; lia).
  destruct (Z.ltb_spec (q + 1) 0) as [?|_]; [lia|].
  destruct (Z.eqb_spec (q + 1) 0) as [_|_]; [by eexists|].
  destruct (lookup_lt_is_Some_2 (data waveform) 0) as [m ->]; [lia|]. by eexists.
Qed.

(** X20: [trim_silence] returns, and what it returns is never longer than the
    input: for a well-shaped waveform with at least one batch element, one
    channel and one sample, long enough for the window arithmetic, the
    result is a well-shaped waveform with the same batch and channel counts,
    the same sample rate, and at most as many samples. *)
Theorem trim_silence_never_longer audio threshold_db min_silence_duration keep_silence
    fade_duration t sample_rate min_silence_samples keep_silence_samples fade_samples
    window_size hop_length :
  audio_waveform audio = Some t → audio_sample_rate audio = Some sample_rate →
  well_shaped t → 0 < shape0 t → 0 < shape1 t → 0 < shape2 t → sample_rate ≠ 0%Z →
  int_of_product min_silence_duration sample_rate = inr min_silence_samples →
  int_of_product keep_silence sample_rate = inr keep_silence_samples →
  int_of_product fade_duration sample_rate = inr fade_samples →
  int_of_product window_duration sample_rate = inr window_size →
  int_of_product hop_duration sample_rate = inr hop_length →
  (0 ≤ window_size)%Z → (0 < hop_length)%Z →
  (window_size ≤ Z.of_nat (shape2 t) + hop_length)%Z →
  ∃ u, trim_silence audio threshold_db min_silence_duration keep_silence fade_duration
       = inr {| audio_waveform := Some u; audio_sample_rate := Some sample_rate |} ∧
       well_shaped u ∧ shape0 u = shape0 t ∧ shape1 u = shape1 t ∧
       (shape2 u ≤ shape2 t)%nat.
Proof.
  intros Hwav Hsr Ht Hb Hc Hn Hsr0 Hmin Hkeep Hfade Hwin Hhop Hw Hh Hlong.
  assert (audio = {| audio_waveform := Some t; audio_sample_rate := Some sample_rate |})
    as Haudio by (destruct audio; simpl in *; congruence).
  unfold trim_silence. rewrite Hwav, Hsr, Hmin, Hkeep, Hfade.
  unfold _find_non_silent_regions. rewrite Hwin, Hhop.
  destruct (energy_profile_returns t window_size hop_length) as [energy He]; try done.
  rewrite He.
  set (regions := regions_of_windows _ _ _ _).
  assert (ordered 0 regions (Z.of_nat (shape2 t))) as Hord.
  { apply regions_of_windows_ordered; [done|lia|]. rewrite length_fmap.
    by apply (length_energy_profile t window_size). }
  destruct (decide (regions = [])) as [Hnil|Hne].
  { rewrite bool_decide_eq_true_2 by done. exists t. by rewrite Haudio. }
  rewrite bool_decide_eq_false_2 by done.
  destruct (trim_loop_spec t keep_silence_samples fade_samples regions (None, 0%Z, 0%Z) 0)
    as (st' & last' & -> & Hinv & Hlast & Hsome); try done.
  destruct (Hsome Hne) as [u Hu]. destruct st' as [[result removed] last_end].
  simpl in Hu. subst result. destruct Hinv as (Hwu & Hu0 & Hu1 & Hu2 & _).
  destruct (Z.eqb_spec sample_rate 0) as [?|_]; [done|].
  destruct (Nat.eqb_spec (shape2 t) 0) as [?|_]; [lia|]. simpl.
  exists u. split; [done|]. split; [done|]. split; [done|]. split; [done|lia].
Qed.

(** X21: On a waveform more than one hop shorter than the analysis window,
    [trim_silence] raises [RuntimeError]: the number of windows comes out
    negative and [torch.zeros] refuses it. At 44100 Hz this is any audio of
    fewer than 441 samples. *)
Theorem trim_silence_raises_on_short_audio audio threshold_db min_silence_duration
    keep_silence fade_duration t sample_rate min_silence_samples keep_silence_samples
    fade_samples window_size hop_length :
  audio_waveform audio = Some t → audio_sample_rate audio = Some sample_rate →
  0 < shape1 t →
  int_of_product min_silence_duration sample_rate = inr min_silence_samples →
  int_of_product keep_silence sample_rate = inr keep_silence_samples →
  int_of_product fade_duration sample_rate = inr fade_samples →
  int_of_product window_duration sample_rate = inr window_size →
  int_of_product hop_duration sample_rate = inr hop_length →
  (0 < hop_length)%Z → (Z.of_nat (shape2 t) + hop_length < window_size)%Z →
  trim_silence audio threshold_db min_silence_duration keep_silence fade_duration
  = inl (Builtin RuntimeError).
Proof.
  intros Hwav Hsr Hc Hmin Hkeep Hfade Hwin Hhop Hh Hshort.
  unfold trim_silence. rewrite Hwav, Hsr, Hmin, Hkeep, Hfade.
  unfold _find_non_silent_regions. rewrite Hwin, Hhop.
  unfold _get_energy_profile.
  destruct (Nat.eqb_spec (shape1 t) 0) as [?|_]; [lia|].
  destruct (Z.eqb_spec hop_length 0) as [?|_]; [lia|].
  set (q := ((Z.of_nat (shape2 t) - window_size) / hop_length)%Z).
  assert (q < -1)%Z as Hq by (apply Z.div_lt_upper_bound; lia).
  by destruct (Z.ltb_spec (q + 1) 0) as [_|?]; [|lia].
Qed.

(** X22: When no window of the energy profile is above the threshold (none at
    all included, as for a waveform shorter than one window), [trim_silence]
    returns the [audio] it was given. *)
Theorem trim_silence_keeps_silent_audio audio threshold_db min_silence_duration
    keep_silence fade_duration t sample_rate min_silence_samples keep_silence_samples
    fade_samples window_size hop_length energy :
  audio_waveform audio = Some t → audio_sample_rate audio = Some sample_rate →
  int_of_product min_silence_duration sample_rate = inr min_silence_samples →
  int_of_product keep_silence sample_rate = inr keep_silence_samples →
  int_of_product fade_duration sample_rate = inr fade_samples →
  int_of_product window_duration sample_rate = inr window_size →
  int_of_product hop_duration sample_rate = inr hop_length →
  _get_energy_profile t window_size hop_length = inr energy →
  Forall (λ e, louder e threshold_db = false) energy →
  trim_silence audio threshold_db min_silence_duration keep_silence fade_duration
  = inr audio.
Proof.
  intros Hwav Hsr Hmin Hkeep Hfade Hwin Hhop He Hquiet.
  unfold trim_silence. rewrite Hwav, Hsr, Hmin, Hkeep, Hfade.
  unfold _find_non_silent_regions. rewrite Hwin, Hhop, He.
  unfold regions_of_windows. rewrite scan_windows_silent; [done|].
  by apply Forall_fmap.
Qed.

(** X16: The regions that [_find_non_silent_regions] returns, read one by one:
    each lies inside the waveform with [start <= end], and of two
    consecutive ones the second starts at or after the end of the first
    and more than [min_silence_samples] after it. *)
Theorem find_non_silent_regions_in_order waveform threshold_db min_silence_samples
    sample_rate window_size hop_length regions :
  int_of_product window_duration sample_rate = inr window_size →
  int_of_product hop_duration sample_rate = inr hop_length →
  (0 ≤ window_size)%Z → (0 < hop_length)%Z →
  _find_non_silent_regions waveform threshold_db min_silence_samples sample_rate
  = inr regions →
  (∀ i a, regions !! i = Some a →
          (0 ≤ a.1 ∧ a.1 ≤ a.2 ∧ a.2 ≤ Z.of_nat (shape2 waveform))%Z) ∧
  (∀ i a b, regions !! i = Some a → regions !! S i = Some b →
            (a.2 ≤ b.1 ∧ min_silence_samples < b.1 - a.2)%Z).
Proof.
  intros Hw Hh Hwin Hhop Hfind.
  destruct (find_non_silent_regions_ordered _ _ _ _ _ _ _ Hw Hh Hwin Hhop Hfind)
    as [Hord Hsep].
  split.
  - clear Hsep Hfind. revert Hord. generalize 0%Z at 1 2.
    induction regions as [|x regions IH]; intros lo Hord i a Ha; [done|].
    destruct Hord as (Hlo & Hx & Hrest). pose proof (ordered_bounds _ _ _ Hrest).
    destruct i as [|i]; simpl in Ha.
    + injection Ha as <-. lia.
    + destruct (IH _ Hrest i a Ha). lia.
  - intros i a b Ha Hb. split; [|by apply (separated_lookup _ regions i)].
    clear Hsep Hfind. revert i Ha Hb Hord. generalize 0%Z.
    induction regions as [|x regions IH]; intros lo i Ha Hb Hord; [done|].
    destruct Hord as (Hlo & Hx & Hrest). destruct i as [|i]; simpl in Ha, Hb.
    + injection Ha as <-. destruct regions as [|y regions]; [done|].
      injection Hb as <-. by destruct Hrest.
    + by apply (IH x.2 i).
Qed.

(** *** Gain and pitch *)

Lemma cat_spec (ts : list (@Tensor f32)) B C :
  ts ≠ [] → Forall (λ x, well_shaped x ∧ shape0 x = B ∧ shape1 x = C) ts →
  ∃ r, cat ts = inr r ∧ well_shaped r ∧ shape0 r = B ∧ shape1 r = C ∧
       shape2 r = sum_list (shape2 <$> ts) ∧
       ∀ b c chs, Forall2 (λ x ch, channel (data x) b c = Some ch) ts chs →
                  channel (data r) b c = Some (concat chs).
Proof.
  induction ts as [|t ts IH]; [done|]. intros _ Hall.
  apply Forall_cons in Hall as [(Hwt & Ht0 & Ht1) Hall].
  destruct ts as [|t' ts].
  - exists t. simpl. split; [done|]. split; [done|]. split; [done|]. split; [done|].
    split; [lia|]. intros b c chs Hchs.
    apply Forall2_cons_inv_l in Hchs as (ch & chs' & Hch & Hnil & ->).
    apply Forall2_nil_inv_l in Hnil as ->. simpl. by rewrite app_nil_r.
  - destruct IH as (u & Hu & Hwu & Hu0 & Hu1 & Hu2 & Hchu); [done|done|].
    change (cat (t :: t' :: ts))
      with (match cat (t' :: ts) with inl e => inl e | inr u => cat2 t u end).
    rewrite Hu.
    destruct (cat2_spec t u) as (r & Hr & Hr0 & Hr1 & Hr2 & Hwr & Hchr);
      [congruence|congruence|].
    exists r. split; [done|]. split; [by apply Hwr|]. split; [congruence|].
    split; [congruence|]. split.
    { rewrite Hr2, Hu2. done. }
    intros b c chs Hchs.
    apply Forall2_cons_inv_l in Hchs as (ch & chs' & Hch & Hrest & ->).
    simpl. apply Hchr; [done|]. by apply Hchu.
Qed.

Lemma take_chunk {A} (l : list A) cs i :
  take ((i * cs + cs) `min` length l - i * cs) (drop (i * cs) l)
  = take cs (drop (i * cs) l).
Proof.
  destruct (decide (i * cs + cs ≤ length l)%nat) as [Hle|Hgt].
  - f_equal. lia.
  - rewrite !take_ge; [done| |]; rewrite length_drop; lia.
Qed.

Lemma concat_chunks {A} (l : list A) cs k :
  concat ((λ i, take cs (drop (i * cs) l)) <$> seq 0 k) = take (k * cs) l.
Proof.
  induction k as [|k IH]; [done|].
  rewrite seq_S, fmap_app, concat_app, IH. simpl. rewrite app_nil_r.
  replace (cs + k * cs) with (k * cs + cs) by lia.
  by rewrite take_take_drop.
Qed.

Lemma concat_chunks_fmap {A B} (g : A → B) (l : list A) cs k :
  concat ((λ i, g <$> take cs (drop (i * cs) l)) <$> seq 0 k) = g <$> take (k * cs) l.
Proof.
  induction k as [|k IH]; [done|].
  rewrite seq_S, fmap_app, concat_app, IH. simpl. rewrite app_nil_r.
  replace (cs + k * cs) with (k * cs + cs) by lia.
  by rewrite <- fmap_app, take_take_drop.
Qed.

Lemma sum_list_snoc l x : sum_list (l ++ [x]) = sum_list l + x.
Proof. induction l as [|y l IH]; simpl; lia. Qed.

Lemma sum_chunks cs n k :
  sum_list ((λ i, (i * cs + cs) `min` n - i * cs) <$> seq 0 k) = (k * cs) `min` n.
Proof.
  induction k as [|k IH]; [done|].
  rewrite seq_S, fmap_app. simpl. rewrite sum_list_snoc, IH. lia.
Qed.

Lemma num_chunks_covers total chunk_size :
  (0 < chunk_size)%Z → (0 ≤ total)%Z →
  let k := ((total + chunk_size - 1) / chunk_size)%Z in
  ((0 ≤ k)%Z ∧ (total ≤ k * chunk_size)%Z ∧ ((k - 1) * chunk_size < total)%Z) ∨
  (total = 0%Z ∧ k = 0%Z).
Proof.
  intros Hcs Htotal k.
  pose proof (Z.mul_div_le (total + chunk_size - 1) chunk_size Hcs).
  pose proof (Z.mul_succ_div_gt (total + chunk_size - 1) chunk_size Hcs).
  fold k in H, H0. destruct (decide (total = 0%Z)) as [->|Hne].
  - right. split; [done|]. nia.
  - left. nia.
Qed.

(** X23: Without pitch shift the chunking is invisible: for a non-empty
    waveform and a positive chunk size, [process_audio] returns the
    waveform with the gain applied to every sample, with the same shape and
    sample rate. *)
Theorem gain_without_pitch_is_samplewise audio gain pitch chunk_size t sample_rate
    gain_factor :
  audio_waveform audio = Some t → audio_sample_rate audio = Some sample_rate →
  well_shaped t → 0 < shape2 t → (0 < chunk_size)%Z →
  gain_factor_of gain = inr gain_factor → nonzero pitch = false →
  ∃ u, GainPitch_process_audio audio gain pitch chunk_size
       = inr {| audio_waveform := Some u; audio_sample_rate := Some sample_rate |} ∧
       well_shaped u ∧ same_shape u t ∧
       ∀ b c ch, channel (data t) b c = Some ch →
                 channel (data u) b c = Some (amplify gain_factor <$> ch).
Proof.
  intros Hwav Hsr Ht Hn Hcs Hgain Hpitch. unfold GainPitch_process_audio.
  rewrite Hwav, Hsr, Hgain, Hpitch.
  destruct (Z.eqb_spec chunk_size 0) as [?|_]; [lia|].
  destruct (num_chunks_covers (Z.of_nat (shape2 t)) chunk_size)
    as [(Hk0 & Hk1 & Hk2)|[? _]]; [done|lia| |lia].
  set (k := Z.to_nat ((Z.of_nat (shape2 t) + chunk_size - 1) / chunk_size)).
  set (cs := Z.to_nat chunk_size).
  assert (shape2 t ≤ k * cs ∧ 0 < k ∧ 0 < cs)%nat as (Hcover & Hkpos & Hcspos)
    by (subst k cs; nia).
  set (chunks := _ <$> seq 0 k).
  assert (chunks = (λ i, on_channels (fmap (amplify gain_factor))
                          ((i * cs + cs) `min` shape2 t - i * cs)
                          (on_channels (λ ch, take cs (drop (i * cs) ch))
                             ((i * cs + cs) `min` shape2 t - i * cs) t))
                   <$> seq 0 k) as Hchunks.
  { subst chunks. apply Forall_fmap_ext_1, Forall_forall. intros i Hi.
    apply elem_of_seq in Hi as [_ Hi]. unfold process_chunk.
    assert (i * cs < shape2 t)%nat as Hstart by (subst k cs; nia).
    replace (Z.of_nat i * chunk_size)%Z with (Z.of_nat (i * cs)) by (subst cs; nia).
    replace (Z.min (Z.of_nat (i * cs) + chunk_size) (Z.of_nat (shape2 t)))
      with (Z.of_nat ((i * cs + cs) `min` shape2 t)) by (subst cs; lia).
    unfold slice_samples.
    assert (slice_length (shape2 t) (Some (Z.of_nat (i * cs)))
              (Some (Z.of_nat ((i * cs + cs) `min` shape2 t)))
            = (i * cs + cs) `min` shape2 t - i * cs) as ->.
    { rewrite slice_length_nonneg by lia. lia. }
    simpl. f_equal. unfold on_channels. f_equal.
    destruct Ht as [_ Hall]. apply Forall_fmap_ext_1.
    eapply Forall_impl; [exact Hall|]. intros m [_ Hchs]. simpl.
    apply Forall_fmap_ext_1. eapply Forall_impl; [exact Hchs|]. intros ch Hch.
    simpl in Hch. simpl.
    rewrite py_slice_in_range by lia. rewrite <- Hch. apply take_chunk. }
  rewrite Hchunks. clear chunks Hchunks.
  set (chunks := _ <$> seq 0 k).
  destruct (cat_spec chunks (shape0 t) (shape1 t))
    as (u & -> & Hwu & Hu0 & Hu1 & Hu2 & Hchu).
  { subst chunks. destruct k; [lia|]. done. }
  { subst chunks. apply Forall_fmap, Forall_forall. intros i _. simpl.
    split; [|done]. apply well_shaped_on_channels.
    - apply well_shaped_on_channels; [done|]. intros ch Hch.
      rewrite <- Hch, <- take_chunk, length_take, length_drop. lia.
    - intros ch Hch. by rewrite length_fmap. }
  exists u. split; [done|]. split; [done|]. split.
  { split; [done|]. split; [done|]. rewrite Hu2. subst chunks.
    rewrite <- list_fmap_compose.
    change (sum_list ((λ i, (i * cs + cs) `min` shape2 t - i * cs) <$> seq 0 k)
            = shape2 t).
    rewrite (sum_chunks cs (shape2 t) k). lia. }
  intros b c ch Hch. pose proof (channel_length _ _ _ _ Ht Hch) as Hl.
  rewrite (Hchu b c ((λ i, amplify gain_factor <$> take cs (drop (i * cs) ch))
                     <$> seq 0 k)).
  - f_equal. rewrite concat_chunks_fmap. f_equal. apply take_ge. lia.
  - subst chunks. apply Forall2_fmap, Forall_Forall2_diag, Forall_forall.
    intros i _. by rewrite !channel_on_channels, Hch.
Qed.

(** X24: Empty audio makes [process_audio] raise [ValueError]: with no sample
    there is no chunk, and [torch.cat] refuses an empty list. *)
Theorem gain_pitch_raises_on_empty_audio audio gain pitch chunk_size t sample_rate
    gain_factor :
  audio_waveform audio = Some t → audio_sample_rate audio = Some sample_rate →
  shape2 t = 0 → (0 < chunk_size)%Z →
  gain_factor_of gain = inr gain_factor →
  (nonzero pitch = true → ∃ resample, resampler_for pitch sample_rate = inr resample) →
  GainPitch_process_audio audio gain pitch chunk_size = inl (Builtin ValueError).
Proof.
  intros Hwav Hsr Hn Hcs Hgain Hpitch. unfold GainPitch_process_audio.
  rewrite Hwav, Hsr, Hgain, Hn.
  destruct (Z.eqb_spec chunk_size 0) as [?|_]; [lia|].
  replace ((Z.of_nat 0 + chunk_size - 1) / chunk_size)%Z with 0%Z
    by (symmetry; apply Z.div_small; lia).
  destruct (nonzero pitch); [|done].
  by destruct (Hpitch eq_refl) as [resample ->].
Qed.

(** *** The preview's downsampled waveform *)

Lemma peaks_from_spec audio_data block_size fuel i peaks :
  (1 ≤ block_size)%Z → (0 ≤ i)%Z →
  let total_samples := Z.of_nat (length audio_data) in
  peaks_from audio_data block_size total_samples fuel i peaks
  = peaks ++
    ((λ j, let block_start :=
             Z.min ((i + Z.of_nat j) * block_size) (total_samples - 1) in
           let block_end := Z.min (block_start + block_size) total_samples in
           mean_abs (py_slice (Some block_start) (Some block_end) audio_data))
     <$> seq 0 fuel).
Proof.
  intros Hbs. revert i peaks. induction fuel as [|fuel IH]; intros i peaks Hi total.
  { simpl. by rewrite app_nil_r. }
  cbn [peaks_from]. cbv zeta. fold total.
  destruct (Z.leb_spec (Z.min (Z.min (i * block_size) (total - 1) + block_size) total)
              (Z.min (i * block_size) (total - 1))) as [Hbreak|_].
  { subst total. nia. }
  rewrite IH by lia. fold total. rewrite <- app_assoc. f_equal.
  cbn [seq fmap list_fmap]. simpl. f_equal.
  { by rewrite Z.add_0_r. }
  rewrite <- seq_shift, <- list_fmap_compose. apply Forall_fmap_ext_1, Forall_forall.
  intros j _. simpl.
  by replace (i + 1 + Z.of_nat j)%Z with (i + Z.pos (Pos.of_succ_nat j))%Z by lia.
Qed.

(** X25: [process_waveform] returns exactly [num_samples] peaks and every one of
    them is the mean of a block of the signal: the loop is never left
    early, so the padding value is never used, also when the signal has
    fewer samples than peaks are asked for. *)
Theorem downsample_never_pads num_samples audio_data :
  0 < num_samples →
  let total_samples := Z.of_nat (length audio_data) in
  let block_size := Z.max 1 (total_samples / Z.of_nat num_samples) in
  ∃ peaks, downsample num_samples audio_data = inr peaks ∧
           length peaks = num_samples ∧
           ∀ i, i < num_samples →
             let block_start :=
               Z.min (Z.of_nat i * block_size) (total_samples - 1) in
             let block_end := Z.min (block_start + block_size) total_samples in
             peaks !! i
             = Some (mean_abs (py_slice (Some block_start) (Some block_end)
                                 audio_data)).
Proof.
  intros Hn total block_size. unfold downsample. fold total block_size.
  destruct (Nat.eqb_spec num_samples 0) as [?|_]; [lia|].
  rewrite peaks_from_spec by lia. fold total. simpl.
  rewrite length_fmap, length_seq, Nat.sub_diag. simpl. rewrite app_nil_r.
  eexists. split; [done|]. split; [by rewrite length_fmap, length_seq|].
  intros i Hi. rewrite list_lookup_fmap, lookup_seq_lt by done. done.
Qed.

(** X26: For an empty signal every peak is the mean of an empty block (which
    numpy evaluates to [nan]), not the minimum height. *)
Theorem downsample_of_empty_signal num_samples :
  0 < num_samples →
  downsample num_samples [] = inr (replicate num_samples (mean_abs [])).
Proof.
  intros Hn. unfold downsample.
  destruct (Nat.eqb_spec num_samples 0) as [?|_]; [lia|].
  rewrite peaks_from_spec by (simpl; lia). simpl.
  rewrite length_fmap, length_seq, Nat.sub_diag. simpl. rewrite app_nil_r.
  f_equal. transitivity ((λ _, mean_abs []) <$> seq 0 num_samples).
  { apply Forall_fmap_ext_1, Forall_forall. intros j _. simpl.
    unfold py_slice. by rewrite drop_nil, take_nil. }
  clear Hn. generalize 0. induction num_samples as [|n IH]; intros k; [done|].
  simpl. f_equal. apply IH.
Qed.

(** *** The equalizer *)

Lemma slice_bounds_range len lo hi :
  (0 ≤ (slice_bounds len lo hi).1 ≤ Z.of_nat len)%Z ∧
  (0 ≤ (slice_bounds len lo hi).2 ≤ Z.of_nat len)%Z.
Proof.
  unfold slice_bounds. simpl.
  pose proof (slice_index_range (Z.of_nat len)) as Hr.
  destruct lo as [a|], hi as [b|]; simpl;
    try pose proof (Hr a ltac:(lia)); try pose proof (Hr b ltac:(lia)); lia.
Qed.

Lemma add_into_spec (output_buffer chunk : @Tensor f32) start end_ :
  well_shaped output_buffer → well_shaped chunk →
  same_shape chunk (slice_samples (Some start) (Some end_) output_buffer) →
  ∃ r, add_into output_buffer chunk start end_ = inr r ∧
       well_shaped r ∧ same_shape r output_buffer.
Proof.
  intros Hwb Hwc Hsame. unfold add_into.
  set (view := slice_samples (Some start) (Some end_) output_buffer) in *.
  assert (well_shaped view) as Hwv by by apply well_shaped_slice_samples.
  rewrite (elementwise_same fadd view chunk); [|done|done|].
  2:{ destruct Hsame as (? & ? & ?). by split_and!. }
  cbn [shape0 shape1 shape2]. rewrite !Nat.eqb_refl. cbn [andb].
  eexists. split; [done|]. split; [|done].
  set (summed := {| shape0 := shape0 view; shape1 := shape1 view;
                    shape2 := shape2 view;
                    data := zip_with (zip_with (zip_with fadd)) (data view)
                              (data chunk) |}).
  assert (well_shaped summed) as Hws.
  { destruct Hsame as (H0 & H1 & H2).
    apply (well_shaped_zip_with (zip_with fadd) view chunk); try done.
    intros ch1 ch2 Hl1 Hl2. rewrite length_zip_with. lia. }
  apply (well_shaped_zip_with _ output_buffer summed); try done.
  intros ch s Hch Hs. simpl in Hs.
  destruct (slice_bounds_range (shape2 output_buffer) (Some start) (Some end_))
    as [Ha Hb].
  assert (shape2 view = slice_length (shape2 output_buffer) (Some start) (Some end_))
    as Hv by done.
  rewrite !length_app, length_take, length_drop, Hch, Hs, Hv.
  unfold slice_length. lia.
Qed.

Lemma apply_bands_spec chunk sample_rate bands_gains :
  (∀ c rate freq g, well_shaped c →
     ∃ c', equalizer_biquad c rate freq g = inr c' ∧ well_shaped c' ∧ same_shape c' c) →
  well_shaped chunk →
  ∃ c', apply_bands chunk sample_rate bands_gains = inr c' ∧
        well_shaped c' ∧ same_shape c' chunk.
Proof.
  intros Hbiquad. revert chunk.
  induction bands_gains as [|[freq g] rest IH]; intros chunk Hw.
  { by exists chunk. }
  simpl. destruct (nonzero (times_12 g)); [|by apply IH].
  destruct (Hbiquad chunk sample_rate freq (times_12 g) Hw) as (c & -> & Hwc & Hsc).
  destruct (IH c Hwc) as (c' & Hc' & Hwc' & Hsc').
  exists c'. split; [done|]. split; [done|].
  destruct Hsc as (? & ? & ?), Hsc' as (? & ? & ?). split_and!; congruence.
Qed.

Lemma length_hann_window n : length (hann_window n) = n.
Proof. unfold hann_window. by rewrite length_fmap, length_seq. Qed.

Lemma well_shaped_fade_start overlap fade_in (chunk : @Tensor f32) :
  well_shaped chunk → (0 ≤ overlap < Z.of_nat (shape2 chunk))%Z →
  length fade_in = Z.to_nat overlap →
  well_shaped (fade_start overlap fade_in chunk).
Proof.
  intros Hw Hov Hfade. apply well_shaped_on_channels; [done|]. intros ch Hch.
  rewrite py_slice_first, py_slice_from by lia.
  rewrite length_app, length_zip_with, length_take, length_drop. lia.
Qed.

Lemma well_shaped_fade_end overlap fade_out (chunk : @Tensor f32) :
  well_shaped chunk → (0 < overlap < Z.of_nat (shape2 chunk))%Z →
  length fade_out = Z.to_nat overlap →
  well_shaped (fade_end overlap fade_out chunk).
Proof.
  intros Hw Hov Hfade. apply well_shaped_on_channels; [done|]. intros ch Hch.
  rewrite py_slice_last, py_slice_but_last by lia.
  rewrite length_app, length_zip_with, length_take, length_drop. lia.
Qed.

Lemma equalize_chunk_spec output sample_rate bands_gains overlap total_samples
    num_chunks fade_in fade_out output_buffer chunk_size i :
  (∀ c rate freq g, well_shaped c →
     ∃ c', equalizer_biquad c rate freq g = inr c' ∧ well_shaped c' ∧ same_shape c' c) →
  (0 < overlap)%Z →
  length fade_in = Z.to_nat overlap → length fade_out = Z.to_nat overlap →
  well_shaped output → well_shaped output_buffer → same_shape output_buffer output →
  ∃ st, equalize_chunk output sample_rate bands_gains overlap total_samples num_chunks
          fade_in fade_out (output_buffer, chunk_size) i = inr st ∧
        well_shaped st.1 ∧ same_shape st.1 output.
Proof.
  intros Hbiquad Hov Hin Hout Hwo Hwb Hsame. unfold equalize_chunk.
  set (start := (i * (chunk_size - overlap))%Z).
  set (end_ := Z.min (start + chunk_size) total_samples).
  set (chunk := slice_samples (Some start) (Some end_) output).
  destruct (apply_bands_spec chunk sample_rate bands_gains Hbiquad)
    as (c & -> & Hwc & Hsc); [by apply well_shaped_slice_samples|].
  set (faded1 := if (0 <? i)%Z then _ else _).
  assert (well_shaped faded1.1 ∧ same_shape faded1.1 chunk) as [Hw1 Hs1].
  { subst faded1. destruct (0 <? i)%Z; [|done]. simpl.
    destruct (Z.ltb_spec overlap (Z.of_nat (shape2 c))); [|done].
    split; [apply well_shaped_fade_start; [done|lia|done]|done]. }
  destruct faded1 as [c1 size1]. simpl in Hw1, Hs1.
  set (faded2 := if (i <? num_chunks - 1)%Z then _ else _).
  assert (well_shaped faded2.1 ∧ same_shape faded2.1 chunk) as [Hw2 Hs2].
  { subst faded2. destruct (i <? num_chunks - 1)%Z; [|done]. simpl.
    destruct (Z.ltb_spec overlap (Z.of_nat (shape2 c1))); [|done].
    split; [apply well_shaped_fade_end; [done|lia|done]|done]. }
  destruct faded2 as [c2 size2]. simpl in Hw2, Hs2.
  destruct (add_into_spec output_buffer c2 start end_) as (r & -> & Hwr & Hsr);
    [done|done| |].
  { destruct Hs2 as (? & ? & ?), Hsame as (? & ? & H2).
    split_and!; simpl in *; congruence. }
  eexists. split; [done|]. simpl. split; [done|].
  destruct Hsr as (? & ? & ?), Hsame as (? & ? & ?). split_and!; congruence.
Qed.

Lemma equalize_chunks_spec output sample_rate bands_gains overlap total_samples
    num_chunks fade_in fade_out indices st :
  (∀ c rate freq g, well_shaped c →
     ∃ c', equalizer_biquad c rate freq g = inr c' ∧ well_shaped c' ∧ same_shape c' c) →
  (0 < overlap)%Z →
  length fade_in = Z.to_nat overlap → length fade_out = Z.to_nat overlap →
  well_shaped output → well_shaped st.1 → same_shape st.1 output →
  ∃ st', equalize_chunks output sample_rate bands_gains overlap total_samples
           num_chunks fade_in fade_out indices st = inr st' ∧
         well_shaped st'.1 ∧ same_shape st'.1 output.
Proof.
  intros Hbiquad Hov Hin Hout Hwo. revert st.
  induction indices as [|i rest IH]; intros [buffer size] Hwb Hsame.
  { by eexists. }
  cbn [equalize_chunks].
  destruct (equalize_chunk_spec output sample_rate bands_gains overlap total_samples
              num_chunks fade_in fade_out buffer size (Z.of_nat i))
    as (st1 & -> & Hw1 & Hs1); try done.
  by apply IH.
Qed.

(** X27: An input of at most 1024 samples (the overlap) gets no chunk at all,
    and the equalizer returns silence of the same shape instead of the
    audio, whatever the band gains: nothing is added to the zero-filled
    output buffer, whose RMS is not above the floor. *)
Theorem equalizer_silences_short_audio audio kwargs t sample_rate w gains :
  audio_waveform audio = Some t → audio_sample_rate audio = Some sample_rate →
  (if (sample_rate =? 44100)%Z then inr t
   else tfaudio_resample t sample_rate 44100%Z) = inr w →
  mapM kwargs ["band1"; "band2"; "band3"; "band4"; "band5"; "band6"; "band7"]
  = Some gains →
  (shape2 w ≤ 1024)%nat →
  above_floor (rms_of (zeros (shape0 w) (shape1 w) (shape2 w))) = false →
  Equalizer_process_audio audio kwargs
  = inr {| audio_waveform := Some (zeros (shape0 w) (shape1 w) (shape2 w));
           audio_sample_rate := Some 44100%Z |}.
Proof.
  intros Hwav Hsr Hres Hgains Hshort Hfloor. unfold Equalizer_process_audio.
  rewrite Hwav, Hsr, Hres, Hgains. cbv zeta.
  set (q := ((Z.of_nat (shape2 w) - 1024) / (44100 * 30 - 1024))%Z).
  assert (Z.to_nat (if (q * (44100 * 30 - 1024) + 1024 <? Z.of_nat (shape2 w))%Z
                    then q + 1 else q) = 0) as ->.
  { pose proof (Z.mul_div_le (Z.of_nat (shape2 w) - 1024) (44100 * 30 - 1024)
                  ltac:(lia)) as Hlo.
    pose proof (Z.mul_succ_div_gt (Z.of_nat (shape2 w) - 1024) (44100 * 30 - 1024)
                  ltac:(lia)) as Hhi.
    fold q in Hlo, Hhi.
    destruct (Z.ltb_spec (q * (44100 * 30 - 1024) + 1024) (Z.of_nat (shape2 w))); lia. }
  cbn [seq equalize_chunks shape0 shape1 shape2 on_channels].
  by rewrite Hfloor.
Qed.

(** X28: As long as the biquad filter returns a tensor of the shape it was
    given, [process_audio] returns, and its result has the shape of the
    waveform it works on (the input, resampled to 44100 Hz if need be):
    adding the chunks into the output buffer never fails. *)
Theorem equalizer_keeps_shape audio kwargs t sample_rate w gains :
  audio_waveform audio = Some t → audio_sample_rate audio = Some sample_rate →
  (if (sample_rate =? 44100)%Z then inr t
   else tfaudio_resample t sample_rate 44100%Z) = inr w →
  well_shaped w →
  mapM kwargs ["band1"; "band2"; "band3"; "band4"; "band5"; "band6"; "band7"]
  = Some gains →
  (∀ c rate freq g, well_shaped c →
     ∃ c', equalizer_biquad c rate freq g = inr c' ∧ well_shaped c' ∧ same_shape c' c) →
  ∃ u, Equalizer_process_audio audio kwargs
       = inr {| audio_waveform := Some u; audio_sample_rate := Some 44100%Z |} ∧
       well_shaped u ∧ same_shape u w.
Proof.
  intros Hwav Hsr Hres Hw Hgains Hbiquad. unfold Equalizer_process_audio.
  rewrite Hwav, Hsr, Hres, Hgains. cbv zeta.
  set (output := on_channels (map attenuate) (shape2 w) w).
  assert (well_shaped output) as Hwo.
  { apply well_shaped_on_channels; [done|]. intros ch Hch. by rewrite length_map. }
  match goal with
  | |- context [equalize_chunks ?o ?r ?bg ?ov ?tot ?n ?fi ?fo ?idx ?st] =>
      destruct (equalize_chunks_spec o r bg ov tot n fi fo idx st)
        as ([buffer size] & -> & Hwb & Hsb)
  end; try done.
  - apply well_shaped_zeros.
  - simpl in Hwb, Hsb. destruct (above_floor (rms_of buffer)).
    + eexists. split; [done|]. split.
      * apply well_shaped_on_channels; [done|]. intros ch Hch. by rewrite length_map.
      * destruct Hsb as (? & ? & ?). by split_and!.
    + exists buffer. by split_and!.
Qed.

End editing.


(** ** Concrete runs of the editing nodes

    Samples are integers. A Python float is an integer number of hundredths,
    so that at 100 Hz a duration converts to as many samples; [int] rounds
    towards zero. *)

Definition hundredths (seconds sample_rate : Z) : raised + Z :=
  inr (Z.quot (seconds * sample_rate) 100).

Definition demo_le_zero (x : Z) : bool := (x <=? 0)%Z.

Definition demo_peak (xs : list Z) : Z :=
  foldr (λ x acc, Z.max (Z.abs x) acc) 0%Z xs.

Definition demo_mean (xs : list Z) : Z :=
  (demo_sum xs / Z.max 1 (Z.of_nat (length xs)))%Z.

Definition demo_louder (e threshold : Z) : bool := (threshold <? e)%Z.

Definition demo_linspace_at (a b : Z) (steps i : nat) : Z :=
  (a * 10 + (b - a) * 10 * Z.of_nat i / Z.max 1 (Z.of_nat steps - 1))%Z.

Definition demo_amplify (gain_factor x : Z) : Z :=
  Z.max (-100) (Z.min 100 (x * gain_factor)).

Definition demo_nonzero (x : Z) : bool := negb (x =? 0)%Z.

Definition demo_resampler_for (pitch sample_rate : Z)
  : raised + (@Tensor Z → @Tensor Z) := inr id.

Definition demo_rms_of (t : @Tensor Z) : Z := demo_peak (demo_peak <$> (mjoin (data t))).

Definition demo_kwargs (band : string) : option Z := Some 1%Z.

(** One channel of eight samples: two bursts of sound. *)
Definition speech : @Tensor Z :=
  {| shape0 := 1; shape1 := 1; shape2 := 8;
     data := [[[0; 0; 5; 7; 0; 0; 0; 6]]]%Z |}.

Definition speech_audio : @AudioDict Z :=
  {| audio_waveform := Some speech; audio_sample_rate := Some 100%Z |}.

Definition speech_44100 : @AudioDict Z :=
  {| audio_waveform := Some speech; audio_sample_rate := Some 44100%Z |}.

Definition quiet : @Tensor Z :=
  {| shape0 := 1; shape1 := 1; shape2 := 4; data := [[[0; 0; 0; 0]]]%Z |}.

Definition quiet_audio : @AudioDict Z :=
  {| audio_waveform := Some quiet; audio_sample_rate := Some 100%Z |}.

Definition empty_audio : @AudioDict Z :=
  {| audio_waveform := Some empty_main; audio_sample_rate := Some 100%Z |}.

Lemma trim_audio_is_a_segment_witness :
  ∃ (s e : nat) u,
    trim_audio hundredths demo_le_zero speech_audio 2%Z 6%Z
    = inr {| audio_waveform := Some u; audio_sample_rate := Some 100%Z |} ∧
    (s ≤ e)%nat ∧ (e ≤ shape2 speech)%nat ∧
    well_shaped u ∧ shape0 u = shape0 speech ∧ shape1 u = shape1 speech ∧
    shape2 u = e - s ∧
    (∀ b c ch, channel (data speech) b c = Some ch →
               channel (data u) b c = Some (take (e - s) (drop s ch))) ∧
    ((0 ≤ 2 ≤ 6)%Z → (6 ≤ Z.of_nat (shape2 speech))%Z →
     Z.of_nat s = 2%Z ∧ Z.of_nat e = 6%Z).
Proof.
  apply (trim_audio_is_a_segment hundredths demo_le_zero speech_audio 2%Z 6%Z
           speech 2%Z 6%Z).
  - reflexivity.
  - split; [reflexivity | repeat constructor].
  - reflexivity.
  - reflexivity.
Defined.

Lemma trim_audio_defaults_keep_audio_witness :
  trim_audio hundredths demo_le_zero speech_audio 0%Z (-100)%Z
  = inr {| audio_waveform := Some speech; audio_sample_rate := Some 100%Z |}.
Proof.
  apply (trim_audio_defaults_keep_audio hundredths demo_le_zero speech_audio
           0%Z (-100)%Z speech 0%Z).
  - reflexivity.
  - split; [reflexivity | repeat constructor].
  - reflexivity.
  - lia.
  - reflexivity.
Defined.

Lemma set_audio_length_exact_witness :
  ∃ u,
    set_audio_length 0%Z hundredths speech_audio 12%Z
    = inr {| audio_waveform := Some u; audio_sample_rate := Some 100%Z |} ∧
    well_shaped u ∧ shape0 u = shape0 speech ∧ shape1 u = shape1 speech ∧
    shape2 u = Z.to_nat 12 ∧
    ∀ b c ch, channel (data speech) b c = Some ch →
      channel (data u) b c
      = Some (take (Z.to_nat 12)
                (ch ++ replicate (Z.to_nat 12 - shape2 speech) 0%Z)).
Proof.
  apply (set_audio_length_exact 0%Z hundredths speech_audio 12%Z speech 12%Z).
  - reflexivity.
  - split; [reflexivity | repeat constructor].
  - reflexivity.
  - lia.
Defined.

Lemma set_audio_length_negative_target_witness :
  ∃ u,
    set_audio_length 0%Z hundredths speech_audio (-3)%Z
    = inr {| audio_waveform := Some u; audio_sample_rate := Some 100%Z |} ∧
    well_shaped u ∧ shape0 u = shape0 speech ∧ shape1 u = shape1 speech ∧
    shape2 u = shape2 speech - Z.to_nat (- -3) ∧
    ∀ b c ch, channel (data speech) b c = Some ch →
      channel (data u) b c = Some (take (shape2 speech - Z.to_nat (- -3)) ch).
Proof.
  apply (set_audio_length_negative_target 0%Z hundredths speech_audio (-3)%Z
           speech (-3)%Z).
  - reflexivity.
  - split; [reflexivity | repeat constructor].
  - reflexivity.
  - lia.
Defined.

Lemma set_audio_length_idempotent_witness :
  set_audio_length 0%Z hundredths
    {| audio_waveform :=
         Some {| shape0 := 1; shape1 := 1; shape2 := 5;
                 data := [[[0; 0; 5; 7; 0]]]%Z |};
       audio_sample_rate := Some 100%Z |} 5%Z
  = inr {| audio_waveform :=
             Some {| shape0 := 1; shape1 := 1; shape2 := 5;
                     data := [[[0; 0; 5; 7; 0]]]%Z |};
           audio_sample_rate := Some 100%Z |}.
Proof.
  apply (set_audio_length_idempotent 0%Z hundredths speech_audio 5%Z _ 5%Z).
  - reflexivity.
  - lia.
  - reflexivity.
Defined.

Lemma merge_close_regions_separates_witness :
  _merge_close_regions [(0, 2); (3, 5); (10, 12)]%Z 1 !! 0 = Some (0, 5)%Z ∧
  _merge_close_regions [(0, 2); (3, 5); (10, 12)]%Z 1 !! 1 = Some (10, 12)%Z ∧
  (1 < (10, 12).1 - (0, 5).2)%Z.
Proof.
  split; [reflexivity|]. split; [reflexivity|].
  apply (merge_close_regions_separates [(0, 2); (3, 5); (10, 12)]%Z 1 0
           (0, 5)%Z (10, 12)%Z); reflexivity.
Defined.

Lemma merge_close_regions_covers_witness :
  ∃ m, m ∈ _merge_close_regions [(0, 2); (3, 5); (10, 12)]%Z 1 ∧
       (m.1 ≤ (3, 5).1 ∧ (3, 5).2 ≤ m.2)%Z.
Proof.
  apply (merge_close_regions_covers [(0, 2); (3, 5); (10, 12)]%Z 1 (3, 5)%Z).
  - repeat (constructor; simpl; try lia).
  - repeat constructor.
Defined.

Lemma find_non_silent_regions_in_order_witness :
  (∀ i a, [(1, 4); (6, 8)]%Z !! i = Some a →
          (0 ≤ a.1 ∧ a.1 ≤ a.2 ∧ a.2 ≤ Z.of_nat (shape2 speech))%Z) ∧
  (∀ i a b, [(1, 4); (6, 8)]%Z !! i = Some a → [(1, 4); (6, 8)]%Z !! S i = Some b →
            (a.2 ≤ b.1 ∧ 1 < b.1 - a.2)%Z).
Proof.
  apply (find_non_silent_regions_in_order 0%Z hundredths demo_mean demo_peak
           demo_louder 2%Z 1%Z speech 0%Z 1%Z 100%Z 2%Z 1%Z [(1, 4); (6, 8)]%Z).
  - reflexivity.
  - reflexivity.
  - lia.
  - lia.
  - reflexivity.
Defined.


Lemma apply_crossfade_blends_only_the_overlap_witness :
  let f := Z.to_nat (Z.min (Z.of_nat (shape2 demo_main))
                       (Z.min (Z.of_nat (shape2 demo_main)) 2)) in
  ∃ r, SilenceTrimmer_apply_crossfade demo_linspace_at Z.mul Z.add demo_main
         demo_main 2 = inr r ∧
       Concatenator_apply_crossfade demo_linspace_at Z.mul Z.add demo_main
         demo_main 2 = inr r ∧
       well_shaped r ∧
       shape0 r = shape0 demo_main ∧ shape1 r = shape1 demo_main ∧
       shape2 r = shape2 demo_main + shape2 demo_main - f ∧
       ∀ b c ch1 ch2,
         channel (data demo_main) b c = Some ch1 →
         channel (data demo_main) b c = Some ch2 →
         ∃ ch blended,
           channel (data r) b c = Some ch ∧
           ch = take (shape2 demo_main - f) ch1 ++ blended ++ drop f ch2 ∧
           length blended = f ∧
           take (shape2 demo_main - f) ch = take (shape2 demo_main - f) ch1 ∧
           drop (shape2 demo_main) ch = drop f ch2.
Proof.
  apply (apply_crossfade_blends_only_the_overlap demo_linspace_at Z.mul Z.add
           demo_main demo_main 2).
  - split; [reflexivity | repeat constructor].
  - split; [reflexivity | repeat constructor].
  - reflexivity.
  - reflexivity.
  - lia.
Defined.

Lemma apply_crossfade_refuses_mismatch_witness :
  SilenceTrimmer_apply_crossfade demo_linspace_at Z.mul Z.add demo_main speech 2
  = inl (Builtin RuntimeError) ∧
  Concatenator_apply_crossfade demo_linspace_at Z.mul Z.add demo_main speech 2
  = inl (Builtin RuntimeError).
Proof.
  apply (apply_crossfade_refuses_mismatch demo_linspace_at Z.mul Z.add
           demo_main speech 2).
  right. left. simpl. lia.
Defined.

Lemma trim_silence_never_longer_witness :
  ∃ u, trim_silence 0%Z hundredths demo_linspace_at Z.mul Z.add demo_mean demo_peak
         demo_louder 2%Z 1%Z speech_audio 0%Z 1%Z 1%Z 1%Z
       = inr {| audio_waveform := Some u; audio_sample_rate := Some 100%Z |} ∧
       well_shaped u ∧ shape0 u = shape0 speech ∧ shape1 u = shape1 speech ∧
       (shape2 u ≤ shape2 speech)%nat.
Proof.
  apply (trim_silence_never_longer 0%Z hundredths demo_linspace_at Z.mul Z.add
           demo_mean demo_peak demo_louder 2%Z 1%Z speech_audio 0%Z 1%Z 1%Z 1%Z
           speech 100%Z 1%Z 1%Z 1%Z 2%Z 1%Z).
  - reflexivity.
  - reflexivity.
  - split; [reflexivity | repeat constructor].
  - simpl; lia.
  - simpl; lia.
  - simpl; lia.
  - lia.
  - reflexivity.
  - reflexivity.
  - reflexivity.
  - reflexivity.
  - reflexivity.
  - lia.
  - lia.
  - simpl; lia.
Defined.

Lemma trim_silence_raises_on_short_audio_witness :
  trim_silence 0%Z hundredths demo_linspace_at Z.mul Z.add demo_mean demo_peak
    demo_louder 2%Z 1%Z empty_audio 0%Z 1%Z 1%Z 1%Z
  = inl (Builtin RuntimeError).
Proof.
  apply (trim_silence_raises_on_short_audio 0%Z hundredths demo_linspace_at Z.mul
           Z.add demo_mean demo_peak demo_louder 2%Z 1%Z empty_audio 0%Z 1%Z 1%Z 1%Z
           empty_main 100%Z 1%Z 1%Z 1%Z 2%Z 1%Z).
  - reflexivity.
  - reflexivity.
  - simpl; lia.
  - reflexivity.
  - reflexivity.
  - reflexivity.
  - reflexivity.
  - reflexivity.
  - lia.
  - simpl; lia.
Defined.

Lemma trim_silence_keeps_silent_audio_witness :
  trim_silence 0%Z hundredths demo_linspace_at Z.mul Z.add demo_mean demo_peak
    demo_louder 2%Z 1%Z quiet_audio 0%Z 1%Z 1%Z 1%Z
  = inr quiet_audio.
Proof.
  apply (trim_silence_keeps_silent_audio 0%Z hundredths demo_linspace_at Z.mul
           Z.add demo_mean demo_peak demo_louder 2%Z 1%Z quiet_audio 0%Z 1%Z 1%Z 1%Z
           quiet 100%Z 1%Z 1%Z 1%Z 2%Z 1%Z [0; 0; 0]%Z).
  - reflexivity.
  - reflexivity.
  - reflexivity.
  - reflexivity.
  - reflexivity.
  - reflexivity.
  - reflexivity.
  - reflexivity.
  - repeat constructor.
Defined.

Lemma gain_without_pitch_is_samplewise_witness :
  ∃ u, GainPitch_process_audio inr demo_amplify demo_nonzero demo_resampler_for
         speech_audio 2%Z 0%Z 3
       = inr {| audio_waveform := Some u; audio_sample_rate := Some 100%Z |} ∧
       well_shaped u ∧ same_shape u speech ∧
       ∀ b c ch, channel (data speech) b c = Some ch →
                 channel (data u) b c = Some (demo_amplify 2 <$> ch).
Proof.
  apply (gain_without_pitch_is_samplewise inr demo_amplify demo_nonzero
           demo_resampler_for speech_audio 2%Z 0%Z 3 speech 100%Z 2%Z).
  - reflexivity.
  - reflexivity.
  - split; [reflexivity | repeat constructor].
  - simpl; lia.
  - lia.
  - reflexivity.
  - reflexivity.
Defined.

Lemma gain_pitch_raises_on_empty_audio_witness :
  GainPitch_process_audio inr demo_amplify demo_nonzero demo_resampler_for
    empty_audio 2%Z 5%Z 3
  = inl (Builtin ValueError).
Proof.
  apply (gain_pitch_raises_on_empty_audio inr demo_amplify demo_nonzero
           demo_resampler_for empty_audio 2%Z 5%Z 3 empty_main 100%Z 2%Z).
  - reflexivity.
  - reflexivity.
  - reflexivity.
  - lia.
  - reflexivity.
  - intros _. exists id. reflexivity.
Defined.

Lemma downsample_never_pads_witness :
  let total_samples := Z.of_nat (length [1; -2; 3]%Z) in
  let block_size := Z.max 1 (total_samples / Z.of_nat 4) in
  ∃ peaks, downsample (λ l, demo_mean (Z.abs <$> l)) 10%Z 4 [1; -2; 3]%Z = inr peaks ∧
           length peaks = 4 ∧
           ∀ i, i < 4 →
             let block_start :=
               Z.min (Z.of_nat i * block_size) (total_samples - 1) in
             let block_end := Z.min (block_start + block_size) total_samples in
             peaks !! i
             = Some (demo_mean (Z.abs <$> py_slice (Some block_start) (Some block_end)
                                            [1; -2; 3]%Z)).
Proof.
  apply (downsample_never_pads (λ l, demo_mean (Z.abs <$> l)) 10%Z 4 [1; -2; 3]%Z).
  lia.
Defined.

Lemma downsample_of_empty_signal_witness :
  downsample (λ l, demo_mean (Z.abs <$> l)) 10%Z 4 []
  = inr (replicate 4 (demo_mean (Z.abs <$> []))).
Proof.
  apply (downsample_of_empty_signal (λ l, demo_mean (Z.abs <$> l)) 10%Z 4). lia.
Defined.

Lemma equalizer_silences_short_audio_witness :
  Equalizer_process_audio 0%Z Z.mul Z.add demo_nonzero (λ t _ _, inr t)
    (λ x, x / 4)%Z (λ _ _, 0%Z) (λ c _ _ _, inr c) (λ g, g * 12)%Z demo_rms_of
    (λ r, 0 <? r)%Z (λ a b x, x * a / b)%Z speech_44100 demo_kwargs
  = inr {| audio_waveform := Some (zeros 0%Z (shape0 speech) (shape1 speech)
                                     (shape2 speech));
           audio_sample_rate := Some 44100%Z |}.
Proof.
  apply (equalizer_silences_short_audio 0%Z Z.mul Z.add demo_nonzero (λ t _ _, inr t)
           (λ x, x / 4)%Z (λ _ _, 0%Z) (λ c _ _ _, inr c) (λ g, g * 12)%Z demo_rms_of
           (λ r, 0 <? r)%Z (λ a b x, x * a / b)%Z speech_44100 demo_kwargs
           speech 44100%Z speech [1; 1; 1; 1; 1; 1; 1]%Z).
  - reflexivity.
  - reflexivity.
  - reflexivity.
  - reflexivity.
  - simpl; lia.
  - reflexivity.
Defined.

(** A stand-in for the biquad filter that changes every sample and keeps
    the shape. *)
Definition demo_biquad (c : @Tensor Z) (rate freq g : Z) : raised + @Tensor Z :=
  inr (on_channels (map (Z.add 1)) (shape2 c) c).

(** The chunk loop at a small scale: eight samples in chunks of five that
    overlap by two, one band. The first chunk is samples 0 to 4, filtered
    and faded out over its last two samples: 11, 21, 31, 41 * 2, 51 * 1. The
    second is samples 3 to 7, filtered and faded in over its first two:
    41 * 1, 51 * 2, 61, 71, 81. Both are added into the zero-filled buffer,
    so samples 3 and 4 hold 82 + 41 and 51 + 102. *)
Definition ramp : @Tensor Z :=
  {| shape0 := 1; shape1 := 1; shape2 := 8;
     data := [[[10; 20; 30; 40; 50; 60; 70; 80]]]%Z |}.

Example chunk_loop_overlap_add :
  equalize_chunks Z.mul Z.add demo_nonzero demo_biquad (λ g, g * 12)%Z
    ramp 44100%Z [(60%Z, 1%Z)] 2%Z 8%Z 2%Z [1; 2]%Z [2; 1]%Z (seq 0 2)
    (zeros 0%Z 1 1 8, 5%Z)
  = inr ({| shape0 := 1; shape1 := 1; shape2 := 8;
            data := [[[11; 21; 31; 123; 153; 61; 71; 81]]]%Z |}, 5%Z).
Proof. reflexivity. Qed.

(** One channel of [n] samples. *)
Definition steady (n : nat) : @Tensor Z :=
  {| shape0 := 1; shape1 := 1; shape2 := n; data := [[replicate n 3%Z]] |}.

Lemma steady_well_shaped n : well_shaped (steady n).
Proof.
  split; [reflexivity|]. repeat constructor. simpl. apply length_replicate.
Qed.

(** 1,323,001 samples at 44100 Hz, one more than a chunk of thirty seconds
    holds: the equalizer works on them in two chunks, the first faded out
    and the second, of 1025 samples, faded in. *)
Definition two_chunks : @Tensor Z := steady (Z.to_nat 1323001).

Definition two_chunks_audio : @AudioDict Z :=
  {| audio_waveform := Some two_chunks; audio_sample_rate := Some 44100%Z |}.

Lemma equalizer_keeps_shape_witness :
  ∃ u, Equalizer_process_audio 0%Z Z.mul Z.add demo_nonzero (λ t _ _, inr t)
         (λ x, x / 4)%Z (λ _ _, 1%Z) demo_biquad (λ g, g * 12)%Z demo_rms_of
         (λ r, 0 <? r)%Z (λ a b x, x * a / b)%Z two_chunks_audio demo_kwargs
       = inr {| audio_waveform := Some u; audio_sample_rate := Some 44100%Z |} ∧
       well_shaped u ∧ same_shape u two_chunks.
Proof.
  apply (equalizer_keeps_shape 0%Z Z.mul Z.add demo_nonzero (λ t _ _, inr t)
           (λ x, x / 4)%Z (λ _ _, 1%Z) demo_biquad (λ g, g * 12)%Z demo_rms_of
           (λ r, 0 <? r)%Z (λ a b x, x * a / b)%Z two_chunks_audio demo_kwargs
           two_chunks 44100%Z two_chunks [1; 1; 1; 1; 1; 1; 1]%Z).
  - reflexivity.
  - reflexivity.
  - reflexivity.
  - apply steady_well_shaped.
  - reflexivity.
  - intros c rate freq g Hc. eexists. split; [reflexivity|]. split.
    + apply well_shaped_on_channels; [exact Hc|]. intros ch Hch. by rewrite length_map.
    + repeat split.
Defined.
